(** * The audit pipeline of the accessibility checker

    A model of the scheduler (src/lib/rateLimiter.ts), of the orchestrator
    (src/lib/auditEngine.ts), of the six auditors (src/lib/baseAuditor.ts,
    src/lib/auditors/) and of the progress state kept by the audit context,
    with the properties of the crawl-and-audit pipeline stated over them;
    and of what surrounds the pipeline: the CSV parser that reads the list
    of URLs, the CSV export of the results, and the URL and text helpers
    of the HTML processor.

    JavaScript runs one task at a time.  A run is therefore a sequence of
    steps, each the synchronous code that starts when a timer fires, a
    promise settles or a public method is called, followed up to the next
    suspension on a timer or on a request.  Numbers are integers. *)

From Stdlib Require Import List ZArith Lia Bool Arith String Ascii Permutation.
Import ListNotations.

(** * JavaScript strings, as far as the auditors use them *)

(** Strings are sequences of ASCII code units; the case mappings and the
    whitespace class below are the ASCII parts of the JavaScript ones. *)
Module JS.
Local Open Scope string_scope.
Local Open Scope nat_scope.

Definition lower (c : ascii) : ascii :=
  let n := nat_of_ascii c in
  if (65 <=? n) && (n <=? 90) then ascii_of_nat (n + 32) else c.

Definition upper (c : ascii) : ascii :=
  let n := nat_of_ascii c in
  if (97 <=? n) && (n <=? 122) then ascii_of_nat (n - 32) else c.

Fixpoint map_chars (f : ascii -> ascii) (s : string) : string :=
  match s with
  | EmptyString => EmptyString
  | String c r => String (f c) (map_chars f r)
  end.

Definition toLowerCase : string -> string := map_chars lower.
Definition toUpperCase : string -> string := map_chars upper.

(** White space and line terminators below U+0080. *)
Definition is_space (c : ascii) : bool :=
  let n := nat_of_ascii c in
  (n =? 32) || ((9 <=? n) && (n <=? 13)).

Fixpoint trimStart (s : string) : string :=
  match s with
  | String c r => if is_space c then trimStart r else s
  | EmptyString => EmptyString
  end.

Fixpoint rev_onto (s acc : string) : string :=
  match s with
  | EmptyString => acc
  | String c r => rev_onto r (String c acc)
  end.

Definition reverse (s : string) : string := rev_onto s EmptyString.

Definition trimEnd (s : string) : string := reverse (trimStart (reverse s)).

Definition trim (s : string) : string := trimEnd (trimStart s).

Fixpoint startsWith (s p : string) : bool :=
  match p, s with
  | EmptyString, _ => true
  | String a p', String b s' => Ascii.eqb a b && startsWith s' p'
  | String _ _, EmptyString => false
  end.

Definition endsWith (s p : string) : bool := startsWith (reverse s) (reverse p).

Fixpoint includes (s sub : string) : bool :=
  startsWith s sub ||
  match s with
  | EmptyString => false
  | String _ r => includes r sub
  end.

(** [s.split(c)] for a one-character separator: never the empty list. *)
Fixpoint split (c : ascii) (s : string) : list string :=
  match s with
  | EmptyString => [EmptyString]
  | String a r =>
      if Ascii.eqb a c then EmptyString :: split c r
      else match split c r with
           | x :: xs => String a x :: xs
           | [] => [String a EmptyString]
           end
  end.

Fixpoint join (sep : string) (l : list string) : string :=
  match l with
  | [] => EmptyString
  | [x] => x
  | x :: r => x ++ sep ++ join sep r
  end.

(** [s || d] on strings: the empty string is falsy. *)
Definition or_else (s d : string) : string :=
  match s with EmptyString => d | _ => s end.

(** [v || d] where [v] may be null. *)
Definition or_null (v : option string) (d : string) : string :=
  match v with Some s => or_else s d | None => d end.

Definition truthy (s : string) : bool :=
  match s with EmptyString => false | _ => true end.

Definition charAt (i : nat) (s : string) : string :=
  match String.get i s with Some c => String c EmptyString | None => EmptyString end.

Definition is_digit (c : ascii) : bool :=
  let n := nat_of_ascii c in (48 <=? n) && (n <=? 57).

Definition is_alpha (c : ascii) : bool :=
  let n := nat_of_ascii (lower c) in (97 <=? n) && (n <=? 122).

(** A JavaScript number that is a natural number, or NaN. *)
Definition number := option nat.

Fixpoint digits (s : string) (acc : nat) : nat :=
  match s with
  | String c r => if is_digit c then digits r (10 * acc + (nat_of_ascii c - 48)) else acc
  | EmptyString => acc
  end.

(** [parseInt(s)] on a string without sign: the leading digits after white
    space, NaN when there is none. *)
Definition parseInt (s : string) : number :=
  match trimStart s with
  | String c r => if is_digit c then Some (digits (String c r) 0) else None
  | EmptyString => None
  end.

Definition digit_char (d : nat) : ascii := ascii_of_nat (48 + d).

Fixpoint decimal (fuel n : nat) (acc : string) : string :=
  match fuel with
  | O => acc
  | S f => let acc' := String (digit_char (n mod 10)) acc in
           if n / 10 =? 0 then acc' else decimal f (n / 10) acc'
  end.

Definition nat_to_string (n : nat) : string := decimal (S n) n EmptyString.

(** [String(x)] for such a number. *)
Definition number_to_string (x : number) : string :=
  match x with Some n => nat_to_string n | None => "NaN" end.

(** [a > b + 1] on numbers: false as soon as one side is NaN. *)
Definition gt_succ (a b : number) : bool :=
  match a, b with
  | Some x, Some y => y + 1 <? x
  | _, _ => false
  end.

(** A thrown Error object. *)
Record Error := mkError { name : string; message : string }.

Definition new_Error (msg : string) : Error := mkError "Error" msg.

Definition dquote : string := String (ascii_of_nat 34) EmptyString.

End JS.

(** * The URL constructor of the platform

    [new URL(input)] and [new URL(input, base)] follow the basic URL parser
    of the WHATWG URL Standard.  The model covers what the auditors rely on:
    stripping of the input, the scheme, failure of an input without scheme
    when there is no base, the authority of special schemes, path segments
    with their dot segments and percent-encoding, query, fragment, relative
    references against a base, and serialisation.  Hosts are taken as
    domains written in ASCII (no IPv4 or IPv6 normalisation, no IDNA), the
    file scheme has no drive-letter rules, and query and fragment are kept
    as written. *)
Module URL.
Import JS.
Local Open Scope string_scope.
Local Open Scope nat_scope.

Record t := mk {
  scheme : string;
  authority : option string;      (* null host: None *)
  opaque : option string;         (* an opaque path, for [mailto:], [data:] *)
  path : list string;             (* the segments otherwise *)
  query : option string;
  fragment : option string
}.

Definition code (c : ascii) : nat := nat_of_ascii c.

Definition is_c0_or_space (c : ascii) : bool := code c <=? 32.

Definition is_tab_or_newline (c : ascii) : bool :=
  (code c =? 9) || (code c =? 10) || (code c =? 13).

Fixpoint filter_chars (f : ascii -> bool) (s : string) : string :=
  match s with
  | EmptyString => EmptyString
  | String c r => if f c then String c (filter_chars f r) else filter_chars f r
  end.

Fixpoint drop_while (f : ascii -> bool) (s : string) : string :=
  match s with
  | String c r => if f c then drop_while f r else s
  | EmptyString => EmptyString
  end.

Definition clean (input : string) : string :=
  filter_chars (fun c => negb (is_tab_or_newline c))
    (reverse (drop_while is_c0_or_space (reverse (drop_while is_c0_or_space input)))).

Definition is_scheme_char (c : ascii) : bool :=
  is_alpha c || is_digit c || (code c =? 43) || (code c =? 45) || (code c =? 46).

(** Scheme state: the scheme in lower case and what follows the colon. *)
Fixpoint scan_scheme (s acc : string) : option (string * string) :=
  match s with
  | String c r =>
      if code c =? 58 then Some (reverse acc, r)
      else if is_scheme_char c then scan_scheme r (String (lower c) acc)
      else None
  | EmptyString => None
  end.

Definition split_scheme (s : string) : option (string * string) :=
  match s with
  | String c _ => if is_alpha c then scan_scheme s EmptyString else None
  | EmptyString => None
  end.

Definition is_special (sch : string) : bool :=
  existsb (String.eqb sch) ["ftp"; "file"; "http"; "https"; "ws"; "wss"].

Definition default_port (sch : string) : string :=
  if String.eqb sch "http" || String.eqb sch "ws" then "80"
  else if String.eqb sch "https" || String.eqb sch "wss" then "443"
  else if String.eqb sch "ftp" then "21" else EmptyString.

Definition is_slash (special : bool) (c : ascii) : bool :=
  (code c =? 47) || (special && (code c =? 92)).

(** Cuts [s] at the first character satisfying [f]: what precedes it, and
    the rest from that character on. *)
Fixpoint break (f : ascii -> bool) (s : string) : string * string :=
  match s with
  | EmptyString => (EmptyString, EmptyString)
  | String c r => if f c then (EmptyString, s)
                  else let (a, b) := break f r in (String c a, b)
  end.

Definition hex (n : nat) : ascii :=
  if n <? 10 then ascii_of_nat (48 + n) else ascii_of_nat (55 + n).

Definition in_path_encode_set (c : ascii) : bool :=
  let n := code c in
  (n <=? 32) || (126 <? n) || (n =? 34) || (n =? 35) || (n =? 60) || (n =? 62)
  || (n =? 63) || (n =? 94) || (n =? 96) || (n =? 123) || (n =? 125).

Fixpoint encode_path (s : string) : string :=
  match s with
  | EmptyString => EmptyString
  | String c r =>
      if in_path_encode_set c
      then String "%" (String (hex (code c / 16)) (String (hex (code c mod 16)) (encode_path r)))
      else String c (encode_path r)
  end.

Definition is_single_dot (seg : string) : bool :=
  String.eqb seg "." || String.eqb (toLowerCase seg) "%2e".

Definition is_double_dot (seg : string) : bool :=
  existsb (String.eqb (toLowerCase seg)) [".."; ".%2e"; "%2e."; "%2e%2e"].

(** Splits at the slashes of the path state. *)
Fixpoint segments (special : bool) (s : string) : list string :=
  match s with
  | EmptyString => [EmptyString]
  | String c r =>
      if is_slash special c then EmptyString :: segments special r
      else match segments special r with
           | x :: xs => String c x :: xs
           | [] => [String c EmptyString]
           end
  end.

(** Path state: the segments of the input appended to [acc]. *)
Fixpoint walk (segs : list string) (acc : list string) : list string :=
  match segs with
  | [] => acc
  | seg :: rest =>
      let last := match rest with [] => true | _ => false end in
      if is_double_dot seg then
        let acc' := removelast acc in
        walk rest (if last then acc' ++ [EmptyString] else acc')%list
      else if is_single_dot seg then
        walk rest (if last then acc ++ [EmptyString] else acc)%list
      else walk rest (acc ++ [encode_path seg])%list
  end.

Definition is_query_or_hash (c : ascii) : bool := (code c =? 63) || (code c =? 35).
Definition is_hash (c : ascii) : bool := code c =? 35.

(** What follows the path: query and fragment. *)
Definition tail_parts (s : string) : option string * option string :=
  match s with
  | String c r =>
      if code c =? 63 then
        let (q, f) := break is_hash r in
        (Some q, match f with String _ f' => Some f' | EmptyString => None end)
      else (None, Some r)
  | EmptyString => (None, None)
  end.

Definition is_forbidden_host_char (c : ascii) : bool :=
  let n := code c in
  (n <=? 32) || (n =? 127) || (126 <? n)
  || existsb (Nat.eqb n) [35; 37; 47; 58; 60; 62; 63; 64; 91; 92; 93; 94; 124].

Fixpoint any_char (f : ascii -> bool) (s : string) : bool :=
  match s with
  | EmptyString => false
  | String c r => f c || any_char f r
  end.

Fixpoint port_value (s : string) (acc : N) : N :=
  match s with
  | String c r => port_value r (10 * acc + N.of_nat (code c - 48))%N
  | EmptyString => acc
  end.

Fixpoint all_digits (s : string) : bool :=
  match s with
  | EmptyString => true
  | String c r => is_digit c && all_digits r
  end.

(** Splits at the last occurrence of [c], if any. *)
Definition split_last (c : ascii) (s : string) : option (string * string) :=
  let (b, a) := break (Ascii.eqb c) (reverse s) in
  match a with
  | String _ a' => Some (reverse a', reverse b)
  | EmptyString => None
  end.

(** Authority state: credentials, host and port, serialised again. *)
Definition parse_authority (sch : string) (special : bool) (s : string) : option string :=
  let (cred, hostport) :=
    match split_last "@" s with
    | Some (c, h) => (c ++ "@", h)
    | None => (EmptyString, s)
    end in
  let (host, port) :=
    match split_last ":" hostport with
    | Some (h, p) => (h, p)
    | None => (hostport, EmptyString)
    end in
  if negb (all_digits port) then None
  else if (256 * 256 <=? port_value port 0)%N then None
  else if special && negb (truthy host) then None
  else if any_char is_forbidden_host_char host then None
  else
    let host' := if special then toLowerCase host else host in
    let port' := nat_to_string (N.to_nat (port_value port 0)) in
    Some (cred ++ host'
          ++ (if negb (truthy port) || String.eqb port' (default_port sch)
              then EmptyString else ":" ++ port')).

(** From the authority on: authority, path, query, fragment. *)
Definition parse_from_authority (sch : string) (special : bool) (s : string) : option t :=
  let (auth, rest) := break (fun c => is_slash special c || is_query_or_hash c) s in
  match parse_authority sch special auth with
  | None => None
  | Some a =>
      let (p, tl) := break is_query_or_hash rest in
      let segs := match p with
                  | EmptyString => if special then [EmptyString] else []
                  | String _ p' => walk (segments special p') []
                  end in
      let (q, f) := tail_parts tl in
      Some (mk sch (Some a) None segs q f)
  end.

(** Path state from a given list of segments. *)
Definition parse_path (sch : string) (special : bool) (auth : option string)
           (acc : list string) (s : string) : t :=
  let (p, tl) := break is_query_or_hash s in
  let (q, f) := tail_parts tl in
  mk sch auth None (walk (segments special p) acc) q f.

(** After the scheme of an absolute URL. *)
Definition parse_absolute (sch rest : string) : option t :=
  if String.eqb sch "file" then
    match rest with
    | String a (String b r) =>
        if is_slash true a && is_slash true b then
          let (h, p) := break (fun c => is_slash true c || is_query_or_hash c) r in
          if any_char is_forbidden_host_char h then None
          else Some (parse_path sch true (Some (toLowerCase h)) []
                       (match p with String c p' => if is_slash true c then p' else p
                                   | EmptyString => p end))
        else Some (parse_path sch true (Some EmptyString) []
                     (if is_slash true a then String b r else rest))
    | String a EmptyString =>
        Some (parse_path sch true (Some EmptyString) []
                (if is_slash true a then EmptyString else rest))
    | EmptyString => Some (parse_path sch true (Some EmptyString) [] EmptyString)
    end
  else if is_special sch then
    parse_from_authority sch true (drop_while (is_slash true) rest)
  else
    match rest with
    | String a r =>
        if code a =? 47 then
          match r with
          | String b r' =>
              if code b =? 47 then parse_from_authority sch false r'
              else Some (parse_path sch false None [] r)
          | EmptyString => Some (parse_path sch false None [] r)
          end
        else
          let (p, tl) := break is_query_or_hash rest in
          let (q, f) := tail_parts tl in
          Some (mk sch None (Some p) [] q f)
    | EmptyString => Some (mk sch None (Some EmptyString) [] None None)
    end.

(** [new URL(input)]: [None] when the constructor throws a TypeError. *)
Definition parse (input : string) : option t :=
  match split_scheme (clean input) with
  | Some (sch, rest) => parse_absolute sch rest
  | None => None     (* no scheme state without a base: failure *)
  end.

(** Relative state. *)
Definition parse_relative (base : t) (s : string) : option t :=
  let special := is_special (scheme base) in
  match s with
  | EmptyString =>
      Some (mk (scheme base) (authority base) None (path base) (query base) None)
  | String c r =>
      if is_slash special c then
        match r with
        | String d r' =>
            if is_slash special d then
              parse_from_authority (scheme base) special
                (if special then drop_while (is_slash true) r' else r')
            else Some (parse_path (scheme base) special (authority base) [] r)
        | EmptyString => Some (parse_path (scheme base) special (authority base) [] r)
        end
      else if code c =? 63 then
        let (q, f) := tail_parts s in
        Some (mk (scheme base) (authority base) None (path base) q f)
      else if code c =? 35 then
        Some (mk (scheme base) (authority base) None (path base) (query base) (Some r))
      else
        Some (parse_path (scheme base) special (authority base)
                (removelast (path base)) s)
  end.

(** [new URL(input, base)]. *)
Definition parse_with_base (input base : string) : option t :=
  match parse base with
  | None => None
  | Some b =>
      let s := clean input in
      match split_scheme s with
      | Some (sch, rest) =>
          if is_special sch && String.eqb sch (scheme b)
             && negb (String.eqb sch "file")
             && negb (match rest with
                      | String x (String y _) => is_slash true x && is_slash true y
                      | _ => false
                      end)
          then parse_relative b rest
          else parse_absolute sch rest
      | None =>
          match opaque b with
          | Some o =>
              match s with
              | String c r =>
                  if code c =? 35
                  then Some (mk (scheme b) None (Some o) [] (query b) (Some r))
                  else None
              | EmptyString => None
              end
          | None => parse_relative b s
          end
      end
  end.

Definition pathname (u : t) : string :=
  match opaque u with
  | Some o => o
  | None => fold_right (fun seg acc => "/" ++ seg ++ acc) EmptyString (path u)
  end.

Definition href (u : t) : string :=
  scheme u ++ ":"
  ++ match authority u with Some a => "//" ++ a | None => EmptyString end
  ++ pathname u
  ++ match query u with Some q => "?" ++ q | None => EmptyString end
  ++ match fragment u with Some f => "#" ++ f | None => EmptyString end.

End URL.

(** * Documents, as the DOMParser of the platform returns them *)
#[local] Set Warnings "-register-all".
Module DOM.
Import JS.
Local Open Scope string_scope.
Local Open Scope nat_scope.

(** Element names and attribute names are in lower case, as the HTML parser
    leaves them. *)
Inductive Node :=
| Text (data : string)
| Element (localName : string) (attributes : list (string * string))
          (childNodes : list Node).

Record Document := { documentElement : Node }.

Definition is_element (n : Node) : bool :=
  match n with Element _ _ _ => true | Text _ => false end.

Definition tagName (n : Node) : string :=
  match n with Element name _ _ => toUpperCase name | Text _ => EmptyString end.

Definition children (n : Node) : list Node :=
  match n with Element _ _ c => c | Text _ => [] end.

Fixpoint lookup (name : string) (attrs : list (string * string)) : option string :=
  match attrs with
  | [] => None
  | (k, v) :: r => if String.eqb k name then Some v else lookup name r
  end.

(** [element.getAttribute(name)]: null when the attribute is absent. *)
Definition getAttribute (name : string) (n : Node) : option string :=
  match n with Element _ attrs _ => lookup name attrs | Text _ => None end.

(** [element.className]. *)
Definition className (n : Node) : string :=
  match getAttribute "class" n with Some v => v | None => EmptyString end.

(** [node.textContent]: the text of all descendants, in tree order. *)
Fixpoint textContent (n : Node) : string :=
  match n with
  | Text d => d
  | Element _ _ c =>
      (fix go (l : list Node) : string :=
         match l with
         | [] => EmptyString
         | x :: r => textContent x ++ go r
         end) c
  end.

(** The element itself and its descendant elements, in tree order. *)
Fixpoint subtree (n : Node) : list Node :=
  match n with
  | Text _ => []
  | Element _ _ c =>
      n :: (fix go (l : list Node) : list Node :=
              match l with
              | [] => []
              | x :: r => subtree x ++ go r
              end)%list c
  end.

Definition descendants (n : Node) : list Node := flat_map subtree (children n).

(** The selectors the auditors use: a type selector, with an attribute
    presence or an attribute value test; a selector list is a list. *)
Inductive compound :=
| Type_ (name : string)
| HasAttr (name attr : string)
| AttrIs (name attr value : string).

Definition selector := list compound.

Definition has_name (name : string) (n : Node) : bool :=
  match n with Element l _ _ => String.eqb l name | Text _ => false end.

(** The value of the [type] attribute is matched ASCII case-insensitively
    in an HTML document. *)
Definition matches1 (c : compound) (n : Node) : bool :=
  match c with
  | Type_ name => has_name name n
  | HasAttr name attr =>
      has_name name n && match getAttribute attr n with Some _ => true | None => false end
  | AttrIs name attr value =>
      has_name name n &&
      match getAttribute attr n with
      | Some v => String.eqb (toLowerCase v) (toLowerCase value)
      | None => false
      end
  end.

Definition matches (sel : selector) (n : Node) : bool :=
  existsb (fun c => matches1 c n) sel.

(** [document.querySelectorAll(sel)]. *)
Definition querySelectorAll (sel : selector) (d : Document) : list Node :=
  filter (matches sel) (subtree (documentElement d)).

(** [element.querySelectorAll(sel)]: among the descendants only. *)
Definition querySelectorAll_in (sel : selector) (e : Node) : list Node :=
  filter (matches sel) (descendants e).

(** [element.querySelector(sel)]: the first match, or null. *)
Definition querySelector_in (sel : selector) (e : Node) : option Node :=
  hd_error (querySelectorAll_in sel e).

(** [document.body]: the first body or frameset child of the root. *)
Definition body (d : Document) : option Node :=
  find (fun n => has_name "body" n || has_name "frameset" n)
       (children (documentElement d)).

(** [document.getElementById(id)]. *)
Definition getElementById (id : string) (d : Document) : option Node :=
  find (fun n => match getAttribute "id" n with
                 | Some v => String.eqb v id
                 | None => false
                 end)
       (subtree (documentElement d)).

End DOM.

(** * src/types/audit.ts, src/lib/baseAuditor.ts, src/lib/auditors/ *)
Module Auditors.
Import JS DOM.
Local Open Scope string_scope.
Local Open Scope nat_scope.

Inductive AuditType :=
| IMAGE_MISSING_ALT | IMAGE_WITH_ALT | INACCESSIBLE_LINK | INACCESSIBLE_BUTTON
| PDF_LINK | OFFICE_LINK | TABLE_INFO | HEADING_HIERARCHY.

Record AuditResult := mkResult {
  fullUrl : string;
  type : AuditType;
  details : string;
  linkText : string;
  targetUrl : string;
  imageFilename : string
}.

(** ** Exceptions and the abort signal *)

Inductive completion (A : Type) :=
| Normal (a : A)
| Throw (e : Error).
Arguments Normal {A} a.
Arguments Throw {A} e.

(** [signal.aborted] at its k-th read by the running auditor. *)
Definition Signal := nat -> bool.

(** Code that reads the signal and may throw; the counter is the number of
    reads made so far. *)
Definition M (A : Type) := Signal -> nat -> completion A * nat.

Definition ret {A} (a : A) : M A := fun _ k => (Normal a, k).

Definition throw {A} (e : Error) : M A := fun _ k => (Throw e, k).

Definition bind {A B} (m : M A) (f : A -> M B) : M B :=
  fun sig k =>
    match m sig k with
    | (Normal a, k') => f a sig k'
    | (Throw e, k') => (Throw e, k')
    end.

Notation "x <- m ;; f" := (bind m (fun x => f))
  (at level 61, m at next level, right associativity).
Notation "m ;;; f" := (bind m (fun _ => f))
  (at level 61, right associativity).

Definition lift {A} (c : completion A) : M A := fun _ k => (c, k).

Definition try_catch {A} (body : M A) (handler : Error -> M A) : M A :=
  fun sig k =>
    match body sig k with
    | (Normal a, k') => (Normal a, k')
    | (Throw e, k') => handler e sig k'
    end.

Definition signal_aborted : M bool := fun sig k => (Normal (sig k), S k).

(** [array.forEach] with a callback that pushes onto [results]: what each
    call pushes, in order; a throwing call ends the iteration. *)
Fixpoint forEach {A} (l : list A) (f : A -> M (list AuditResult)) : M (list AuditResult) :=
  match l with
  | [] => ret []
  | x :: r => a <- f x ;; b <- forEach r f ;; ret (a ++ b)%list
  end.

(** ** AbstractBaseAuditor *)

(** What the proxy request of [fetchAndParseHTML] comes to. *)
Inductive error_body :=
| NotJson                          (* response.json() rejects *)
| Json (error : option string).    (* the parsed body and its error field *)

Inductive response :=
| Fetched (doc : Document)         (* response.ok: the parse of data.html *)
| NotOk (body : error_body) (status : nat) (statusText : string)
| AbortError                       (* the signal or the 15 s timer aborted *)
| Failure (message : string)       (* any other Error, a parse failure included *)
| NonError.                        (* a thrown value that is not an Error *)

Definition fetchAndParseHTML (url : string) (r : response) : completion Document :=
  match r with
  | Fetched doc => Normal doc
  | NotOk body status statusText =>
      let msg :=
        match body with
        | NotJson => "Unknown error"
        | Json e => or_null e ("HTTP " ++ nat_to_string status ++ ": " ++ statusText)
        end in
      Throw (new_Error ("Failed to fetch " ++ url ++ ": " ++ msg))
  | AbortError => Throw (new_Error "Request was cancelled")
  | Failure m => Throw (new_Error ("Failed to fetch " ++ url ++ ": " ++ m))
  | NonError => Throw (new_Error ("Failed to fetch " ++ url ++ ": Unknown error"))
  end.

Definition createAuditResult (auditType : AuditType)
           (url details linkText targetUrl imageFilename : string) : AuditResult :=
  mkResult url auditType details linkText targetUrl imageFilename.

(** Logs the message and returns no result. *)
Definition handleError (error : Error) (url : string) : list AuditResult := [].

Definition checkAbortSignal : M unit :=
  b <- signal_aborted ;;
  if b then throw (new_Error "Audit was cancelled") else ret tt.

(** ** AuditUtils *)

Definition containsTriggerPhrase (text : string) (triggerPhrases : list string) : bool :=
  let normalizedText := trim (toLowerCase text) in
  existsb (fun phrase => includes normalizedText (toLowerCase phrase)) triggerPhrases.

Definition containsExcludedPhrase (text : string) (excludedPhrases : list string) : bool :=
  let normalizedText := trim (toLowerCase text) in
  existsb (fun phrase => includes normalizedText (toLowerCase phrase)) excludedPhrases.

Definition extractFilename (url : string) : string :=
  match URL.parse url with
  | Some urlObj =>
      let segments := split "/" (URL.pathname urlObj) in
      or_else (last segments EmptyString) EmptyString
  | None => EmptyString
  end.

(** The loop of [validateHeadingHierarchy] from index i on, [previous]
    being sequence[i - 1]. *)
Fixpoint valid_from (previous : number) (rest : list number) : bool :=
  match rest with
  | [] => true
  | current :: r => if gt_succ current previous then false else valid_from current r
  end.

Definition validateHeadingHierarchy (headings : list Node) : bool * list number :=
  let sequence := map (fun h => parseInt (charAt 1 (tagName h))) headings in
  let isValid := match sequence with [] => true | x :: r => valid_from x r end in
  (isValid, sequence).

Definition nonempty {A} (l : list A) : bool :=
  match l with [] => false | _ => true end.

Definition analyzeTableStructure (table : Node) : bool * string * bool * bool :=
  let caption := querySelector_in [Type_ "caption"] table in
  let thead := querySelector_in [Type_ "thead"] table in
  let hasColumnHeaders :=
    if match thead with
       | Some th => nonempty (querySelectorAll_in [Type_ "th"] th)
       | None => false
       end
    then true
    else match querySelector_in [Type_ "tr"] table with
         | Some firstRow =>
             forallb (fun cell => String.eqb (tagName cell) "TH")
                     (querySelectorAll_in [Type_ "th"; Type_ "td"] firstRow)
         | None => false
         end in
  let hasRowHeaders :=
    existsb (fun tr => nonempty (querySelectorAll_in [Type_ "th"] tr)
                       && nonempty (querySelectorAll_in [Type_ "td"] tr))
            (querySelectorAll_in [Type_ "tr"] table) in
  (match caption with Some _ => true | None => false end,
   match caption with Some c => trim (textContent c) | None => EmptyString end,
   hasColumnHeaders, hasRowHeaders).

(** ** ImageAuditor *)

Definition image_result (url : string) (img : Node) : AuditResult :=
  let altText := getAttribute "alt" img in
  let src := or_null (getAttribute "src" img) EmptyString in
  let filename := extractFilename src in
  match altText with
  | Some a =>
      if negb (truthy a) || String.eqb (trim a) EmptyString
      then createAuditResult IMAGE_MISSING_ALT url EmptyString EmptyString src filename
      else mkResult url IMAGE_WITH_ALT ("alt=" ++ dquote ++ a ++ dquote)
                    EmptyString src filename
  | None => createAuditResult IMAGE_MISSING_ALT url EmptyString EmptyString src filename
  end.

Definition ImageAuditor_body (url : string) (r : response) : M (list AuditResult) :=
  checkAbortSignal ;;;
  document <- lift (fetchAndParseHTML url r) ;;
  let images := querySelectorAll [Type_ "img"] document in
  forEach images (fun img => checkAbortSignal ;;; ret [image_result url img]).

(** ** LinkAuditor *)

Definition TRIGGER_PHRASES : list string :=
  ["click here"; "read more"; "learn more"; "go here"; "see more";
   "click"; "details"; "see details"; "more"; "see all"; "view all"].

Definition EXCLUDED_PHRASES : list string := ["learn more about us"].

Definition VALID_TLDS : list string :=
  [".com"; ".org"; ".net"; ".gov"; ".edu"; ".info"; ".io"; ".co"; ".us"; ".ca"].

Definition findInaccessibleLinks (document : Document) (url : string) : M (list AuditResult) :=
  let links := querySelectorAll [HasAttr "a" "href"] document in
  forEach links (fun link =>
    checkAbortSignal ;;;
    let linkText := or_else (toLowerCase (trim (textContent link))) EmptyString in
    let href := or_null (getAttribute "href" link) EmptyString in
    if containsTriggerPhrase linkText TRIGGER_PHRASES then
      if negb (containsExcludedPhrase linkText EXCLUDED_PHRASES) then
        ret [createAuditResult INACCESSIBLE_LINK url EmptyString
               (or_else (trim (textContent link)) EmptyString) href EmptyString]
      else ret []
    else ret []).

(** RAW_URL_PATTERN, with the g flag: not after an at sign, at a word
    boundary, [https?:\/\/] or [www\.], then [[a-zA-Z0-9.-]+\.[a-zA-Z]{2,}],
    then optionally a slash and characters other than white space, angle
    brackets and quotes. *)
Definition is_word (c : ascii) : bool :=
  is_alpha c || is_digit c || (nat_of_ascii c =? 95).

Definition is_host_char (c : ascii) : bool :=
  is_alpha c || is_digit c || (nat_of_ascii c =? 46) || (nat_of_ascii c =? 45).

Definition is_path_char (c : ascii) : bool :=
  negb (is_space c || existsb (Nat.eqb (nat_of_ascii c)) [60; 62; 34; 39]).

Fixpoint letters (s : string) : nat :=
  match s with
  | String c r => if is_alpha c then S (letters r) else 0
  | EmptyString => 0
  end.

(** The greedy host class followed by a dot and two letters or more: the
    end of the match with the longest host, [i] characters of the host
    class having been read. *)
Fixpoint tld_end (s : string) (i : nat) (best : option nat) : option nat :=
  match s with
  | String c r =>
      if is_host_char c then
        tld_end r (S i)
          (if (nat_of_ascii c =? 46) && (1 <=? i) && (2 <=? letters r)
           then Some (i + 1 + letters r) else best)
      else best
  | EmptyString => best
  end.

Fixpoint take_while (f : ascii -> bool) (s : string) : string :=
  match s with
  | String c r => if f c then String c (take_while f r) else EmptyString
  | EmptyString => EmptyString
  end.

Fixpoint skip (n : nat) (s : string) : string :=
  match n, s with
  | S n', String _ r => skip n' r
  | _, _ => s
  end.

(** The match starting at the head of [s], [prev] being the character
    before it. *)
Definition match_here (prev : option ascii) (s : string) : option string :=
  let boundary :=
    match prev with
    | Some p => negb (is_word p) && negb (nat_of_ascii p =? 64)
    | None => true
    end in
  let prefix :=
    if startsWith s "https://" then Some 8
    else if startsWith s "http://" then Some 7
    else if startsWith s "www." then Some 4
    else None in
  match prefix with
  | Some n =>
      if boundary then
        match tld_end (skip n s) 0 None with
        | Some e =>
            let rest := skip (n + e) s in
            let tail :=
              match rest with
              | String c r => if nat_of_ascii c =? 47
                              then String c (take_while is_path_char r)
                              else EmptyString
              | EmptyString => EmptyString
              end in
            Some (substring 0 (n + e) s ++ tail)
        | None => None
        end
      else None
  | None => None
  end.

(** [text.match(RAW_URL_PATTERN) || []]: the matches from left to right,
    [pending] characters of the last match being still to pass. *)
Fixpoint match_all (prev : option ascii) (s : string) (pending : nat) : list string :=
  match s with
  | EmptyString => []
  | String c r =>
      match pending with
      | S p => match_all (Some c) r p
      | O =>
          match match_here prev s with
          | Some m => m :: match_all (Some c) r (String.length m - 1)
          | None => match_all (Some c) r 0
          end
      end
  end.

Definition isValidUrl (url : string) : bool :=
  if includes url "mailto:" || includes url "@" then false
  else existsb (fun tld => endsWith (toLowerCase url) tld) VALID_TLDS.

Definition findRawUrls (document : Document) (url : string) : M (list AuditResult) :=
  checkAbortSignal ;;;
  match body document with
  | None => throw (mkError "TypeError" "Cannot read properties of null")
  | Some b =>
      let visibleText := or_else (textContent b) EmptyString in
      let rawUrls := match_all None visibleText 0 in
      forEach rawUrls (fun rawUrl =>
        checkAbortSignal ;;;
        let fullUrl :=
          if negb (startsWith rawUrl "http://") && negb (startsWith rawUrl "https://")
          then "https://" ++ rawUrl else rawUrl in
        if isValidUrl fullUrl
        then ret [createAuditResult INACCESSIBLE_LINK url EmptyString EmptyString
                    fullUrl EmptyString]
        else ret [])
  end.

Definition LinkAuditor_body (url : string) (r : response) : M (list AuditResult) :=
  checkAbortSignal ;;;
  document <- lift (fetchAndParseHTML url r) ;;
  a <- findInaccessibleLinks document url ;;
  b <- findRawUrls document url ;;
  ret (a ++ b)%list.

(** ** ButtonAuditor *)

Definition trimmed (v : option string) : option string :=
  match v with
  | Some s => if truthy (trim s) then Some (trim s) else None
  | None => None
  end.

Definition extractButtonLabel (document : Document) (element : Node) : string :=
  match trimmed (getAttribute "aria-label" element) with
  | Some l => l
  | None =>
  match trimmed (getAttribute "title" element) with
  | Some l => l
  | None =>
  match trimmed (getAttribute "value" element) with
  | Some l => l
  | None =>
  match trimmed (Some (textContent element)) with
  | Some l => l
  | None =>
      match getAttribute "aria-labelledby" element with
      | Some labelledBy =>
          if truthy labelledBy then
            match getElementById labelledBy document with
            | Some labelElement =>
                match trimmed (Some (textContent labelElement)) with
                | Some l => l
                | None => EmptyString
                end
            | None => EmptyString
            end
          else EmptyString
      | None => EmptyString
      end
  end end end end.

Definition isIconOnlyButton (element : Node) (hasLabel : bool) : bool :=
  if hasLabel then false
  else
    let hasSvg := match querySelector_in [Type_ "svg"] element with
                  | Some _ => true | None => false end in
    let className := or_else (className element) EmptyString in
    let hasIconClass := includes className "icon" || includes className "fa-"
                        || includes className "glyphicon"
                        || includes className "material-icons" in
    let hasIconImage := match querySelector_in [Type_ "img"] element with
                        | Some _ => true | None => false end in
    hasSvg || hasIconClass || hasIconImage.

Definition button_results (document : Document) (url : string) (element : Node)
  : list AuditResult :=
  let label := extractButtonLabel document element in
  let labelText := toLowerCase (trim (or_else label EmptyString)) in
  let hasLabel := truthy labelText in
  let isIconOnly := isIconOnlyButton element hasLabel in
  let hasVagueLabel := hasLabel && containsTriggerPhrase labelText TRIGGER_PHRASES in
  let isExcluded := containsExcludedPhrase labelText EXCLUDED_PHRASES in
  if (isIconOnly || negb hasLabel || hasVagueLabel) && negb isExcluded then
    let details := if isIconOnly then "Missing accessible label (icon-only)"
                   else if negb hasLabel then "Missing accessible label"
                   else "Vague button label" in
    [createAuditResult INACCESSIBLE_BUTTON url details (or_else label EmptyString)
       EmptyString EmptyString]
  else [].

Definition ButtonAuditor_body (url : string) (r : response) : M (list AuditResult) :=
  checkAbortSignal ;;;
  document <- lift (fetchAndParseHTML url r) ;;
  let buttonElements :=
    (querySelectorAll [Type_ "button"] document
     ++ querySelectorAll [AttrIs "input" "type" "submit"; AttrIs "input" "type" "button"]
          document)%list in
  forEach buttonElements (fun element =>
    checkAbortSignal ;;; ret (button_results document url element)).

(** ** HeadingAuditor *)

Definition heading_selector : selector :=
  [Type_ "h1"; Type_ "h2"; Type_ "h3"; Type_ "h4"; Type_ "h5"; Type_ "h6"].

Definition HeadingAuditor_body (url : string) (r : response) : M (list AuditResult) :=
  checkAbortSignal ;;;
  document <- lift (fetchAndParseHTML url r) ;;
  let headings := querySelectorAll heading_selector document in
  match headings with
  | [] => ret []
  | _ =>
      checkAbortSignal ;;;
      let (isValid, sequence) := validateHeadingHierarchy headings in
      if negb isValid then
        ret [createAuditResult HEADING_HIERARCHY url
               ("Improper heading sequence: "
                ++ join ", " (map number_to_string sequence))
               EmptyString EmptyString EmptyString]
      else ret []
  end.

(** ** TableAuditor *)

Definition table_result (url : string) (table : Node) : AuditResult :=
  let '(_, caption, hasColumnHeaders, hasRowHeaders) := analyzeTableStructure table in
  let details :=
    join ", " ["Caption: " ++ or_else caption "none";
               "Row headers: " ++ (if hasRowHeaders then "yes" else "no");
               "Column headers: " ++ (if hasColumnHeaders then "yes" else "no")] in
  createAuditResult TABLE_INFO url details EmptyString EmptyString EmptyString.

Definition TableAuditor_body (url : string) (r : response) : M (list AuditResult) :=
  checkAbortSignal ;;;
  document <- lift (fetchAndParseHTML url r) ;;
  let tables := querySelectorAll [Type_ "table"] document in
  forEach tables (fun table => checkAbortSignal ;;; ret [table_result url table]).

(** ** DocumentAuditor *)

Definition OFFICE_EXTENSIONS : list string :=
  [".doc"; ".docx"; ".xls"; ".xlsx"; ".ppt"; ".pptx"].

Definition PDF_EXTENSION : string := ".pdf".

Definition resolveUrl (href baseUrl : string) : string :=
  match URL.parse_with_base href baseUrl with
  | Some u => URL.href u
  | None => href
  end.

Definition document_results (url : string) (link : Node) : list AuditResult :=
  let href := or_null (getAttribute "href" link) EmptyString in
  let linkText := or_else (trim (textContent link)) EmptyString in
  let cleanHref := hd EmptyString (split "#" (hd EmptyString (split "?" href))) in
  let pdf :=
    if endsWith (toLowerCase cleanHref) PDF_EXTENSION
    then [createAuditResult PDF_LINK url EmptyString linkText (resolveUrl href url)
            EmptyString]
    else [] in
  let office :=
    if existsb (fun ext => endsWith (toLowerCase cleanHref) ext) OFFICE_EXTENSIONS
    then [mkResult url OFFICE_LINK EmptyString linkText (resolveUrl href url)
            EmptyString]
    else [] in
  (pdf ++ office)%list.

Definition DocumentAuditor_body (url : string) (r : response) : M (list AuditResult) :=
  checkAbortSignal ;;;
  document <- lift (fetchAndParseHTML url r) ;;
  let links := querySelectorAll [HasAttr "a" "href"] document in
  forEach links (fun link => checkAbortSignal ;;; ret (document_results url link)).

(** ** The rule set *)

Inductive auditor :=
| ImageAuditor | LinkAuditor | ButtonAuditor
| HeadingAuditor | TableAuditor | DocumentAuditor.

Definition auditType (a : auditor) : AuditType :=
  match a with
  | ImageAuditor => IMAGE_MISSING_ALT
  | LinkAuditor => INACCESSIBLE_LINK
  | ButtonAuditor => INACCESSIBLE_BUTTON
  | HeadingAuditor => HEADING_HIERARCHY
  | TableAuditor => TABLE_INFO
  | DocumentAuditor => PDF_LINK
  end.

(** The body of the try block of each [audit] method. *)
Definition audit_body (a : auditor) : string -> response -> M (list AuditResult) :=
  match a with
  | ImageAuditor => ImageAuditor_body
  | LinkAuditor => LinkAuditor_body
  | ButtonAuditor => ButtonAuditor_body
  | HeadingAuditor => HeadingAuditor_body
  | TableAuditor => TableAuditor_body
  | DocumentAuditor => DocumentAuditor_body
  end.

(** [auditor.audit(url, signal)]: how the returned promise settles, given
    what the signal shows and what the proxy request comes to. *)
Definition audit (a : auditor) (url : string) (sig : Signal) (r : response)
  : completion (list AuditResult) :=
  fst (try_catch (audit_body a url r) (fun error => ret (handleError error url)) sig 0).

End Auditors.

(** * src/lib/rateLimiter.ts *)
Module RateLimiter.
Local Open Scope Z_scope.

(** State of the promise returned by [processItems]. *)
Inductive promise_state := Pending | Resolved | Rejected.

(** A suspended invocation of the closure [processNext]. *)
Inductive task :=
| Timer                 (* queued by setTimeout(processNext, 0), line 70 *)
| PauseWait             (* inside the while loop, awaiting the 100 ms timer, line 41 *)
| Running (item : nat)  (* awaiting processor(items[item]), line 58 *)
| BatchDelay.           (* awaiting the inter-batch delay, line 66 *)

Definition task_eqb (a b : task) : bool :=
  match a, b with
  | Timer, Timer | PauseWait, PauseWait | BatchDelay, BatchDelay => true
  | Running i, Running j => Nat.eqb i j
  | _, _ => false
  end.

(** The fields of the class, the locals of one [processItems] call, and the
    history of processor calls (a ghost field, never read by the code). *)
Record state := mkState {
  maxConcurrent : Z;
  delayBetweenBatches : Z;
  activeRequests : Z;
  isPaused : bool;
  isCancelled : bool;
  aborted : bool;            (* signal.aborted *)
  items_length : nat;        (* items.length *)
  completed : nat;           (* let completed = 0 *)
  outcome : promise_state;
  tasks : list task;
  dispatched : list nat      (* indices handed to processor, in call order *)
}.

Definition set_tasks (ts : list task) (s : state) : state :=
  mkState (maxConcurrent s) (delayBetweenBatches s) (activeRequests s)
          (isPaused s) (isCancelled s) (aborted s) (items_length s)
          (completed s) (outcome s) ts (dispatched s).

Definition set_outcome (p : promise_state) (s : state) : state :=
  mkState (maxConcurrent s) (delayBetweenBatches s) (activeRequests s)
          (isPaused s) (isCancelled s) (aborted s) (items_length s)
          (completed s) p (tasks s) (dispatched s).

Definition set_activeRequests (a : Z) (s : state) : state :=
  mkState (maxConcurrent s) (delayBetweenBatches s) a
          (isPaused s) (isCancelled s) (aborted s) (items_length s)
          (completed s) (outcome s) (tasks s) (dispatched s).

Definition set_isPaused (b : bool) (s : state) : state :=
  mkState (maxConcurrent s) (delayBetweenBatches s) (activeRequests s)
          b (isCancelled s) (aborted s) (items_length s)
          (completed s) (outcome s) (tasks s) (dispatched s).

Definition set_isCancelled (b : bool) (s : state) : state :=
  mkState (maxConcurrent s) (delayBetweenBatches s) (activeRequests s)
          (isPaused s) b (aborted s) (items_length s)
          (completed s) (outcome s) (tasks s) (dispatched s).

Definition set_aborted (b : bool) (s : state) : state :=
  mkState (maxConcurrent s) (delayBetweenBatches s) (activeRequests s)
          (isPaused s) (isCancelled s) b (items_length s)
          (completed s) (outcome s) (tasks s) (dispatched s).

(** [const item = items[completed]; completed++; this.activeRequests++;]
    followed by the call [processor(item)], which suspends [processNext]. *)
Definition claim (s : state) : state :=
  mkState (maxConcurrent s) (delayBetweenBatches s) (activeRequests s + 1)
          (isPaused s) (isCancelled s) (aborted s) (items_length s)
          (S (completed s)) (outcome s)
          (tasks s ++ [Running (completed s)])
          (dispatched s ++ [completed s]).

Definition suspend (t : task) (s : state) : state :=
  set_tasks (tasks s ++ [t]) s.

(** [reject(new Error('Processing cancelled'))], line 35. *)
Definition rejection : JS.Error := JS.new_Error "Processing cancelled".

(** A promise settles once; later calls of resolve or reject do nothing. *)
Definition resolve (s : state) : state :=
  match outcome s with Pending => set_outcome Resolved s | _ => s end.

Definition reject (s : state) : state :=
  match outcome s with Pending => set_outcome Rejected s | _ => s end.

(** Lines 44-58.  The second component is the index handed to [processor],
    when it is called. *)
Definition dispatch (s : state) : state * option nat :=
  if (items_length s <=? completed s)%nat then (resolve s, None)
  else if maxConcurrent s <=? activeRequests s then (s, None)
  else (claim s, Some (completed s)).

(** Lines 40-42 and what follows: one evaluation of the loop condition. *)
Definition pause_loop (s : state) : state * option nat :=
  if isPaused s && negb (isCancelled s) && negb (aborted s)
  then (suspend PauseWait s, None)
  else dispatch s.

(** A call of [processNext], run up to its first suspension or return. *)
Definition processNext (s : state) : state * option nat :=
  if isCancelled s || aborted s then (reject s, None)
  else pause_loop s.

(** Lines 59-70: the catch and finally blocks, entered when the promise of
    [processor(item)] settles, fulfilled or rejected alike. *)
Definition settle (s : state) : state :=
  let s1 := set_activeRequests (activeRequests s - 1) s in
  if (0 <? delayBetweenBatches s1) && (activeRequests s1 =? 0)
     && (completed s1 <? items_length s1)%nat
  then suspend BatchDelay s1
  else suspend Timer s1.

(** Removes one occurrence of a suspended task: the one that resumes. *)
Fixpoint remove_task (t : task) (ts : list task) : option (list task) :=
  match ts with
  | [] => None
  | x :: r => if task_eqb t x then Some r
              else option_map (cons x) (remove_task t r)
  end.

Definition resume_task (t : task) (s : state) : option state :=
  option_map (fun ts => set_tasks ts s) (remove_task t (tasks s)).

(** What can happen between two synchronous runs of the event loop. *)
Inductive label :=
| LTimer               (* a zero-delay timer fires: processNext is called *)
| LPoll                (* the 100 ms timer of a paused processNext fires *)
| LSettle (item : nat) (* the promise of processor(items[item]) settles *)
| LDelay               (* the inter-batch delay elapses *)
| LPause               (* pause() *)
| LResume              (* resume() *)
| LCancel              (* cancel() *)
| LAbort.              (* the AbortSignal passed to processItems fires *)

Definition exec (l : label) (s : state) : option state :=
  match l with
  | LTimer => option_map (fun s' => fst (processNext s')) (resume_task Timer s)
  | LPoll => option_map (fun s' => fst (pause_loop s')) (resume_task PauseWait s)
  | LSettle i => option_map settle (resume_task (Running i) s)
  | LDelay => option_map (suspend Timer) (resume_task BatchDelay s)
  | LPause => Some (set_isPaused true s)
  | LResume => Some (set_isPaused false s)
  | LCancel => Some (set_isCancelled true s)
  | LAbort => Some (set_aborted true s)
  end.

Fixpoint execs (ls : list label) (s : state) : option state :=
  match ls with
  | [] => Some s
  | l :: r => match exec l s with Some s' => execs r s' | None => None end
  end.

(** The limiter as constructed, and as [processItems] finds it: the fields
    [isPaused] and the signal are the caller's. *)
Definition fresh (maxConcurrent delayBetweenBatches : Z) (paused sig : bool)
                 (n : nat) : state :=
  mkState maxConcurrent delayBetweenBatches 0 paused false sig n 0 Pending [] [].

(** Lines 75-77: the initial batch, min(maxConcurrent, items.length) calls. *)
Definition initial_batch (s : state) : nat :=
  Z.to_nat (Z.min (maxConcurrent s) (Z.of_nat (items_length s))).

Fixpoint call_processNext (k : nat) (s : state) : state :=
  match k with
  | O => s
  | S k' => call_processNext k' (fst (processNext s))
  end.

Definition processItems (maxConcurrent delayBetweenBatches : Z)
                        (paused sig : bool) (n : nat) : state :=
  let s := fresh maxConcurrent delayBetweenBatches paused sig n in
  call_processNext (initial_batch s) s.

(** The items whose processor call is in flight. *)
Definition run_of (t : task) : list nat :=
  match t with Running i => [i] | _ => [] end.

Definition running (s : state) : list nat := flat_map run_of (tasks s).

Definition is_cancel (l : label) : bool :=
  match l with LCancel | LAbort => true | _ => false end.

(** A step that advances a suspended [processNext]; polling while paused
    only renews the 100 ms timer. *)
Definition advances (l : label) (s : state) : bool :=
  match l with
  | LTimer | LSettle _ | LDelay => true
  | LPoll => negb (isPaused s && negb (isCancelled s) && negb (aborted s))
  | _ => false
  end.

Fixpoint advancing_steps (ls : list label) (s : state) : nat :=
  match ls with
  | [] => O
  | l :: r => match exec l s with
              | Some s' => ((if advances l s then 1 else 0) + advancing_steps r s')%nat
              | None => O
              end
  end.

(** The item a step hands to the processor, when it calls it. *)
Definition claims (l : label) (s : state) : option nat :=
  match l with
  | LTimer => match resume_task Timer s with
              | Some s' => snd (processNext s')
              | None => None
              end
  | LPoll => match resume_task PauseWait s with
             | Some s' => snd (pause_loop s')
             | None => None
             end
  | _ => None
  end.

Definition task_label (t : task) : label :=
  match t with
  | Timer => LTimer | PauseWait => LPoll | Running i => LSettle i | BatchDelay => LDelay
  end.

Definition no_cancel (ls : list label) : bool :=
  forallb (fun l => negb (is_cancel l)) ls.

End RateLimiter.

(** * src/lib/auditEngine.ts *)
Module AuditEngine.
Import JS Auditors.
Local Open Scope string_scope.
Local Open Scope nat_scope.

Definition auditors : list auditor :=
  [ImageAuditor; LinkAuditor; ButtonAuditor; HeadingAuditor; TableAuditor;
   DocumentAuditor].

Inductive phase := Start | End.

Inductive method := Pause | Resume | Cancel.

(** What an observer of the engine sees, in order: the callbacks, and the
    calls of the public methods.  The item and the phase of a progress
    event are not passed to the callback: they tell which call of
    [onProgress] in [processUrl] it was, the one before or the one after
    the audit of the item.  An AuditError also carries a timestamp, which
    is left out. *)
Inductive event :=
| OnProgress (item : nat) (ph : phase) (currentUrl : string) (completed total : nat)
| OnResults (results : list AuditResult)
| OnError (url error : string)
| OnComplete
| Called (m : method).

(** Where a call of [processUrl] is suspended. *)
Inductive stage :=
| Paused                                           (* in the while loop *)
| Auditing (k : nat) (allResults : list AuditResult)
                                                   (* in auditUrl, awaiting auditors[k].audit *)
| Settled.                                         (* its promise has settled *)

Record state := mk {
  limiter : RateLimiter.state;
  isPaused : bool;
  urls : list string;
  completed : nat;                     (* let completed = 0, in processUrls *)
  workers : list (nat * stage);
  log : list event
}.

(** [this.abortController.signal.aborted]: the signal given to the limiter. *)
Definition aborted (s : state) : bool := RateLimiter.aborted (limiter s).

Definition set_limiter (rl : RateLimiter.state) (s : state) : state :=
  mk rl (isPaused s) (urls s) (completed s) (workers s) (log s).

Definition set_isPaused (b : bool) (s : state) : state :=
  mk (limiter s) b (urls s) (completed s) (workers s) (log s).

Definition set_completed (c : nat) (s : state) : state :=
  mk (limiter s) (isPaused s) (urls s) c (workers s) (log s).

Definition set_workers (ws : list (nat * stage)) (s : state) : state :=
  mk (limiter s) (isPaused s) (urls s) (completed s) ws (log s).

Definition emit (e : event) (s : state) : state :=
  mk (limiter s) (isPaused s) (urls s) (completed s) (workers s) (log s ++ [e])%list.

Definition drop (i : nat) (ws : list (nat * stage)) : list (nat * stage) :=
  filter (fun w => negb (fst w =? i)) ws.

Definition stage_of (i : nat) (s : state) : option stage :=
  option_map snd (find (fun w => fst w =? i) (workers s)).

Definition set_stage (i : nat) (st : stage) (s : state) : state :=
  set_workers (drop i (workers s) ++ [(i, st)])%list s.

Definition url (i : nat) (s : state) : string := nth i (urls s) EmptyString.

(** The end of [processUrl], from the return of [auditUrl] on.  The catch
    block around it is never entered: [auditUrl] catches what an auditor
    throws, and the callbacks are taken not to throw. *)
Definition finish (i : nat) (urlResults : list AuditResult) (s : state) : state :=
  let s1 := match urlResults with
            | [] => s
            | _ => emit (OnResults urlResults) s
            end in
  let c := S (completed s1) in
  set_stage i Settled
    (emit (OnProgress i End
             (if c <? List.length (urls s1) then nth c (urls s1) EmptyString
              else EmptyString)
             c (List.length (urls s1)))
          (set_completed c s1)).

(** The loop of [auditUrl] at auditor k: it ends, or breaks when aborted,
    or calls [auditor.audit], whose request suspends it. *)
Definition auditUrl (i k : nat) (allResults : list AuditResult) (s : state) : state :=
  match nth_error auditors k with
  | None => finish i allResults s
  | Some _ =>
      if aborted s then finish i allResults s
      else set_stage i (Auditing k allResults) s
  end.

(** [processUrl] after its while loop. *)
Definition audit_item (i : nat) (s : state) : state :=
  auditUrl i 0 []
    (emit (OnProgress i Start (url i s) (completed s) (List.length (urls s))) s).

(** One evaluation of the condition of the while loop of [processUrl]. *)
Definition wait_if_paused (i : nat) (s : state) : state :=
  if isPaused s && negb (aborted s) then set_stage i Paused s
  else audit_item i s.

(** The call [processUrl(urls[i])] up to its first suspension. *)
Definition processUrl (i : nat) (s : state) : state :=
  if aborted s then set_stage i Settled s      (* throws: a rejected promise *)
  else wait_if_paused i s.

(** The signal as the auditor called at the top of an iteration of
    [auditUrl] reads it: not aborted at the call, and as it is now when
    the request has settled. *)
Definition signal (s : state) : Signal :=
  fun k => match k with O => false | S _ => aborted s end.

(** The request of the awaited auditor settles. *)
Definition response_arrives (i : nat) (r : response) (s : state) : option state :=
  match stage_of i s with
  | Some (Auditing k allResults) =>
      match nth_error auditors k with
      | Some a =>
          let allResults' :=
            match audit a (url i s) (signal s) r with
            | Normal results => (allResults ++ results)%list
            | Throw _ => allResults
            end in
          Some (auditUrl i (S k) allResults' s)
      | None => None
      end
  | _ => None
  end.

(** The 100 ms timer of a paused [processUrl] fires. *)
Definition worker_polls (i : nat) (s : state) : option state :=
  match stage_of i s with
  | Some Paused => Some (wait_if_paused i s)
  | _ => None
  end.

(** [startAudit] after [await this.processUrls(urls)]. *)
Definition startAudit_continues (before : RateLimiter.promise_state) (s : state) : state :=
  match before, RateLimiter.outcome (limiter s) with
  | RateLimiter.Pending, RateLimiter.Resolved => emit OnComplete s
  | RateLimiter.Pending, RateLimiter.Rejected =>
      let error := RateLimiter.rejection in
      if negb (String.eqb (name error) "AbortError")
      then emit (OnError "system" (message error)) s
      else s
  | _, _ => s
  end.

(** A step of the limiter inside the engine: the processor is [processUrl]. *)
Definition limiter_steps (l : RateLimiter.label) (s : state) : option state :=
  match l with
  | RateLimiter.LTimer | RateLimiter.LPoll | RateLimiter.LDelay =>
      match RateLimiter.exec l (limiter s) with
      | Some rl =>
          let s1 := startAudit_continues (RateLimiter.outcome (limiter s))
                      (set_limiter rl s) in
          Some (match RateLimiter.claims l (limiter s) with
                | Some i => processUrl i s1
                | None => s1
                end)
      | None => None
      end
  | RateLimiter.LSettle i =>
      match stage_of i s with
      | Some Settled =>
          match RateLimiter.exec l (limiter s) with
          | Some rl => Some (set_workers (drop i (workers s)) (set_limiter rl s))
          | None => None
          end
      | _ => None
      end
  | _ => None
  end.

Definition call (m : method) (s : state) : state :=
  match m with
  | Pause =>
      emit (Called Pause)
        (set_limiter (RateLimiter.set_isPaused true (limiter s)) (set_isPaused true s))
  | Resume =>
      emit (Called Resume)
        (set_limiter (RateLimiter.set_isPaused false (limiter s)) (set_isPaused false s))
  | Cancel =>
      emit (Called Cancel)
        (set_limiter (RateLimiter.set_isCancelled true
                        (RateLimiter.set_aborted true (limiter s))) s)
  end.

Inductive label :=
| Limiter (l : RateLimiter.label)
| WorkerPoll (i : nat)
| Response (i : nat) (r : response)
| Call (m : method).

Definition exec (l : label) (s : state) : option state :=
  match l with
  | Limiter l' => limiter_steps l' s
  | WorkerPoll i => worker_polls i s
  | Response i r => response_arrives i r s
  | Call m => Some (call m s)
  end.

Fixpoint execs (ls : list label) (s : state) : option state :=
  match ls with
  | [] => Some s
  | l :: r => match exec l s with Some s' => execs r s' | None => None end
  end.

(** A call of [processNext] from the initial batch. *)
Definition call_processNext (s : state) : state :=
  let (rl, claimed) := RateLimiter.processNext (limiter s) in
  let s1 := startAudit_continues (RateLimiter.outcome (limiter s)) (set_limiter rl s) in
  match claimed with
  | Some i => processUrl i s1
  | None => s1
  end.

Fixpoint initial_batch (k : nat) (s : state) : state :=
  match k with
  | O => s
  | S k' => initial_batch k' (call_processNext s)
  end.

(** [new AuditEngine(config, callbacks).startAudit(urls)], up to the return
    of the synchronous part of [processItems]. *)
Definition startAudit (concurrentRequests delayBetweenRequests : Z)
                      (urls : list string) : state :=
  let rl := RateLimiter.fresh concurrentRequests delayBetweenRequests false false
              (List.length urls) in
  initial_batch (RateLimiter.initial_batch rl) (mk rl false urls 0 [] []).

Definition is_cancel (l : label) : bool :=
  match l with Call Cancel => true | _ => false end.

Definition no_cancel (ls : list label) : bool :=
  forallb (fun l => negb (is_cancel l)) ls.

(** Steps that advance a suspended [processNext] or [processUrl]. *)
Definition advances (l : label) (s : state) : bool :=
  match l with
  | Limiter l' => RateLimiter.advances l' (limiter s)
  | WorkerPoll _ => negb (isPaused s && negb (aborted s))
  | Response _ _ => true
  | Call _ => false
  end.

Fixpoint advancing_steps (ls : list label) (s : state) : nat :=
  match ls with
  | [] => O
  | l :: r => match exec l s with
              | Some s' => (if advances l s then 1 else 0) + advancing_steps r s'
              | None => O
              end
  end.

(** Nothing is suspended any more. *)
Definition quiescent (s : state) : Prop :=
  RateLimiter.tasks (limiter s) = [] /\ workers s = [].

Definition is_progress (i : nat) (ph : phase) (e : event) : bool :=
  match e with
  | OnProgress j q _ _ _ =>
      (j =? i) && match ph, q with Start, Start | End, End => true | _, _ => false end
  | _ => false
  end.

Definition count_progress (i : nat) (ph : phase) (s : state) : nat :=
  List.length (filter (is_progress i ph) (log s)).

Definition is_error (e : event) : bool :=
  match e with OnError _ _ => true | _ => false end.

(** The events after the first call of cancel(). *)
Fixpoint after_cancel (l : list event) : list event :=
  match l with
  | [] => []
  | Called Cancel :: r => r
  | _ :: r => after_cancel r
  end.

End AuditEngine.

(** * The audit context and src/hooks/useAuditEngine.ts

    The part of the reducer that keeps the progress of the session; the
    session id, the times, the configuration, filters and sorting are left
    out. *)
Module AuditContext.
Import JS Auditors.
Local Open Scope string_scope.
Local Open Scope nat_scope.

Record AuditError := mkAuditError { url : string; error : string }.

Inductive status := idle | running | paused | completed | cancelled.

Record ProgressState := mkProgress {
  currentUrl : string;
  completedCount : nat;
  total : nat;
  progressErrors : list AuditError;
  progressStatus : status
}.

Record AuditSession := mkSession {
  urls : list string;
  results : list AuditResult;
  errors : list AuditError;
  progress : ProgressState
}.

Record AppState := mkApp {
  currentSession : option AuditSession;
  uploadedUrls : list string
}.

Inductive AppAction :=
| START_AUDIT
| UPDATE_PROGRESS (currentUrl : string) (completed total : nat)
| ADD_RESULTS (payload : list AuditResult)
| ADD_ERROR (payload : AuditError)
| PAUSE_AUDIT
| RESUME_AUDIT
| CANCEL_AUDIT
| COMPLETE_AUDIT.

Definition with_status (st : status) (s : AuditSession) : AuditSession :=
  let p := progress s in
  mkSession (urls s) (results s) (errors s)
    (mkProgress (currentUrl p) (completedCount p) (total p) (progressErrors p) st).

Definition on_session (f : AuditSession -> AuditSession) (state : AppState) : AppState :=
  match currentSession state with
  | None => state
  | Some s => mkApp (Some (f s)) (uploadedUrls state)
  end.

Definition auditReducer (state : AppState) (action : AppAction) : AppState :=
  match action with
  | START_AUDIT =>
      mkApp (Some (mkSession (uploadedUrls state) [] []
                     (mkProgress EmptyString 0 (List.length (uploadedUrls state))
                        [] running)))
            (uploadedUrls state)
  | UPDATE_PROGRESS u c t =>
      on_session (fun s =>
        let p := progress s in
        mkSession (urls s) (results s) (errors s)
          (mkProgress u c t (progressErrors p) (progressStatus p))) state
  | ADD_RESULTS payload =>
      on_session (fun s =>
        mkSession (urls s) (results s ++ payload)%list (errors s) (progress s)) state
  | ADD_ERROR payload =>
      on_session (fun s =>
        let p := progress s in
        mkSession (urls s) (results s) (errors s ++ [payload])%list
          (mkProgress (currentUrl p) (completedCount p) (total p)
             (progressErrors p ++ [payload])%list (progressStatus p))) state
  | PAUSE_AUDIT => on_session (with_status paused) state
  | RESUME_AUDIT => on_session (with_status running) state
  | CANCEL_AUDIT => on_session (with_status cancelled) state
  | COMPLETE_AUDIT => on_session (with_status completed) state
  end.

(** The callbacks the hook gives to the engine, and what the hook
    dispatches after calling pause, resume or cancel on it. *)
Definition dispatched (e : AuditEngine.event) : AppAction :=
  match e with
  | AuditEngine.OnProgress _ _ u c t => UPDATE_PROGRESS u c t
  | AuditEngine.OnResults rs => ADD_RESULTS rs
  | AuditEngine.OnError u msg => ADD_ERROR (mkAuditError u msg)
  | AuditEngine.OnComplete => COMPLETE_AUDIT
  | AuditEngine.Called AuditEngine.Pause => PAUSE_AUDIT
  | AuditEngine.Called AuditEngine.Resume => RESUME_AUDIT
  | AuditEngine.Called AuditEngine.Cancel => CANCEL_AUDIT
  end.

(** The state of the application after [start] and the events of a run. *)
Definition observe (uploaded : list string) (log : list AuditEngine.event) : AppState :=
  fold_left auditReducer (map dispatched log)
    (auditReducer (mkApp None uploaded) START_AUDIT).

End AuditContext.

(** * The CSV parser (csvParser.ts) and the CSV export (csvExporter.ts) *)

(** The getters of a URL object that the parser reads. *)
Module URLGetters.
Import JS URL.
Local Open Scope string_scope.

(** [url.hostname]: the host of the authority, without credentials and
    port. *)
Definition hostname (u : URL.t) : string :=
  match authority u with
  | None => EmptyString
  | Some a =>
      let hostport := match split_last "@" a with
                      | Some (_, h) => h
                      | None => a
                      end in
      match split_last ":" hostport with
      | Some (h, _) => h
      | None => hostport
      end
  end.

(** [url.protocol]: the scheme and its colon. *)
Definition protocol (u : URL.t) : string := scheme u ++ ":".

End URLGetters.

Module CSVParser.
Import JS.
Local Open Scope string_scope.
Local Open Scope nat_scope.

Record CSVParseResult := mkParse {
  urls : list string;
  errors : list string;
  totalRows : nat;
  validUrls : nat
}.

Record URLValidationResult := mkValidation {
  url : string;
  isValid : bool;
  error : option string
}.

(** AUDIT_CONSTANTS.VALID_TLDS, src/types/index.ts. *)
Definition VALID_TLDS : list string :=
  [".com"; ".org"; ".net"; ".gov"; ".edu"; ".info"; ".io"; ".co"; ".us"; ".ca"].

Definition quote : ascii := Eval cbv in ascii_of_nat 34.
Definition comma : ascii := Eval cbv in ascii_of_nat 44.
Definition newline : ascii := Eval cbv in ascii_of_nat 10.

Definition push (s : string) (c : ascii) : string := s ++ String c EmptyString.

(** The while loop of [parseCSVRow] from position i on: [line] is what is
    left of the line from there. *)
Fixpoint row_loop (line current : string) (inQuotes : bool) (result : list string)
  : list string :=
  match line with
  | EmptyString => (result ++ [trim current])%list
  | String char rest =>
      if Ascii.eqb char quote then
        match rest with
        | String next rest' =>
            if inQuotes && Ascii.eqb next quote
            then row_loop rest' (push current quote) inQuotes result
            else row_loop rest current (negb inQuotes) result
        | EmptyString => row_loop rest current (negb inQuotes) result
        end
      else if Ascii.eqb char comma && negb inQuotes
      then row_loop rest EmptyString inQuotes (result ++ [trim current])%list
      else row_loop rest (push current char) inQuotes result
  end.

Definition parseCSVRow (line : string) : list string :=
  row_loop line EmptyString false [].

Definition headerKeywords : list string := ["url"; "link"; "website"; "address"; "site"].

Definition detectHeader (firstLine : string) : bool :=
  let firstField := trim (toLowerCase (hd EmptyString (parseCSVRow firstLine))) in
  existsb (fun keyword => includes firstField keyword) headerKeywords.

Definition invalid (u e : string) : URLValidationResult := mkValidation u false (Some e).

Definition validateURL (url : string) : URLValidationResult :=
  let trimmedUrl := trim url in
  if negb (truthy trimmedUrl) then invalid trimmedUrl "URL is empty"
  else if includes trimmedUrl "mailto:"
          || (includes trimmedUrl "@" && negb (includes trimmedUrl "://"))
  then invalid trimmedUrl "Email addresses are not supported"
  else
    let normalized :=
      if startsWith trimmedUrl "http://" || startsWith trimmedUrl "https://"
      then Some trimmedUrl
      else if startsWith trimmedUrl "www." then Some ("https://" ++ trimmedUrl)
      else if includes trimmedUrl "." then Some ("https://" ++ trimmedUrl)
      else None in
    match normalized with
    | None => invalid trimmedUrl "Invalid URL format"
    | Some normalizedUrl =>
        match URL.parse normalizedUrl with
        | Some urlObj =>
            let hasValidTLD :=
              existsb (fun tld => endsWith (toLowerCase (URLGetters.hostname urlObj)) tld)
                      VALID_TLDS in
            if negb hasValidTLD
            then invalid trimmedUrl "URL does not have a recognized top-level domain"
            else if negb (existsb (String.eqb (URLGetters.protocol urlObj))
                                  ["http:"; "https:"])
            then invalid trimmedUrl "URL must use HTTP or HTTPS protocol"
            else mkValidation normalizedUrl true None
        | None => invalid trimmedUrl "Invalid URL format"
        end
    end.

(** [[...new Set(urls)]]: the first occurrence of each value, in order. *)
Fixpoint unique (seen l : list string) : list string :=
  match l with
  | [] => []
  | x :: r => if existsb (String.eqb x) seen then unique seen r
              else x :: unique (x :: seen) r
  end.

(** One iteration of the for loop of [parseCSV], at index i.  The catch
    block is never entered: neither [parseCSVRow] nor [validateURL]
    throws. *)
Definition row_step (i : nat) (lines_i : string) (acc : list string * list string)
  : list string * list string :=
  let (urls, errors) := acc in
  let lineNumber := i + 1 in
  let line := trim lines_i in
  if negb (truthy line) then acc
  else
    let row := parseCSVRow line in
    let firstColumn := trim (hd EmptyString row) in
    if negb (truthy firstColumn)
    then (urls, app errors ["Line " ++ nat_to_string lineNumber ++ ": Empty URL field"])
    else
      let validation := validateURL firstColumn in
      if isValid validation then (app urls [url validation], errors)
      else (urls,
            app errors ["Line " ++ nat_to_string lineNumber ++ ": "
                        ++ or_null (error validation) "undefined"]).

(** The for loop over lines[i], lines[i + 1], ... *)
Fixpoint rows_from (i : nat) (lines : list string) (acc : list string * list string)
  : list string * list string :=
  match lines with
  | [] => acc
  | l :: r => rows_from (S i) r (row_step i l acc)
  end.

Definition nonblank (content : string) : list string :=
  filter (fun line => truthy (trim line)) (split newline content).

Definition parseCSV (content : string) : CSVParseResult :=
  let lines := nonblank content in
  match lines with
  | [] => mkParse [] ["CSV file is empty"] 0 0
  | first :: _ =>
      let hasHeader := detectHeader first in
      let startIndex := if hasHeader then 1 else 0 in
      let (urls, errors) := rows_from startIndex (List.skipn startIndex lines) ([], []) in
      mkParse (unique [] urls) errors
              (List.length lines - (if hasHeader then 1 else 0))
              (List.length urls)
  end.

Definition generateExampleCSV : string :=
  join (String newline EmptyString)
    ["URL,Description";
     "https://example.com,Homepage";
     "https://example.com/about,About page";
     "https://example.com/contact,Contact page";
     "https://test.gov,Government site";
     "https://demo.org/services,Services page"].

End CSVParser.

Module CSVExporter.
Import JS Auditors.
Local Open Scope string_scope.
Local Open Scope nat_scope.

(** The string values of the enum AuditType, src/types/audit.ts. *)
Definition type_value (t : AuditType) : string :=
  match t with
  | IMAGE_MISSING_ALT => "Image missing alt text"
  | IMAGE_WITH_ALT => "Image with alt text"
  | INACCESSIBLE_LINK => "Inaccessible Link"
  | INACCESSIBLE_BUTTON => "Inaccessible Button"
  | PDF_LINK => "PDF Link"
  | OFFICE_LINK => "Office File Link"
  | TABLE_INFO => "Table Info"
  | HEADING_HIERARCHY => "Heading hierarchy issue"
  end.

(** The global replace of [escapeCSVField]: every double quote is doubled. *)
Fixpoint double_quotes (field : string) : string :=
  match field with
  | EmptyString => EmptyString
  | String c r =>
      if Ascii.eqb c CSVParser.quote
      then String CSVParser.quote (String CSVParser.quote (double_quotes r))
      else String c (double_quotes r)
  end.

Definition has_char (c : ascii) (s : string) : bool :=
  includes s (String c EmptyString).

Definition escapeCSVField (field : string) : string :=
  if negb (truthy field) then EmptyString
  else if has_char CSVParser.comma field || has_char CSVParser.newline field
          || has_char CSVParser.quote field
  then String CSVParser.quote (double_quotes field) ++ String CSVParser.quote EmptyString
  else field.

Definition headers : list string :=
  ["Full url"; "Type"; "Details"; "Link text"; "Target url"; "Image filename"].

(** The fields of a result, in column order. *)
Definition fields (result : AuditResult) : list string :=
  [fullUrl result; type_value (type result); details result; linkText result;
   targetUrl result; imageFilename result].

Definition row (result : AuditResult) : list string :=
  map escapeCSVField (fields result).

Definition generateCSV (results : list AuditResult) : string :=
  match results with
  | [] => "Full url,Type,Details,Link text,Target url,Image filename"
          ++ String CSVParser.newline EmptyString
  | _ =>
      let rows := map row results in
      join (String CSVParser.newline EmptyString)
           (join "," headers :: map (fun row => join "," row) rows)
  end.

End CSVExporter.

(** * Static helpers of src/lib/htmlProcessor.ts and of AuditUtils *)
Module HTMLProcessor.
Import JS DOM.
Local Open Scope string_scope.

(** [new URL(url, baseURL).href], or the URL as given when the constructor
    throws. *)
Definition resolveURL (url baseURL : string) : string :=
  match URL.parse_with_base url baseURL with
  | Some u => URL.href u
  | None => url
  end.

(** From the last dot of the path name on, in lower case; nothing when
    there is no dot or when the dot is the last character. *)
Definition getFileExtension (url : string) : string :=
  match URL.parse url with
  | Some urlObj =>
      match URL.split_last "." (URL.pathname urlObj) with
      | None => EmptyString                       (* lastDot === -1 *)
      | Some (_, EmptyString) => EmptyString      (* lastDot === pathname.length - 1 *)
      | Some (_, after) => toLowerCase (String "." after)
      end
  | None => EmptyString
  end.



End HTMLProcessor.

Module AuditUtils.
Import JS.

(** [extensions.includes(extension)] *)
Definition hasFileExtension (url : string) (extensions : list string) : bool :=
  let extension := HTMLProcessor.getFileExtension url in
  existsb (String.eqb extension) extensions.

End AuditUtils.

(** * Invariants and measures *)

Module AuditorSpec.
Import JS DOM Auditors.
Local Open Scope nat_scope.

(** The proxy request did not produce a document. *)
Definition failed (r : response) : bool :=
  match r with Fetched _ => false | _ => true end.

(** Code that throws as soon as a read of the signal shows it aborted:
    from counter k it ends at a counter n >= k, and normally only if every
    read in between was false. *)
Definition abort_aware {A} (m : M A) : Prop :=
  forall sig k c n, m sig k = (c, n) ->
    k <= n /\ ((exists j, k <= j < n /\ sig j = true) -> exists e, c = Throw e).

(** The level sequence of the h1-h6 elements of a document, in tree order. *)
Definition heading_level (h : Node) : nat :=
  match parseInt (charAt 1 (tagName h)) with Some n => n | None => 0 end.

Definition heading_levels (d : Document) : list nat :=
  map heading_level (querySelectorAll heading_selector d).

(** Some adjacent pair goes up by more than one level. *)
Definition has_skip (l : list nat) : Prop :=
  exists pre a b post, l = (pre ++ a :: b :: post)%list /\ a + 1 < b.

(** A page whose headings have the given levels. *)
Definition heading (level : nat) : Node :=
  Element (String "h" (nat_to_string level)) [] [Text "Section"].

Definition page (levels : list nat) : Document :=
  {| documentElement :=
       Element "html" [] [Element "head" [] []; Element "body" [] (map heading levels)] |}.

Definition never_aborted : Signal := fun _ => false.

(** The finding of the heading auditor for a level sequence. *)
Definition heading_issue (url : string) (levels : list nat) : AuditResult :=
  createAuditResult HEADING_HIERARCHY url
    ("Improper heading sequence: " ++ join ", " (map nat_to_string levels))%string
    EmptyString EmptyString EmptyString.

End AuditorSpec.

Module RateLimiterSpec.
Import RateLimiter.
Local Open Scope Z_scope.

Record good (N : Z) (n : nat) (s : state) : Prop := {
  g_max : maxConcurrent s = N;
  g_len : items_length s = n;
  g_active : activeRequests s = Z.of_nat (List.length (running s));
  g_bound : activeRequests s <= N;
  g_le : (completed s <= items_length s)%nat;
  g_disp : dispatched s = seq 0 (completed s);
  g_lt : Forall (fun i => (i < completed s)%nat) (running s);
  g_nodup : NoDup (running s)
}.

Definition calm (s : state) : Prop := isCancelled s = false /\ aborted s = false.

(** Nothing suspended any more means the cursor has passed the last item. *)
Definition quiet (s : state) : Prop :=
  tasks s = [] -> (items_length s <= completed s)%nat.

Definition weight (t : task) : nat :=
  match t with Timer => 2 | PauseWait => 1 | Running _ => 4 | BatchDelay => 3 end.

Definition load (ts : list task) : nat := list_sum (map weight ts).

(** What is left to do: the suspended invocations and the unclaimed items. *)
Definition mu (s : state) : nat :=
  (load (tasks s) + 4 * (items_length s - completed s))%nat.

Record same_flags (s s' : state) : Prop := {
  f_paused : isPaused s' = isPaused s;
  f_cancelled : isCancelled s' = isCancelled s;
  f_aborted : aborted s' = aborted s
}.

(** The result of a call that may claim an item, against the state it
    started from. *)
Definition claim_effect (s : state) (r : state * option nat) : Prop :=
  same_flags s (fst r) /\
  match snd r with
  | Some i => i = completed s /\ completed (fst r) = S i /\
              running (fst r) = running s ++ [i] /\ outcome (fst r) = outcome s
  | None => completed (fst r) = completed s /\ running (fst r) = running s
  end.

Definition idle (l : label) : bool :=
  match l with LTimer | LPoll | LDelay => true | _ => false end.

End RateLimiterSpec.

Module AuditEngineSpec.
Import JS Auditors AuditEngine RateLimiterSpec.
Local Open Scope nat_scope.

Definition stage_in (i : nat) (ws : list (nat * stage)) : option stage :=
  option_map snd (find (fun w => fst w =? i) ws).

(** Workers whose promise has not settled yet. *)
Definition unsettled (st : stage) : bool :=
  match st with Settled => false | _ => true end.

Definition pending (ws : list (nat * stage)) : nat :=
  List.length (filter (fun w => unsettled (snd w)) ws).

Definition pending_of (o : option stage) : nat :=
  match o with Some st => if unsettled st then 1 else 0 | None => 0 end.




(** How many start and end events an item must have produced, from where
    its worker stands. *)
Definition expected (i : nat) (s : state) : nat * nat :=
  match stage_in i (workers s) with
  | Some Paused => (0, 0)
  | Some (Auditing _ _) => (1, 0)
  | Some Settled => (1, 1)
  | None => if i <? RateLimiter.completed (limiter s) then (1, 1) else (0, 0)
  end.

Definition wf_event (us : list string) (e : event) : Prop :=
  match e with
  | OnProgress i ph u c t =>
      i < List.length us /\ t = List.length us /\ c <= t /\
      (ph = Start -> u = nth i us EmptyString)
  | OnError _ _ => False
  | _ => True
  end.

(** An awaited auditor is one of the rule set. *)
Definition stage_ok (st : stage) : Prop :=
  match st with
  | Auditing k _ => nth_error auditors k <> None
  | _ => True
  end.

Record sound (N : Z) (s : state) : Prop := {
  s_good : good N (List.length (urls s)) (limiter s);
  s_calm : calm (limiter s);
  s_outcome : RateLimiter.outcome (limiter s) <> RateLimiter.Rejected;
  s_paused : isPaused s = RateLimiter.isPaused (limiter s);
  s_nodup : NoDup (map fst (workers s));
  s_workers : forall i, In i (map fst (workers s))
                        <-> In i (RateLimiter.running (limiter s));
  s_count : completed s + pending (workers s) = RateLimiter.completed (limiter s);
  s_progress : forall i, (count_progress i Start s, count_progress i End s)
                         = expected i s;
  s_last : completed s = 0 \/
           exists i u, In (OnProgress i End u (completed s) (List.length (urls s))) (log s);
  s_wf : Forall (wf_event (urls s)) (log s);
  s_stage : Forall (fun w => stage_ok (snd w)) (workers s)
}.

Definition neutral (e : event) : bool :=
  match e with OnComplete | Called _ | OnResults _ => true | _ => false end.

Definition expected_of (st : stage) : nat * nat :=
  match st with Paused => (0, 0) | Auditing _ _ => (1, 0) | Settled => (1, 1) end.


End AuditEngineSpec.

(** * Notions used to state the properties of the helpers *)

Module StringSpec.
Import JS.
Local Open Scope string_scope.

(** The character occurs in the string. *)
Fixpoint has (c : ascii) (s : string) : bool :=
  match s with
  | EmptyString => false
  | String d r => Ascii.eqb d c || has c r
  end.

(** A string without white space at either end. *)
Fixpoint ends_ok (s : string) : bool :=
  match s with
  | EmptyString => true
  | String c EmptyString => negb (is_space c)
  | String _ r => ends_ok r
  end.

(** A string that [trim] leaves as it is. *)
Definition trimmed (s : string) : bool :=
  match s with
  | EmptyString => true
  | String c _ => negb (is_space c) && ends_ok s
  end.

(** A string of white space only. *)
Fixpoint all_space (s : string) : bool :=
  match s with
  | EmptyString => true
  | String c r => is_space c && all_space r
  end.






End StringSpec.

Module CsvSpec.
Import JS Auditors CSVParser CSVExporter StringSpec.
Local Open Scope string_scope.


(** No field of the result holds a line break. *)
Definition single_line (result : AuditResult) : bool :=
  forallb (fun f => negb (has newline f)) (fields result).

(** Two results for the examples: a comma in the first, quotes in the
    second. *)
Definition table_row : AuditResult :=
  mkResult "https://a.test/x,y" TABLE_INFO
           "Caption: none, Row headers: no, Column headers: yes"
           EmptyString EmptyString EmptyString.

Definition image_row : AuditResult :=
  mkResult "https://a.test" IMAGE_WITH_ALT ("alt=" ++ dquote ++ "a logo" ++ dquote)
           EmptyString "/logo.png" EmptyString.

End CsvSpec.

Module FindingSpec.
Import JS DOM Auditors AuditorSpec.
Local Open Scope string_scope.

(** The finding types of each auditor. *)
Definition types_of (a : auditor) : list AuditType :=
  match a with
  | ImageAuditor => [IMAGE_MISSING_ALT; IMAGE_WITH_ALT]
  | LinkAuditor => [INACCESSIBLE_LINK]
  | ButtonAuditor => [INACCESSIBLE_BUTTON]
  | HeadingAuditor => [HEADING_HIERARCHY]
  | TableAuditor => [TABLE_INFO]
  | DocumentAuditor => [PDF_LINK; OFFICE_LINK]
  end.

(** Every result that the code returns satisfies P. *)
Definition yields (P : AuditResult -> Prop) (m : M (list AuditResult)) : Prop :=
  forall sig k rs n, m sig k = (Normal rs, n) -> Forall P rs.

(** What [findInaccessibleLinks] pushes for one link. *)
Definition vague_link (url : string) (link : Node) : list AuditResult :=
  let text := trim (textContent link) in
  if containsTriggerPhrase (toLowerCase text) TRIGGER_PHRASES
     && negb (containsExcludedPhrase (toLowerCase text) EXCLUDED_PHRASES)
  then [mkResult url INACCESSIBLE_LINK EmptyString text
                 (or_null (getAttribute "href" link) EmptyString) EmptyString]
  else [].

(** What [findRawUrls] pushes for one match of the pattern. *)
Definition raw_url (url rawUrl : string) : list AuditResult :=
  let fullUrl := if startsWith rawUrl "http://" || startsWith rawUrl "https://"
                 then rawUrl else "https://" ++ rawUrl in
  if isValidUrl fullUrl
  then [mkResult url INACCESSIBLE_LINK EmptyString EmptyString fullUrl EmptyString]
  else [].

(** The elements the button auditor looks at. *)
Definition button_elements (document : Document) : list Node :=
  (querySelectorAll [Type_ "button"] document
   ++ querySelectorAll [AttrIs "input" "type" "submit"; AttrIs "input" "type" "button"]
        document)%list.

(** A link element with the given target and content. *)
Definition anchor (href : string) (content : list Node) : Node :=
  Element "a" [("href", href)] content.

(** A page whose text holds a raw URL with a path and one without. *)
Definition raw_page : Document :=
  {| documentElement :=
       Element "html" []
         [Element "head" [] [];
          Element "body" []
            [Element "p" []
               [Text "Visit https://example.com/page or www.example.org today"]]] |}.

End FindingSpec.

Module LimiterRunSpec.
Import RateLimiter RateLimiterSpec.
Local Open Scope nat_scope.

(** The state a run leads to (the starting state when a step of the run
    is not possible). *)
Definition after (ls : list label) (s : state) : state :=
  match execs ls s with Some s' => s' | None => s end.

(** Steps that leave a paused limiter paused and running. *)
Definition keeps_paused (l : label) : bool :=
  match l with LResume | LCancel | LAbort => false | _ => true end.

(** cancel() was called or the signal is aborted. *)
Definition stopped (s : state) : bool := isCancelled s || aborted s.

Definition is_waiter (t : task) : bool :=
  match t with PauseWait => true | _ => false end.

(** The invocations of processNext that wait in the pause loop. *)
Definition waiters (s : state) : nat := List.length (filter is_waiter (tasks s)).

Definition is_delay (l : label) : bool :=
  match l with LDelay => true | _ => false end.

(** The inter-batch delays that have elapsed in a run. *)
Definition delays (ls : list label) : nat := List.length (filter is_delay ls).

Definition is_token (t : task) : bool :=
  match t with Timer | PauseWait => true | _ => false end.

(** The invocations of processNext that are about to look for an item. *)
Definition tokens (s : state) : nat := List.length (filter is_token (tasks s)).

(** The invariant: with one worker and a positive delay, every item after
    the first has been paid for by an elapsed delay. *)
Record paced (n d : nat) (s : state) : Prop := {
  p_good : good 1 n s;
  p_delay : (0 < delayBetweenBatches s)%Z;
  p_done : completed s <= 1 + d;
  p_next : completed s < n -> completed s + tokens s <= 1 + d
}.

(** The promise is resolved only past the last item, and rejected only
    when stopped. *)
Definition settled_ok (s : state) : Prop :=
  (outcome s = Resolved -> items_length s <= completed s)
  /\ (outcome s = Rejected -> stopped s = true).

End LimiterRunSpec.

Module EngineRunSpec.
Import JS Auditors AuditEngine RateLimiterSpec AuditEngineSpec.
Local Open Scope string_scope.
Local Open Scope nat_scope.

(** The state a run of the engine leads to (the starting state when a step
    of the run is not possible). *)
Definition reached (ls : list label) (s : state) : state :=
  match execs ls s with Some s' => s' | None => s end.

Definition is_start (e : event) : bool :=
  match e with OnProgress _ Start _ _ _ => true | _ => false end.

Definition is_end (e : event) : bool :=
  match e with OnProgress _ End _ _ _ => true | _ => false end.

(** The field completed of a progress event. *)
Definition reported (e : event) : nat :=
  match e with OnProgress _ _ _ c _ => c | _ => 0 end.

(** The two events that end [startAudit]. *)
Definition is_final (e : event) : bool :=
  match e with OnComplete | OnError _ _ => true | _ => false end.

Definition is_call (e : event) : bool :=
  match e with Called _ => true | _ => false end.

(** Steps that leave a paused engine paused and running. *)
Definition stays_paused (l : label) : bool :=
  match l with Call Resume | Call Cancel => false | _ => true end.

Definition waits (w : nat * stage) : bool :=
  match snd w with Paused => true | _ => false end.

(** The calls of processUrl that wait in its pause loop. *)
Definition paused_workers (s : state) : nat := List.length (filter waits (workers s)).

(** What a callback is given, against the list of URLs of the run. *)
Definition event_ok (us : list string) (e : event) : Prop :=
  match e with
  | OnProgress i ph u c t =>
      i < List.length us /\ t = List.length us /\ c <= t /\
      match ph with
      | Start => c < t /\ u = nth i us EmptyString
      | End => 1 <= c /\ u = (if c <? t then nth c us EmptyString else EmptyString)
      end
  | OnResults rs => rs <> [] /\ Forall (fun x => In (fullUrl x) us) rs
  | OnError u e => u = "system" /\ e = "Processing cancelled"
  | OnComplete => True
  | Called _ => True
  end.

(** A suspended worker holds an item of the list and results of its URL. *)
Definition stage_fine (us : list string) (w : nat * stage) : Prop :=
  fst w < List.length us /\
  match snd w with
  | Auditing _ acc => Forall (fun x => fullUrl x = nth (fst w) us EmptyString) acc
  | _ => True
  end.

(** The final events, against the state of the promise of the limiter. *)
Definition finals_ok (s : state) : Prop :=
  match RateLimiter.outcome (limiter s) with
  | RateLimiter.Pending => filter is_final (log s) = []
  | RateLimiter.Resolved =>
      filter is_final (log s) = [OnComplete]
      /\ List.length (urls s) <= RateLimiter.completed (limiter s)
  | RateLimiter.Rejected =>
      filter is_final (log s) = [OnError "system" "Processing cancelled"]
      /\ aborted s = true
  end.

(** The count held by a listener of onProgress: the one given with the
    last progress event. *)
Definition shown_after (c : nat) (e : event) : nat :=
  match e with OnProgress _ _ _ c' _ => c' | _ => c end.

Definition shown (l : list event) : nat := fold_left shown_after l 0.

(** What holds in every state of every run, cancelled or not. *)
Record steady (N : Z) (s : state) : Prop := {
  t_good : good N (List.length (urls s)) (limiter s);
  t_paused : isPaused s = RateLimiter.isPaused (limiter s);
  t_cancel : RateLimiter.isCancelled (limiter s) = RateLimiter.aborted (limiter s);
  t_count : completed s + pending (workers s) <= RateLimiter.completed (limiter s);
  t_workers : Forall (stage_fine (urls s)) (workers s);
  t_events : Forall (event_ok (urls s)) (log s);
  t_ends : map reported (filter is_end (log s)) = seq 1 (completed s);
  t_shown : shown (log s) = completed s;
  t_finals : finals_ok s
}.

(** The results handed to onResults, in order. *)
Definition results_of (l : list event) : list AuditResult :=
  flat_map (fun e => match e with OnResults rs => rs | _ => [] end) l.

End EngineRunSpec.

(** * Scenarios *)
Module Scenario.
Import JS DOM Auditors AuditEngine AuditorSpec.
Local Open Scope string_scope.

(** The document the HTML parser builds from the markup
    <img src=/x.jpg><a href=https://a.test>click here</a>
    (attribute values quoted): both elements end up in the body. *)
Definition a_test_page : Document :=
  {| documentElement :=
       Element "html" []
         [Element "head" [] [];
          Element "body" []
            [Element "img" [("src", "/x.jpg")] [];
             Element "a" [("href", "https://a.test")] [Text "click here"]]] |}.

Definition a_test : list string := ["https://a.test"].

Definition two_urls : list string := ["https://a.test"; "https://b.test"].

Definition image_finding : AuditResult :=
  mkResult "https://a.test" IMAGE_MISSING_ALT EmptyString EmptyString "/x.jpg" EmptyString.

Definition link_finding : AuditResult :=
  mkResult "https://a.test" INACCESSIBLE_LINK EmptyString "click here" "https://a.test"
           EmptyString.

(** The six requests of one URL all come to the same thing. *)
Definition six (i : nat) (r : response) : list label := repeat (Response i r) 6.

(** What the specification promises for a failed request: once the run is
    over, an error event carrying the URL of the item has been emitted. *)
Definition fetch_failure_reported : Prop :=
  forall (N delay : Z) (urls : list string) (ls : list label) (s : state)
         (i : nat) (r : response),
    (1 <= N <= 10)%Z ->
    execs ls (startAudit N delay urls) = Some s ->
    In (Response i r) ls -> failed r = true -> quiescent s ->
    exists e, In (OnError (nth i urls EmptyString) e) (log s).

End Scenario.

(** * Proofs *)

Module AuditorFacts.
Import JS DOM Auditors AuditorSpec.
Local Open Scope nat_scope.

Lemma aware_ret {A} (a : A) : abort_aware (ret a).
Proof.
  intros sig k c n H. inversion H; subst. split; [lia|].
  intros (j & Hj & _). lia.
Qed.

Lemma aware_throw {A} (e : Error) : abort_aware (@throw A e).
Proof.
  intros sig k c n H. inversion H; subst. split; [lia|]. eauto.
Qed.

Lemma aware_lift {A} (c : completion A) : abort_aware (lift c).
Proof.
  intros sig k c' n H. inversion H; subst. split; [lia|].
  intros (j & Hj & _). lia.
Qed.

Lemma aware_bind {A B} (m : M A) (f : A -> M B) :
  abort_aware m -> (forall a, abort_aware (f a)) -> abort_aware (bind m f).
Proof.
  intros Hm Hf sig k c n H. unfold bind in H.
  destruct (m sig k) as [[a|e] k1] eqn:E.
  - destruct (Hm _ _ _ _ E) as [L1 T1]. destruct (Hf a _ _ _ _ H) as [L2 T2].
    split; [lia|]. intros (j & Hj & Sj).
    destruct (Nat.lt_ge_cases j k1).
    + destruct T1 as [e He]; [exists j; split; auto; lia|discriminate].
    + apply T2. exists j. split; auto. lia.
  - inversion H; subst. destruct (Hm _ _ _ _ E) as [L1 T1]. split; eauto.
Qed.

Lemma aware_check : abort_aware checkAbortSignal.
Proof.
  intros sig k c n H. unfold checkAbortSignal, bind, signal_aborted in H.
  destruct (sig k) eqn:E; inversion H; subst; split; try lia; eauto.
  intros (j & Hj & Sj). assert (j = k) by lia. subst. congruence.
Qed.

Lemma aware_forEach {A} (l : list A) (f : A -> M (list AuditResult)) :
  (forall x, abort_aware (f x)) -> abort_aware (forEach l f).
Proof.
  intros Hf. induction l as [|x r IH]; simpl.
  - apply aware_ret.
  - apply aware_bind; auto. intros a. apply aware_bind; auto.
    intros b. apply aware_ret.
Qed.

Ltac aware :=
  repeat first
    [ apply aware_check
    | apply aware_bind; [|intros ?]
    | apply aware_forEach; intros ?
    | apply aware_ret | apply aware_throw | apply aware_lift
    | match goal with
      | |- abort_aware (if ?c then _ else _) => destruct c
      | |- abort_aware (match ?c with _ => _ end) => destruct c
      | |- abort_aware (let (_, _) := ?c in _) => destruct c
      end ].

Lemma aware_audit_body a url r : abort_aware (audit_body a url r).
Proof.
  destruct a; simpl;
    unfold ImageAuditor_body, LinkAuditor_body, ButtonAuditor_body,
      HeadingAuditor_body, TableAuditor_body, DocumentAuditor_body,
      findInaccessibleLinks, findRawUrls; aware.
Qed.

(** Every body reads the signal first and asks for the page next. *)
Lemma body_starts a url r :
  exists rest, audit_body a url r
               = bind checkAbortSignal
                   (fun _ => bind (lift (fetchAndParseHTML url r)) rest).
Proof. destruct a; eexists; reflexivity. Qed.

Lemma failed_throws url r :
  failed r = true -> exists e, fetchAndParseHTML url r = Throw e.
Proof. destruct r; simpl; try discriminate; eauto. Qed.

(** An auditor catches what its body throws. *)
Lemma audit_is_fulfilled a url sig r :
  exists rs, audit a url sig r = Normal rs /\
             (failed r = true -> rs = []) /\
             (forall e n, audit_body a url r sig 0 = (Throw e, n) -> rs = []).
Proof.
  unfold audit, try_catch.
  destruct (audit_body a url r sig 0) as [[rs|e] n] eqn:E; simpl.
  - exists rs. split; [reflexivity|]. split; [|intros ? ? X; discriminate X].
    intros Hf. exfalso.
    destruct (body_starts a url r) as [rest B]. rewrite B in E.
    destruct (failed_throws url r Hf) as [e He]. rewrite He in E.
    unfold bind, checkAbortSignal, signal_aborted, lift, bind, throw, ret in E.
    destruct (sig 0); discriminate.
  - exists []. repeat split; auto.
Qed.

(** ** Headings *)

Lemma heading_number n :
  matches heading_selector n = true ->
  exists k, 1 <= k <= 6 /\ parseInt (charAt 1 (tagName n)) = Some k.
Proof.
  destruct n as [d|l attrs c]; simpl; [discriminate|].
  repeat match goal with
         | |- context [(?x =? ?y)%string] =>
             destruct (String.eqb_spec x y); [subst | ]
         end; simpl; try discriminate; intros _.
  - exists 1. split; [lia|reflexivity].
  - exists 2. split; [lia|reflexivity].
  - exists 3. split; [lia|reflexivity].
  - exists 4. split; [lia|reflexivity].
  - exists 5. split; [lia|reflexivity].
  - exists 6. split; [lia|reflexivity].
Qed.

Lemma sequence_levels d :
  map (fun h => parseInt (charAt 1 (tagName h))) (querySelectorAll heading_selector d)
  = map Some (heading_levels d).
Proof.
  unfold heading_levels, querySelectorAll. rewrite map_map.
  apply map_ext_in. intros h Hh. apply filter_In in Hh as [_ Hm].
  destruct (heading_number _ Hm) as (k & _ & E). unfold heading_level. now rewrite E.
Qed.

Lemma levels_in_range d : Forall (fun k => 1 <= k <= 6) (heading_levels d).
Proof.
  unfold heading_levels, querySelectorAll. rewrite Forall_forall. intros k Hk.
  apply in_map_iff in Hk as (h & <- & Hh). apply filter_In in Hh as [_ Hm].
  destruct (heading_number _ Hm) as (k & R & E). unfold heading_level. now rewrite E.
Qed.

Lemma valid_from_skip l : forall a,
  valid_from (Some a) (map Some l) = false <-> has_skip (a :: l).
Proof.
  induction l as [|b l IH]; intros a; simpl.
  - split; [discriminate|]. intros (pre & x & y & post & E & _).
    destruct pre as [|? [|? ?]]; discriminate.
  - destruct (a + 1 <? b) eqn:E.
    + apply Nat.ltb_lt in E. split; auto. intros _. now exists [], a, b, l.
    + apply Nat.ltb_ge in E. rewrite IH. split.
      * intros (pre & x & y & post & -> & H). now exists (a :: pre), x, y, post.
      * intros (pre & x & y & post & Hl & H). destruct pre as [|p pre].
        -- inversion Hl; subst. lia.
        -- inversion Hl; subst. now exists pre, x, y, post.
Qed.

Lemma no_skip_nil : ~ has_skip [].
Proof. intros (pre & x & y & post & E & _). destruct pre; discriminate. Qed.

Lemma validate_levels d :
  validateHeadingHierarchy (querySelectorAll heading_selector d)
  = (match heading_levels d with
     | [] => true
     | a :: l => valid_from (Some a) (map Some l)
     end, map Some (heading_levels d)).
Proof.
  unfold validateHeadingHierarchy. rewrite sequence_levels.
  destruct (heading_levels d); reflexivity.
Qed.

Lemma join_numbers l :
  join ", " (map number_to_string (map Some l)) = join ", " (map nat_to_string l).
Proof. now rewrite map_map. Qed.

(** What the heading auditor returns for a fetched document, by what its
    first two reads of the signal show. *)
Lemma heading_audit url d sig :
  audit HeadingAuditor url sig (Fetched d) =
  Normal (if sig 0 then []
          else match heading_levels d with
               | [] => []
               | a :: l =>
                   if sig 1 then []
                   else if valid_from (Some a) (map Some l) then []
                        else [heading_issue url (a :: l)]
               end).
Proof.
  unfold audit, try_catch, audit_body, HeadingAuditor_body, bind, checkAbortSignal,
    signal_aborted, lift, bind. simpl.
  destruct (sig 0); simpl; auto.
  pose proof (validate_levels d) as V. pose proof (sequence_levels d) as Q.
  unfold heading_levels in *.
  destruct (querySelectorAll heading_selector d) as [|h hs] eqn:E; simpl; auto.
  destruct (sig 1); simpl; auto.
  simpl in Q. injection Q as Q1 Q2. rewrite Q1, Q2.
  destruct (valid_from _ _); simpl; auto.
  unfold heading_issue.
  rewrite <- (join_numbers (heading_level h :: map heading_level hs)). reflexivity.
Qed.

End AuditorFacts.

Module RateLimiterFacts.
Import RateLimiter RateLimiterSpec.
Local Open Scope Z_scope.

Lemma task_eqb_eq a b : task_eqb a b = true -> a = b.
Proof.
  destruct a, b; simpl; try discriminate; auto.
  intros H. apply Nat.eqb_eq in H. now subst.
Qed.

Lemma remove_task_perm t ts ts' :
  remove_task t ts = Some ts' -> Permutation ts (t :: ts').
Proof.
  revert ts'. induction ts as [|x r IH]; simpl; intros ts' H; [discriminate|].
  destruct (task_eqb t x) eqn:E.
  - apply task_eqb_eq in E. inversion H; subst. reflexivity.
  - destruct (remove_task t r) as [r'|]; simpl in H; [|discriminate].
    inversion H; subst. rewrite (IH r' eq_refl). apply perm_swap.
Qed.

Lemma remove_task_in t ts : In t ts -> exists ts', remove_task t ts = Some ts'.
Proof.
  induction ts as [|x r IH]; simpl; [tauto|].
  intros [->|H].
  - replace (task_eqb t t) with true; [eauto|].
    destruct t; simpl; auto using Nat.eqb_refl.
  - destruct (task_eqb t x); [eauto|]. destruct (IH H) as [r' ->]. simpl. eauto.
Qed.

Lemma running_perm s t ts' :
  remove_task t (tasks s) = Some ts' ->
  Permutation (running s) (run_of t ++ flat_map run_of ts').
Proof.
  intros H. apply remove_task_perm in H. unfold running.
  change (run_of t ++ flat_map run_of ts') with (flat_map run_of (t :: ts')).
  now apply Permutation_flat_map.
Qed.

Lemma running_suspend t s :
  running (suspend t s) = running s ++ run_of t.
Proof.
  unfold running, suspend; simpl. rewrite flat_map_app. simpl.
  now rewrite app_nil_r.
Qed.

Lemma running_claim s : running (claim s) = running s ++ [completed s].
Proof. unfold running, claim; simpl. rewrite flat_map_app. reflexivity. Qed.

(** ** Invariants of every run *)

Lemma good_resolve N n s : good N n s -> good N n (resolve s).
Proof. unfold resolve. destruct (outcome s); auto. intros []; constructor; auto. Qed.

Lemma good_reject N n s : good N n s -> good N n (reject s).
Proof. unfold reject. destruct (outcome s); auto. intros []; constructor; auto. Qed.

Lemma good_suspend N n s t :
  run_of t = [] -> good N n s -> good N n (suspend t s).
Proof.
  intros Ht [].
  constructor; rewrite ?running_suspend, ?Ht, ?app_nil_r; auto.
Qed.

Lemma good_claim N n s :
  good N n s -> (completed s < items_length s)%nat -> activeRequests s < N ->
  good N n (claim s).
Proof.
  intros [] Hlt Hact. constructor; rewrite ?running_claim; simpl; auto.
  - rewrite length_app. simpl. lia.
  - lia.
  - rewrite g_disp0. symmetry. exact (seq_S (completed s) 0).
  - apply Forall_app. split.
    + eapply Forall_impl; [|exact g_lt0]. simpl. intros; lia.
    + constructor; [lia|constructor].
  - apply NoDup_app; auto.
    + constructor; [simpl; tauto|constructor].
    + intros x Hx [<-|[]]. rewrite Forall_forall in g_lt0.
      specialize (g_lt0 _ Hx). lia.
Qed.

Lemma good_dispatch N n s : good N n s -> good N n (fst (dispatch s)).
Proof.
  intros G. unfold dispatch.
  destruct (items_length s <=? completed s)%nat eqn:E1; simpl.
  - now apply good_resolve.
  - destruct (maxConcurrent s <=? activeRequests s) eqn:E2; simpl; auto.
    apply Nat.leb_gt in E1. apply Z.leb_gt in E2.
    apply good_claim; auto. rewrite <- (g_max _ _ _ G). exact E2.
Qed.

Lemma good_pause_loop N n s : good N n s -> good N n (fst (pause_loop s)).
Proof.
  intros G. unfold pause_loop.
  destruct (isPaused s && negb (isCancelled s) && negb (aborted s)); simpl.
  - now apply good_suspend.
  - now apply good_dispatch.
Qed.

Lemma good_processNext N n s : good N n s -> good N n (fst (processNext s)).
Proof.
  intros G. unfold processNext.
  destruct (isCancelled s || aborted s); simpl.
  - now apply good_reject.
  - now apply good_pause_loop.
Qed.

Lemma good_resume_idle N n s t s' :
  run_of t = [] -> resume_task t s = Some s' -> good N n s -> good N n s'.
Proof.
  unfold resume_task. intros Ht H G.
  destruct (remove_task t (tasks s)) as [ts|] eqn:E; [|discriminate].
  inversion H; subst; clear H.
  pose proof (running_perm _ _ _ E) as P. rewrite Ht in P. simpl in P.
  assert (R : running (set_tasks ts s) = flat_map run_of ts) by reflexivity.
  destruct G. constructor; rewrite ?R; simpl; auto.
  - rewrite <- (Permutation_length P). auto.
  - eapply Permutation_Forall; eauto.
  - eapply Permutation_NoDup; eauto.
Qed.

Lemma good_settle N n s i s' :
  resume_task (Running i) s = Some s' -> good N n s -> good N n (settle s').
Proof.
  unfold resume_task. intros H G.
  destruct (remove_task (Running i) (tasks s)) as [ts|] eqn:E; [|discriminate].
  inversion H; subst; clear H.
  pose proof (running_perm _ _ _ E) as P. simpl in P.
  assert (G1 : good N n (set_activeRequests (activeRequests s - 1) (set_tasks ts s))).
  { assert (R : running (set_activeRequests (activeRequests s - 1) (set_tasks ts s))
                = flat_map run_of ts) by reflexivity.
    destruct G. constructor; rewrite ?R; simpl; auto.
    - rewrite g_active0, (Permutation_length P). cbn [List.length]. lia.
    - lia.
    - apply (Permutation_Forall P) in g_lt0. now inversion g_lt0.
    - apply (Permutation_NoDup P) in g_nodup0. now inversion g_nodup0. }
  unfold settle.
  match goal with |- good _ _ (if ?c then _ else _) => destruct c end;
    now apply good_suspend.
Qed.

Lemma good_exec N n l s s' : exec l s = Some s' -> good N n s -> good N n s'.
Proof.
  destruct l; simpl; intros H G.
  - destruct (resume_task Timer s) as [s1|] eqn:E; simpl in H; inversion H; subst.
    apply good_processNext. eapply good_resume_idle; eauto; reflexivity.
  - destruct (resume_task PauseWait s) as [s1|] eqn:E; simpl in H; inversion H; subst.
    apply good_pause_loop. eapply good_resume_idle; eauto; reflexivity.
  - destruct (resume_task (Running item) s) as [s1|] eqn:E; simpl in H; inversion H; subst.
    eapply good_settle; eauto.
  - destruct (resume_task BatchDelay s) as [s1|] eqn:E; simpl in H; inversion H; subst.
    apply good_suspend; auto. eapply good_resume_idle; eauto; reflexivity.
  - inversion H; subst. destruct G; constructor; auto.
  - inversion H; subst. destruct G; constructor; auto.
  - inversion H; subst. destruct G; constructor; auto.
  - inversion H; subst. destruct G; constructor; auto.
Qed.

Lemma good_execs N n ls : forall s s',
  execs ls s = Some s' -> good N n s -> good N n s'.
Proof.
  induction ls as [|l r IH]; simpl; intros s s' H G.
  - now inversion H; subst.
  - destruct (exec l s) as [s1|] eqn:E; [|discriminate].
    eapply IH; eauto using good_exec.
Qed.

Lemma good_call_processNext N n k : forall s,
  good N n s -> good N n (call_processNext k s).
Proof. induction k; simpl; auto using good_processNext. Qed.

Lemma good_processItems N d p a n :
  0 <= N -> good N n (processItems N d p a n).
Proof.
  intros HN. apply good_call_processNext.
  constructor; simpl; auto; try lia; constructor.
Qed.

(** ** Runs that are never cancelled *)

Lemma suspend_not_nil t s : tasks (suspend t s) <> [].
Proof. unfold suspend; simpl. destruct (tasks s); discriminate. Qed.

Lemma quiet_suspend t s : quiet (suspend t s).
Proof. intros H. now apply suspend_not_nil in H. Qed.

Lemma quiet_dispatch N n s : 1 <= N -> good N n s -> quiet (fst (dispatch s)).
Proof.
  intros HN G. unfold dispatch.
  destruct (items_length s <=? completed s)%nat eqn:E1; simpl.
  - intros _. apply Nat.leb_le in E1. unfold resolve.
    destruct (outcome s); exact E1.
  - destruct (maxConcurrent s <=? activeRequests s) eqn:E2; simpl.
    + intros H. apply Z.leb_le in E2.
      rewrite (g_max _ _ _ G), (g_active _ _ _ G) in E2.
      unfold running in E2. rewrite H in E2. simpl in E2. lia.
    + intros H. unfold claim in H; simpl in H. destruct (tasks s); discriminate.
Qed.

Lemma quiet_pause_loop N n s : 1 <= N -> good N n s -> quiet (fst (pause_loop s)).
Proof.
  intros HN G. unfold pause_loop.
  destruct (isPaused s && negb (isCancelled s) && negb (aborted s)); simpl.
  - apply quiet_suspend.
  - eapply quiet_dispatch; eauto.
Qed.

Lemma quiet_processNext N n s :
  1 <= N -> good N n s -> calm s -> quiet (fst (processNext s)).
Proof.
  intros HN G [C A]. unfold processNext. rewrite C, A. simpl.
  eapply quiet_pause_loop; eauto.
Qed.

Lemma settle_not_nil s : tasks (settle s) <> [].
Proof.
  unfold settle.
  match goal with |- tasks (if ?c then _ else _) <> _ => destruct c end;
    apply suspend_not_nil.
Qed.

Lemma calm_dispatch s : calm s -> calm (fst (dispatch s)).
Proof.
  unfold dispatch, calm, resolve.
  destruct (items_length s <=? completed s)%nat; simpl.
  - destruct (outcome s); auto.
  - destruct (maxConcurrent s <=? activeRequests s); auto.
Qed.

Lemma calm_pause_loop s : calm s -> calm (fst (pause_loop s)).
Proof.
  unfold pause_loop.
  destruct (isPaused s && negb (isCancelled s) && negb (aborted s)); simpl;
    auto using calm_dispatch.
Qed.

Lemma calm_processNext s : calm s -> calm (fst (processNext s)).
Proof.
  intros C. pose proof C as [C1 C2]. unfold processNext. rewrite C1, C2. simpl.
  now apply calm_pause_loop.
Qed.

Lemma calm_settle s : calm s -> calm (settle s).
Proof.
  unfold settle.
  match goal with |- _ -> calm (if ?c then _ else _) => destruct c end; auto.
Qed.

Lemma calm_resume t s s' : resume_task t s = Some s' -> calm s -> calm s'.
Proof.
  unfold resume_task. destruct (remove_task t (tasks s)); simpl; [|discriminate].
  intros H; inversion H; subst. auto.
Qed.

Lemma calm_exec l s s' :
  is_cancel l = false -> exec l s = Some s' -> calm s -> calm s'.
Proof.
  destruct l; simpl; try discriminate; intros _ H C.
  - destruct (resume_task Timer s) eqn:E; simpl in H; inversion H; subst.
    eauto using calm_processNext, calm_resume.
  - destruct (resume_task PauseWait s) eqn:E; simpl in H; inversion H; subst.
    eauto using calm_pause_loop, calm_resume.
  - destruct (resume_task (Running item) s) eqn:E; simpl in H; inversion H; subst.
    eauto using calm_settle, calm_resume.
  - destruct (resume_task BatchDelay s) eqn:E; simpl in H; inversion H; subst.
    eapply calm_resume in E; eauto.
  - inversion H; subst; auto.
  - inversion H; subst; auto.
Qed.

Lemma quiet_exec N n l s s' :
  1 <= N -> is_cancel l = false -> exec l s = Some s' ->
  good N n s -> calm s -> quiet s -> quiet s'.
Proof.
  intros HN. destruct l; simpl; try discriminate; intros _ H G C Q.
  - destruct (resume_task Timer s) eqn:E; simpl in H; inversion H; subst.
    eapply quiet_processNext; eauto using calm_resume.
    eapply good_resume_idle; eauto; reflexivity.
  - destruct (resume_task PauseWait s) eqn:E; simpl in H; inversion H; subst.
    eapply quiet_pause_loop; eauto.
    eapply good_resume_idle; eauto; reflexivity.
  - destruct (resume_task (Running item) s) eqn:E; simpl in H; inversion H; subst.
    intros H1. now apply settle_not_nil in H1.
  - destruct (resume_task BatchDelay s) eqn:E; simpl in H; inversion H; subst.
    apply quiet_suspend.
  - inversion H; subst; auto.
  - inversion H; subst; auto.
Qed.

Lemma calm_quiet_execs N n ls : forall s s',
  1 <= N -> no_cancel ls = true -> execs ls s = Some s' ->
  good N n s -> calm s -> quiet s -> calm s' /\ quiet s'.
Proof.
  induction ls as [|l r IH]; simpl; intros s s' HN Hc H G C Q.
  - inversion H; subst; auto.
  - apply andb_true_iff in Hc as [Hl Hr]. apply negb_true_iff in Hl.
    destruct (exec l s) as [s1|] eqn:E; [|discriminate].
    eapply (IH s1); eauto using good_exec, calm_exec, quiet_exec.
Qed.

Lemma calm_call_processNext k : forall s, calm s -> calm (call_processNext k s).
Proof. induction k; simpl; auto using calm_processNext. Qed.

Lemma quiet_call_processNext N n k : forall s,
  1 <= N -> good N n s -> calm s -> quiet s -> quiet (call_processNext k s).
Proof.
  induction k; simpl; intros s HN G C Q; auto.
  apply IHk; eauto using good_processNext, calm_processNext, quiet_processNext.
Qed.

Lemma calm_processItems N d p n : calm (processItems N d p false n).
Proof. apply calm_call_processNext. split; reflexivity. Qed.

Lemma quiet_processItems N d p n :
  1 <= N -> quiet (processItems N d p false n).
Proof.
  intros HN. unfold processItems.
  set (s0 := fresh N d p false n).
  assert (G0 : good N n s0) by (constructor; simpl; auto; try lia; constructor).
  assert (C0 : calm s0) by (split; reflexivity).
  destruct (initial_batch s0) as [|k] eqn:Ek.
  - simpl. intros _. unfold initial_batch in Ek. simpl in *. lia.
  - simpl. apply (quiet_call_processNext N n); eauto using good_processNext,
      calm_processNext, quiet_processNext.
Qed.

(** ** Progress and termination *)

Lemma load_app a b : load (a ++ b) = (load a + load b)%nat.
Proof. unfold load. now rewrite map_app, list_sum_app. Qed.

Lemma load_remove t ts ts' :
  remove_task t ts = Some ts' -> load ts = (weight t + load ts')%nat.
Proof.
  revert ts'. induction ts as [|x r IH]; simpl; intros ts' H; [discriminate|].
  destruct (task_eqb t x) eqn:E.
  - apply task_eqb_eq in E. inversion H; subst. reflexivity.
  - destruct (remove_task t r) as [r'|]; simpl in H; [|discriminate].
    inversion H; subst. unfold load in *. simpl. rewrite (IH r' eq_refl). lia.
Qed.

Lemma mu_suspend t s : mu (suspend t s) = (mu s + weight t)%nat.
Proof. unfold mu, suspend; simpl. rewrite load_app. unfold load; simpl. lia. Qed.

Lemma mu_dispatch s : (mu (fst (dispatch s)) <= mu s)%nat.
Proof.
  unfold dispatch.
  destruct (items_length s <=? completed s)%nat eqn:E1; simpl.
  - unfold resolve. destruct (outcome s); apply Nat.le_refl.
  - destruct (maxConcurrent s <=? activeRequests s); simpl; [apply Nat.le_refl|].
    apply Nat.leb_gt in E1. unfold mu, claim; simpl. rewrite load_app.
    unfold load; simpl. lia.
Qed.

Lemma mu_processNext s : (mu (fst (processNext s)) <= mu s + 1)%nat.
Proof.
  unfold processNext, pause_loop.
  destruct (isCancelled s || aborted s); simpl.
  - unfold reject. destruct (outcome s); unfold mu; simpl; lia.
  - destruct (isPaused s && negb (isCancelled s) && negb (aborted s)); simpl.
    + rewrite mu_suspend. simpl. lia.
    + pose proof (mu_dispatch s). lia.
Qed.

Lemma mu_resume t s s' :
  resume_task t s = Some s' -> mu s = (weight t + mu s')%nat.
Proof.
  unfold resume_task.
  destruct (remove_task t (tasks s)) as [ts|] eqn:E; simpl; [|discriminate].
  intros H; inversion H; subst. unfold mu; simpl.
  rewrite (load_remove _ _ _ E). lia.
Qed.

Lemma flags_resume t s s' :
  resume_task t s = Some s' ->
  isPaused s' = isPaused s /\ isCancelled s' = isCancelled s /\ aborted s' = aborted s.
Proof.
  unfold resume_task. destruct (remove_task t (tasks s)); simpl; [|discriminate].
  intros H; inversion H; subst. auto.
Qed.

Lemma mu_exec l s s' :
  exec l s = Some s' -> (mu s' + (if advances l s then 1 else 0) <= mu s)%nat.
Proof.
  destruct l; simpl; intros H.
  - destruct (resume_task Timer s) as [s1|] eqn:E; simpl in H; inversion H; subst.
    apply mu_resume in E. pose proof (mu_processNext s1). simpl in E. lia.
  - destruct (resume_task PauseWait s) as [s1|] eqn:E; simpl in H; inversion H; subst.
    destruct (flags_resume _ _ _ E) as (F1 & F2 & F3).
    apply mu_resume in E. simpl in E. unfold pause_loop.
    rewrite F1, F2, F3.
    destruct (isPaused s && negb (isCancelled s) && negb (aborted s)); simpl.
    + rewrite mu_suspend. simpl. lia.
    + pose proof (mu_dispatch s1). lia.
  - destruct (resume_task (Running item) s) as [s1|] eqn:E; simpl in H; inversion H; subst.
    apply mu_resume in E. simpl in E. unfold settle.
    match goal with |- (mu (if ?c then _ else _) + _ <= _)%nat => destruct c end;
      rewrite mu_suspend; unfold mu in *; simpl in *; lia.
  - destruct (resume_task BatchDelay s) as [s1|] eqn:E; simpl in H; inversion H; subst.
    apply mu_resume in E. simpl in E. rewrite mu_suspend. simpl. lia.
  - inversion H; subst. unfold mu; simpl. lia.
  - inversion H; subst. unfold mu; simpl. lia.
  - inversion H; subst. unfold mu; simpl. lia.
  - inversion H; subst. unfold mu; simpl. lia.
Qed.

Lemma advancing_steps_bounded ls : forall s, (advancing_steps ls s <= mu s)%nat.
Proof.
  induction ls as [|l r IH]; simpl; intros s; [lia|].
  destruct (exec l s) as [s1|] eqn:E; [|lia].
  pose proof (mu_exec _ _ _ E). pose proof (IH s1). lia.
Qed.

Lemma mu_call_processNext k : forall s,
  (mu (call_processNext k s) <= mu s + k)%nat.
Proof.
  induction k; simpl; intros s; [lia|].
  pose proof (IHk (fst (processNext s))). pose proof (mu_processNext s). lia.
Qed.

Lemma mu_processItems N d p a n : (mu (processItems N d p a n) <= 5 * n)%nat.
Proof.
  unfold processItems.
  pose proof (mu_call_processNext (initial_batch (fresh N d p a n)) (fresh N d p a n)) as H.
  unfold initial_batch in *. simpl in *. unfold mu at 2 in H. simpl in H. lia.
Qed.

Lemma can_advance s :
  tasks s <> [] -> isPaused s = false ->
  exists l s', advances l s = true /\ exec l s = Some s'.
Proof.
  intros Ht Hp. destruct (tasks s) as [|t ts] eqn:E; [congruence|].
  destruct (remove_task_in t (tasks s)) as [ts' R]; [rewrite E; now left|].
  exists (task_label t).
  destruct t; simpl; unfold resume_task; rewrite R; simpl; rewrite ?Hp; eauto.
Qed.

Lemma dispatched_prefix (T : Type) (items : list T) : forall c,
  map (nth_error items) (seq 0 c) = map Some (firstn c items) ++ repeat None (c - List.length items).
Proof.
  induction items as [|x l IH]; intros c.
  - rewrite firstn_nil. simpl. rewrite Nat.sub_0_r.
    induction c; simpl; auto. rewrite <- seq_shift, map_map. simpl.
    f_equal. rewrite <- IHc. apply map_ext. now intros [|].
  - destruct c; simpl; auto. f_equal.
    rewrite <- seq_shift, map_map. simpl. apply IH.
Qed.

(** ** What one step does to the cursor and to the items in flight *)

Lemma remove_idle t ts ts' :
  run_of t = [] -> remove_task t ts = Some ts' ->
  flat_map run_of ts' = flat_map run_of ts.
Proof.
  intros Ht. revert ts'. induction ts as [|x r IH]; simpl; intros ts' H; [discriminate|].
  destruct (task_eqb t x) eqn:E.
  - apply task_eqb_eq in E. inversion H; subst. now rewrite Ht.
  - destruct (remove_task t r) as [r'|]; simpl in H; [|discriminate].
    inversion H; subst. simpl. now rewrite (IH r' eq_refl).
Qed.

Lemma same_flags_refl s : same_flags s s.
Proof. constructor; reflexivity. Qed.

Lemma same_flags_trans a b c : same_flags a b -> same_flags b c -> same_flags a c.
Proof. intros [] []; constructor; congruence. Qed.

Lemma resume_effect t s s' :
  resume_task t s = Some s' ->
  same_flags s s' /\ completed s' = completed s /\ outcome s' = outcome s /\
  (run_of t = [] -> running s' = running s).
Proof.
  unfold resume_task.
  destruct (remove_task t (tasks s)) as [ts|] eqn:E; simpl; [|discriminate].
  intros H; inversion H; subst. repeat split; auto.
  intros Ht. unfold running; simpl. eapply remove_idle; eauto.
Qed.

Lemma dispatch_effect s : claim_effect s (dispatch s).
Proof.
  unfold dispatch, claim_effect.
  destruct (items_length s <=? completed s)%nat; simpl.
  - unfold resolve. destruct (outcome s); repeat split; auto.
  - destruct (maxConcurrent s <=? activeRequests s); simpl.
    + repeat split; auto.
    + repeat split; auto. apply running_claim.
Qed.

Lemma pause_loop_effect s : claim_effect s (pause_loop s).
Proof.
  unfold pause_loop.
  destruct (isPaused s && negb (isCancelled s) && negb (aborted s)).
  - unfold claim_effect; simpl. repeat split; auto.
    rewrite running_suspend. simpl. apply app_nil_r.
  - apply dispatch_effect.
Qed.

Lemma processNext_effect s : claim_effect s (processNext s).
Proof.
  unfold processNext. destruct (isCancelled s || aborted s).
  - unfold claim_effect, reject; simpl. destruct (outcome s); repeat split; auto.
  - apply pause_loop_effect.
Qed.

Lemma exec_effect l s s' :
  idle l = true -> exec l s = Some s' ->
  same_flags s s' /\
  match claims l s with
  | Some i => i = completed s /\ completed s' = S i /\
              running s' = running s ++ [i] /\ outcome s' = outcome s
  | None => completed s' = completed s /\ running s' = running s
  end.
Proof.
  destruct l; simpl; try discriminate; intros _ H.
  - destruct (resume_task Timer s) as [s1|] eqn:E; simpl in H; inversion H; subst.
    destruct (resume_effect _ _ _ E) as (F & C & O & R). specialize (R eq_refl).
    destruct (processNext_effect s1) as [F1 X].
    split; [eapply same_flags_trans; eauto|].
    destruct (snd (processNext s1)); rewrite <- ?C, <- ?R, <- ?O; exact X.
  - destruct (resume_task PauseWait s) as [s1|] eqn:E; simpl in H; inversion H; subst.
    destruct (resume_effect _ _ _ E) as (F & C & O & R). specialize (R eq_refl).
    destruct (pause_loop_effect s1) as [F1 X].
    split; [eapply same_flags_trans; eauto|].
    destruct (snd (pause_loop s1)); rewrite <- ?C, <- ?R, <- ?O; exact X.
  - destruct (resume_task BatchDelay s) as [s1|] eqn:E; simpl in H; inversion H; subst.
    destruct (resume_effect _ _ _ E) as (F & C & O & R). specialize (R eq_refl).
    split; [destruct F; constructor; auto|].
    rewrite running_suspend. simpl. rewrite app_nil_r. auto.
Qed.

Lemma settle_effect i s s' :
  exec (LSettle i) s = Some s' ->
  same_flags s s' /\ completed s' = completed s /\ outcome s' = outcome s /\
  Permutation (running s) (i :: running s').
Proof.
  simpl. intros H.
  destruct (resume_task (Running i) s) as [s1|] eqn:E; simpl in H; inversion H; subst.
  destruct (resume_effect _ _ _ E) as (F & C & O & _).
  assert (P : Permutation (running s) (i :: running s1)).
  { unfold resume_task in E.
    destruct (remove_task (Running i) (tasks s)) as [ts|] eqn:E1; simpl in E; [|discriminate].
    inversion E; subst. apply (running_perm _ _ _ E1). }
  unfold settle.
  match goal with |- context [if ?c then _ else _] => destruct c end;
    rewrite running_suspend; simpl; rewrite app_nil_r; repeat split;
    try apply F; auto.
Qed.

Lemma settle_enabled i s : In i (running s) -> exists s', exec (LSettle i) s = Some s'.
Proof.
  intros H. unfold running in H. apply in_flat_map in H as (t & Ht & Hi).
  destruct t; simpl in Hi; try tauto. destruct Hi as [<-|[]].
  destruct (remove_task_in _ _ Ht) as [ts R].
  simpl. unfold resume_task. rewrite R. simpl. eauto.
Qed.

Lemma idle_enabled s :
  tasks s <> [] -> running s = [] ->
  exists l s', idle l = true /\ exec l s = Some s' /\
               (isPaused s = false -> advances l s = true).
Proof.
  intros Ht Hr. destruct (tasks s) as [|t ts] eqn:E; [congruence|].
  destruct (remove_task_in t (tasks s)) as [ts' R]; [rewrite E; now left|].
  destruct t.
  - exists LTimer. simpl. unfold resume_task. rewrite R. simpl. eauto.
  - exists LPoll. simpl. unfold resume_task. rewrite R. simpl.
    eexists; repeat split. now intros ->.
  - unfold running in Hr. rewrite E in Hr. discriminate.
  - exists LDelay. simpl. unfold resume_task. rewrite R. simpl. eauto.
Qed.

(** In a run that is never cancelled the promise is never rejected. *)
Lemma outcome_exec l s s' :
  is_cancel l = false -> exec l s = Some s' -> calm s ->
  outcome s <> Rejected -> outcome s' <> Rejected.
Proof.
  intros Hc H [C A] Ho.
  assert (D : forall x, isCancelled x = false -> aborted x = false ->
              outcome x <> Rejected -> outcome (fst (pause_loop x)) <> Rejected).
  { intros x Cx Ax Hx. unfold pause_loop, dispatch, resolve.
    repeat match goal with |- context [if ?c then _ else _] => destruct c end;
      simpl; auto; destruct (outcome x) eqn:EO; simpl; rewrite ?EO; congruence. }
  destruct l; simpl in *; try discriminate.
  - destruct (resume_task Timer s) as [s1|] eqn:E; simpl in H; inversion H; subst.
    destruct (resume_effect _ _ _ E) as ([] & _ & O & _).
    unfold processNext. rewrite f_cancelled0, f_aborted0, C, A. simpl.
    apply D; congruence.
  - destruct (resume_task PauseWait s) as [s1|] eqn:E; simpl in H; inversion H; subst.
    destruct (resume_effect _ _ _ E) as ([] & _ & O & _). apply D; congruence.
  - destruct (settle_effect _ _ _ H) as (_ & _ & O & _). congruence.
  - destruct (resume_task BatchDelay s) as [s1|] eqn:E; simpl in H; inversion H; subst.
    destruct (resume_effect _ _ _ E) as (_ & _ & O & _). simpl. congruence.
  - inversion H; subst. auto.
  - inversion H; subst. auto.
Qed.

Lemma outcome_processNext s :
  calm s -> outcome s <> Rejected -> outcome (fst (processNext s)) <> Rejected.
Proof.
  intros [C A] Ho. unfold processNext, pause_loop, dispatch, resolve.
  rewrite C, A. simpl.
  repeat match goal with |- context [if ?c then _ else _] => destruct c end;
    simpl; auto; destruct (outcome s) eqn:EO; simpl; rewrite ?EO; congruence.
Qed.

End RateLimiterFacts.

Module AuditEngineFacts.
Import JS Auditors AuditEngine.
Import RateLimiterSpec RateLimiterFacts AuditEngineSpec.
Local Open Scope nat_scope.

(** ** The table of suspended workers *)

Lemma stage_in_app i a b :
  stage_in i (a ++ b) = match stage_in i a with Some st => Some st | None => stage_in i b end.
Proof.
  unfold stage_in. induction a as [|[j st] a IH]; simpl; auto.
  destruct (j =? i); simpl; auto.
Qed.

Lemma stage_in_drop_same i ws : stage_in i (drop i ws) = None.
Proof.
  unfold stage_in, drop. induction ws as [|[j st] ws IH]; simpl; auto.
  destruct (j =? i) eqn:E; simpl; auto. now rewrite E.
Qed.

Lemma stage_in_drop_other i j ws : j <> i -> stage_in j (drop i ws) = stage_in j ws.
Proof.
  intros Hji. unfold stage_in, drop. induction ws as [|[k st] ws IH]; simpl; auto.
  destruct (k =? i) eqn:E; simpl.
  - apply Nat.eqb_eq in E. subst k.
    destruct (i =? j) eqn:E2; [apply Nat.eqb_eq in E2; congruence|]. exact IH.
  - destruct (k =? j); simpl; auto.
Qed.

Lemma stage_in_set i j st ws :
  stage_in j (drop i ws ++ [(i, st)]) = if j =? i then Some st else stage_in j ws.
Proof.
  rewrite stage_in_app. destruct (j =? i) eqn:E.
  - apply Nat.eqb_eq in E. subst j. rewrite stage_in_drop_same.
    unfold stage_in; simpl. now rewrite Nat.eqb_refl.
  - apply Nat.eqb_neq in E. rewrite stage_in_drop_other by auto.
    destruct (stage_in j ws); auto. unfold stage_in; simpl.
    destruct (i =? j) eqn:E2; auto. apply Nat.eqb_eq in E2. congruence.
Qed.

Lemma stage_in_none i ws : stage_in i ws = None <-> ~ In i (map fst ws).
Proof.
  unfold stage_in. induction ws as [|[j st] ws IH]; simpl; [tauto|].
  destruct (j =? i) eqn:E; simpl.
  - apply Nat.eqb_eq in E. split; [discriminate|]. intros H; exfalso; auto.
  - apply Nat.eqb_neq in E. rewrite IH. tauto.
Qed.

Lemma in_drop i j ws : In j (map fst (drop i ws)) <-> j <> i /\ In j (map fst ws).
Proof.
  unfold drop. induction ws as [|[k st] ws IH]; simpl; [tauto|].
  destruct (k =? i) eqn:E; simpl.
  - apply Nat.eqb_eq in E. subst k. rewrite IH. split; [tauto|].
    intros [H1 [H2|H2]]; [congruence|tauto].
  - apply Nat.eqb_neq in E. rewrite IH. split.
    + intros [->|H]; tauto.
    + tauto.
Qed.

Lemma nodup_drop i ws : NoDup (map fst ws) -> NoDup (map fst (drop i ws)).
Proof.
  unfold drop. induction ws as [|[k st] ws IH]; simpl; auto.
  intros H. inversion H; subst. destruct (k =? i); simpl; auto.
  constructor; auto. intros Hin. apply (in_drop i k ws) in Hin. tauto.
Qed.

Lemma in_set i j st ws :
  In j (map fst (drop i ws ++ [(i, st)])) <-> j = i \/ In j (map fst ws).
Proof.
  rewrite map_app, in_app_iff, in_drop. simpl.
  destruct (Nat.eq_dec j i); intuition.
Qed.

Lemma nodup_set i st ws :
  NoDup (map fst ws) -> NoDup (map fst (drop i ws ++ [(i, st)])).
Proof.
  intros H. rewrite map_app. apply NoDup_app.
  - now apply nodup_drop.
  - simpl. constructor; [tauto|constructor].
  - intros x Hx [<-|[]]. apply in_drop in Hx. tauto.
Qed.

Lemma pending_app a b : pending (a ++ b) = pending a + pending b.
Proof. unfold pending. now rewrite filter_app, length_app. Qed.

Lemma pending_drop i ws :
  NoDup (map fst ws) -> pending ws = pending (drop i ws) + pending_of (stage_in i ws).
Proof.
  unfold pending, drop, stage_in. induction ws as [|[k st] ws IH]; simpl; auto.
  intros H. inversion H; subst.
  destruct (k =? i) eqn:E; simpl.
  - apply Nat.eqb_eq in E. subst k.
    assert (D : filter (fun w => negb (fst w =? i)) ws = ws).
    { clear - H2. induction ws as [|[k st'] ws IH]; simpl in *; auto.
      destruct (k =? i) eqn:E; simpl.
      - apply Nat.eqb_eq in E. tauto.
      - f_equal. apply IH. tauto. }
    rewrite D. destruct (unsettled st); simpl; lia.
  - specialize (IH H3). destruct (unsettled st); simpl; lia.
Qed.

Lemma pending_set i st ws :
  NoDup (map fst ws) ->
  pending (drop i ws ++ [(i, st)]) + pending_of (stage_in i ws)
  = pending ws + (if unsettled st then 1 else 0).
Proof.
  intros H. rewrite pending_app, (pending_drop i ws H).
  unfold pending at 2. simpl. destruct (unsettled st); simpl; lia.
Qed.




(** ** Invariants of a run that is never cancelled *)

Lemma stage_ok_set i st ws :
  stage_ok st -> Forall (fun w => stage_ok (snd w)) ws ->
  Forall (fun w => stage_ok (snd w)) (drop i ws ++ [(i, st)]).
Proof.
  intros H F. apply Forall_app. split.
  - unfold drop. rewrite Forall_forall in *. intros x Hx.
    apply filter_In in Hx. apply F. tauto.
  - constructor; auto.
Qed.

Lemma stage_ok_drop i ws :
  Forall (fun w => stage_ok (snd w)) ws ->
  Forall (fun w => stage_ok (snd w)) (drop i ws).
Proof.
  intros F. unfold drop. rewrite Forall_forall in *. intros x Hx.
  apply filter_In in Hx. apply F. tauto.
Qed.

Lemma count_emit i ph e s :
  count_progress i ph (emit e s)
  = count_progress i ph s + (if is_progress i ph e then 1 else 0).
Proof.
  unfold count_progress, emit; simpl. rewrite filter_app, length_app. simpl.
  destruct (is_progress i ph e); reflexivity.
Qed.

Lemma sound_emit N e s : neutral e = true -> sound N s -> sound N (emit e s).
Proof.
  intros He []. constructor; simpl; auto.
  - intros i. change (expected i (emit e s)) with (expected i s).
    rewrite !count_emit.
    replace (is_progress i Start e) with false by (destruct e; simpl in *; congruence).
    replace (is_progress i End e) with false by (destruct e; simpl in *; congruence).
    rewrite !Nat.add_0_r. apply s_progress0.
  - destruct s_last0 as [H|(i & u & H)]; [now left|right].
    exists i, u. apply in_or_app. now left.
  - apply Forall_app. split; auto. constructor; [|constructor].
    destruct e; simpl in *; auto; discriminate.
Qed.

Lemma continues_cases b s :
  RateLimiter.outcome (limiter s) <> RateLimiter.Rejected ->
  startAudit_continues b s = s \/ startAudit_continues b s = emit OnComplete s.
Proof.
  unfold startAudit_continues. intros H.
  destruct b, (RateLimiter.outcome (limiter s)); auto. congruence.
Qed.

Lemma limiter_continues b s : limiter (startAudit_continues b s) = limiter s.
Proof.
  unfold startAudit_continues.
  destruct b, (RateLimiter.outcome (limiter s)); auto.
Qed.

Lemma sound_continues N b s : sound N s -> sound N (startAudit_continues b s).
Proof.
  intros H. destruct (continues_cases b s (s_outcome _ _ H)) as [-> | ->]; auto.
  now apply sound_emit.
Qed.

(** The limiter moved without claiming an item. *)
Lemma sound_limiter N s rl :
  sound N s -> good N (List.length (urls s)) rl -> calm rl ->
  RateLimiter.outcome rl <> RateLimiter.Rejected ->
  RateLimiter.isPaused rl = RateLimiter.isPaused (limiter s) ->
  RateLimiter.completed rl = RateLimiter.completed (limiter s) ->
  (forall i, In i (RateLimiter.running rl) <-> In i (RateLimiter.running (limiter s))) ->
  sound N (set_limiter rl s).
Proof.
  intros [] G C O P K R. constructor; simpl.
  - exact G.
  - exact C.
  - exact O.
  - congruence.
  - exact s_nodup0.
  - intros i. rewrite s_workers0. symmetry. apply R.
  - congruence.
  - intros i. unfold expected; simpl. rewrite K. apply s_progress0.
  - exact s_last0.
  - exact s_wf0.
  - exact s_stage0.
Qed.

Lemma aborted_false s : calm (limiter s) -> aborted s = false.
Proof. intros [_ A]. exact A. Qed.

(** A claimed item is handed to [processUrl]. *)
Lemma sound_claim N s rl i :
  sound N s -> good N (List.length (urls s)) rl -> calm rl ->
  RateLimiter.outcome rl <> RateLimiter.Rejected ->
  RateLimiter.isPaused rl = RateLimiter.isPaused (limiter s) ->
  i = RateLimiter.completed (limiter s) ->
  RateLimiter.completed rl = S i ->
  RateLimiter.running rl = (RateLimiter.running (limiter s) ++ [i])%list ->
  sound N (processUrl i (set_limiter rl s)).
Proof.
  intros S0 G C O P Hi K R. pose proof S0 as [].
  assert (Fresh : stage_in i (workers s) = None).
  { apply stage_in_none. rewrite s_workers0. intros Hin.
    pose proof (g_lt _ _ _ s_good0) as F. rewrite Forall_forall in F.
    specialize (F _ Hin). lia. }
  assert (Hn : i < List.length (urls s)).
  { pose proof (g_le _ _ _ G). pose proof (g_len _ _ _ G). lia. }
  assert (E0 : expected i s = (0, 0)).
  { unfold expected. rewrite Fresh.
    replace (i <? RateLimiter.completed (limiter s)) with false; auto.
    symmetry. apply Nat.ltb_ge. lia. }
  pose proof (s_progress0 i) as Ci. rewrite E0 in Ci. injection Ci as Cs Ce.
  unfold processUrl, wait_if_paused.
  rewrite (aborted_false (set_limiter rl s)) by exact C. simpl.
  rewrite andb_true_r.
  assert (W : forall st,
    (forall j, In j (map fst (drop i (workers s) ++ [(i, st)]))
               <-> In j (RateLimiter.running rl))).
  { intros st j. rewrite in_set, R, in_app_iff, s_workers0. simpl. intuition. }
  assert (Cnt : forall st, unsettled st = true ->
    completed s + pending (drop i (workers s) ++ [(i, st)]) = RateLimiter.completed rl).
  { intros st Hst. pose proof (pending_set i st (workers s) s_nodup0) as X.
    rewrite Fresh, Hst in X. simpl in X. lia. }
  assert (Others : forall j, j <> i ->
    match stage_in j (workers s) with
    | Some Paused => (0, 0)
    | Some (Auditing _ _) => (1, 0)
    | Some Settled => (1, 1)
    | None => if j <? S i then (1, 1) else (0, 0)
    end = expected j s).
  { intros j Ej. unfold expected.
    destruct (stage_in j (workers s)) as [[]|]; auto.
    replace (j <? S i) with (j <? RateLimiter.completed (limiter s)); auto.
    subst i. destruct (Nat.ltb_spec j (RateLimiter.completed (limiter s)));
      symmetry; [apply Nat.ltb_lt|apply Nat.ltb_ge]; lia. }
  destruct (isPaused s) eqn:Ep.
  - constructor; simpl.
    + exact G.
    + exact C.
    + exact O.
    + congruence.
    + now apply nodup_set.
    + apply W.
    + now apply Cnt.
    + intros j. unfold expected; simpl. rewrite stage_in_set, K.
      destruct (j =? i) eqn:Ej.
      * apply Nat.eqb_eq in Ej. subst j. unfold count_progress in *. simpl.
        now rewrite Cs, Ce.
      * apply Nat.eqb_neq in Ej. rewrite (Others j Ej). apply s_progress0.
    + exact s_last0.
    + exact s_wf0.
    + apply stage_ok_set; simpl; auto.
  - unfold audit_item, auditUrl. simpl.
    rewrite (aborted_false _) by exact C.
    constructor; simpl.
    + exact G.
    + exact C.
    + exact O.
    + congruence.
    + now apply nodup_set.
    + apply W.
    + now apply Cnt.
    + intros j. unfold expected; simpl. rewrite stage_in_set, K.
      unfold count_progress; simpl. rewrite !filter_app, !length_app. simpl.
      change (List.length (filter (is_progress j Start) (log s)))
        with (count_progress j Start s).
      change (List.length (filter (is_progress j End) (log s)))
        with (count_progress j End s).
      rewrite Nat.eqb_sym.
      destruct (j =? i) eqn:Ej.
      * apply Nat.eqb_eq in Ej. subst j. rewrite Cs, Ce. reflexivity.
      * rewrite !Nat.add_0_r.
        apply Nat.eqb_neq in Ej. rewrite (Others j Ej). apply s_progress0.
    + destruct s_last0 as [H|(j & u & H)]; [now left|right].
      exists j, u. apply in_or_app. now left.
    + apply Forall_app. split; auto. constructor; [|constructor]. simpl.
      repeat split; auto.
      pose proof (g_le _ _ _ s_good0). pose proof (g_len _ _ _ s_good0). lia.
    + apply stage_ok_set; simpl; auto. discriminate.
Qed.

Lemma expected_stage i s st :
  stage_in i (workers s) = Some st -> expected i s = expected_of st.
Proof. unfold expected. intros ->. now destruct st. Qed.

Lemma expected_set i j st s :
  expected j (set_stage i st s) = if j =? i then expected_of st else expected j s.
Proof.
  unfold expected, set_stage; simpl. rewrite stage_in_set.
  destruct (j =? i); reflexivity.
Qed.

Lemma in_workers i s st : stage_in i (workers s) = Some st -> In i (map fst (workers s)).
Proof.
  intros H. destruct (in_dec Nat.eq_dec i (map fst (workers s))) as [|n]; auto.
  apply stage_in_none in n. congruence.
Qed.

Lemma workers_set N s i old new :
  sound N s -> stage_in i (workers s) = Some old ->
  forall j, In j (map fst (drop i (workers s) ++ [(i, new)]))
            <-> In j (RateLimiter.running (limiter s)).
Proof.
  intros S0 Ho j. rewrite in_set, <- (s_workers _ _ S0).
  pose proof (in_workers _ _ _ Ho). split; [intros [->|]|]; auto.
Qed.

(** A worker moves to a stage with the same events behind it. *)
Lemma sound_restage N s i old new :
  sound N s -> stage_in i (workers s) = Some old ->
  unsettled new = unsettled old -> expected_of new = expected_of old ->
  stage_ok new ->
  sound N (set_stage i new s).
Proof.
  intros S0 Ho Hu He Hk. pose proof S0 as []. constructor; simpl.
  1-4, 9-10: assumption.
  5: now apply stage_ok_set.
  - now apply nodup_set.
  - eapply workers_set; eauto.
  - pose proof (pending_set i new (workers s) s_nodup0) as X.
    rewrite Ho in X. simpl in X. rewrite Hu in X. lia.
  - intros j. rewrite expected_set.
    change (count_progress j Start (set_stage i new s)) with (count_progress j Start s).
    change (count_progress j End (set_stage i new s)) with (count_progress j End s).
    rewrite s_progress0. destruct (j =? i) eqn:E; auto.
    apply Nat.eqb_eq in E. subst j. rewrite He. now apply expected_stage.
Qed.

Lemma worker_in_range N s i st :
  sound N s -> stage_in i (workers s) = Some st ->
  i < RateLimiter.completed (limiter s) /\ i < List.length (urls s).
Proof.
  intros S0 H. pose proof S0 as []. apply in_workers in H. apply s_workers0 in H.
  pose proof (g_lt _ _ _ s_good0) as F. rewrite Forall_forall in F.
  specialize (F _ H). pose proof (g_le _ _ _ s_good0). pose proof (g_len _ _ _ s_good0).
  lia.
Qed.

(** A paused worker leaves the while loop. *)
Lemma sound_audit_item N s i :
  sound N s -> stage_in i (workers s) = Some Paused -> sound N (audit_item i s).
Proof.
  intros S0 Ho. pose proof S0 as [].
  destruct (worker_in_range _ _ _ _ S0 Ho) as [_ Hn].
  unfold audit_item, auditUrl. simpl.
  rewrite (aborted_false _) by exact s_calm0.
  constructor; simpl.
  1-4: assumption.
  - now apply nodup_set.
  - eapply workers_set; eauto.
  - pose proof (pending_set i (Auditing 0 []) (workers s) s_nodup0) as X.
    rewrite Ho in X. simpl in X. lia.
  - intros j. unfold expected; simpl. rewrite stage_in_set.
    unfold count_progress; simpl. rewrite !filter_app, !length_app. simpl.
    change (List.length (filter (is_progress j Start) (log s)))
      with (count_progress j Start s).
    change (List.length (filter (is_progress j End) (log s)))
      with (count_progress j End s).
    rewrite Nat.eqb_sym. pose proof (s_progress0 j) as X.
    destruct (j =? i) eqn:Ej.
    + apply Nat.eqb_eq in Ej. subst j. rewrite (expected_stage _ _ _ Ho) in X.
      simpl in X. injection X as -> ->. reflexivity.
    + rewrite !Nat.add_0_r. exact X.
  - destruct s_last0 as [H|(j & u & H)]; [now left|right].
    exists j, u. apply in_or_app. now left.
  - apply Forall_app. split; auto. constructor; [|constructor]. simpl.
    repeat split; auto.
    pose proof (g_le _ _ _ s_good0). pose proof (g_len _ _ _ s_good0). lia.
  - apply stage_ok_set; simpl; auto. discriminate.
Qed.

(** [auditUrl] has returned. *)
Lemma sound_finish N s i k acc rs :
  sound N s -> stage_in i (workers s) = Some (Auditing k acc) ->
  sound N (finish i rs s).
Proof.
  intros S0 Ho. unfold finish.
  set (s1 := match rs with [] => s | _ => emit (OnResults rs) s end).
  assert (S1 : sound N s1).
  { subst s1. destruct rs; auto. now apply sound_emit. }
  assert (H1 : stage_in i (workers s1) = Some (Auditing k acc)).
  { subst s1. destruct rs; auto. }
  clearbody s1. clear S0 Ho s. rename s1 into s.
  pose proof S1 as [].
  destruct (worker_in_range _ _ _ _ S1 H1) as [_ Hn].
  pose proof (pending_set i Settled (workers s) s_nodup0) as X.
  rewrite H1 in X. simpl in X.
  constructor; simpl.
  1-4: assumption.
  - now apply nodup_set.
  - eapply workers_set; eauto.
  - lia.
  - intros j. unfold expected; simpl. rewrite stage_in_set.
    unfold count_progress; simpl. rewrite !filter_app, !length_app. simpl.
    change (List.length (filter (is_progress j Start) (log s)))
      with (count_progress j Start s).
    change (List.length (filter (is_progress j End) (log s)))
      with (count_progress j End s).
    rewrite Nat.eqb_sym. pose proof (s_progress0 j) as Y.
    destruct (j =? i) eqn:Ej.
    + apply Nat.eqb_eq in Ej. subst j. rewrite (expected_stage _ _ _ H1) in Y.
      simpl in Y. injection Y as -> ->. reflexivity.
    + rewrite !Nat.add_0_r. exact Y.
  - right. eexists i, _. apply in_or_app. right. left. reflexivity.
  - apply Forall_app. split; auto. constructor; [|constructor]. simpl.
    repeat split; auto; try discriminate.
    pose proof (g_le _ _ _ s_good0). pose proof (g_len _ _ _ s_good0). lia.
  - apply stage_ok_set; simpl; auto.
Qed.

Lemma sound_auditUrl N s i k acc k' acc' :
  sound N s -> stage_in i (workers s) = Some (Auditing k acc) ->
  sound N (auditUrl i k' acc' s).
Proof.
  intros S0 Ho. unfold auditUrl. destruct (nth_error auditors k') eqn:E.
  - rewrite (aborted_false _) by apply (s_calm _ _ S0).
    eapply sound_restage; eauto. simpl. congruence.
  - eapply sound_finish; eauto.
Qed.

Lemma sound_response N i r s s' :
  response_arrives i r s = Some s' -> sound N s -> sound N s'.
Proof.
  unfold response_arrives, stage_of. intros H S0.
  change (option_map snd (find (fun w => fst w =? i) (workers s)))
    with (stage_in i (workers s)) in H.
  destruct (stage_in i (workers s)) as [[|k acc|]|] eqn:E; try discriminate.
  destruct (nth_error auditors k); [|discriminate].
  inversion H; subst. eapply sound_auditUrl; eauto.
Qed.

Lemma sound_worker_polls N i s s' :
  worker_polls i s = Some s' -> sound N s -> sound N s'.
Proof.
  unfold worker_polls, stage_of. intros H S0.
  change (option_map snd (find (fun w => fst w =? i) (workers s)))
    with (stage_in i (workers s)) in H.
  destruct (stage_in i (workers s)) as [[|k acc|]|] eqn:E; try discriminate.
  inversion H; subst. unfold wait_if_paused.
  destruct (isPaused s && negb (aborted s)).
  - eapply sound_restage; eauto. exact I.
  - now apply sound_audit_item.
Qed.

Lemma sound_settled N i s s' :
  limiter_steps (RateLimiter.LSettle i) s = Some s' -> sound N s -> sound N s'.
Proof.
  unfold limiter_steps, stage_of. intros H S0.
  change (option_map snd (find (fun w => fst w =? i) (workers s)))
    with (stage_in i (workers s)) in H.
  destruct (stage_in i (workers s)) as [[|k acc|]|] eqn:E; try discriminate.
  destruct (RateLimiter.exec (RateLimiter.LSettle i) (limiter s)) as [rl|] eqn:X;
    [|discriminate].
  inversion H; subst; clear H. pose proof S0 as [].
  destruct (settle_effect _ _ _ X) as ([] & K & O & P).
  destruct (worker_in_range _ _ _ _ S0 E) as [Hc _].
  assert (ND : NoDup (i :: RateLimiter.running rl)).
  { eapply Permutation_NoDup; [exact P|]. apply (g_nodup _ _ _ s_good0). }
  inversion ND; subst.
  constructor; simpl.
  - eapply good_exec; eauto.
  - eapply calm_exec; eauto. reflexivity.
  - eapply outcome_exec; eauto. reflexivity.
  - congruence.
  - now apply nodup_drop.
  - intros j. rewrite in_drop, s_workers0. split.
    + intros [Hj Hin]. apply (Permutation_in _ P) in Hin. destruct Hin; congruence.
    + intros Hin. split; [intros ->; tauto|].
      apply (Permutation_in _ (Permutation_sym P)). now right.
  - pose proof (pending_drop i (workers s) s_nodup0) as Y.
    rewrite E in Y. simpl in Y. lia.
  - intros j. unfold expected; simpl. rewrite K.
    change (count_progress j Start _) with (count_progress j Start s).
    change (count_progress j End _) with (count_progress j End s).
    rewrite s_progress0. unfold expected.
    destruct (Nat.eq_dec j i) as [->|Hj].
    + rewrite stage_in_drop_same, E.
      apply Nat.ltb_lt in Hc. now rewrite Hc.
    + now rewrite stage_in_drop_other.
  - exact s_last0.
  - exact s_wf0.
  - now apply stage_ok_drop.
Qed.

Lemma sound_idle N l s s' :
  idle l = true -> limiter_steps l s = Some s' ->
  sound N s -> sound N s'.
Proof.
  intros Hl H S0.
  assert (X : match RateLimiter.exec l (limiter s) with
              | Some rl =>
                  Some (match RateLimiter.claims l (limiter s) with
                        | Some i => processUrl i
                                      (startAudit_continues
                                         (RateLimiter.outcome (limiter s))
                                         (set_limiter rl s))
                        | None => startAudit_continues
                                    (RateLimiter.outcome (limiter s))
                                    (set_limiter rl s)
                        end)
              | None => None
              end = Some s').
  { destruct l; simpl in *; try discriminate; exact H. }
  clear H. destruct (RateLimiter.exec l (limiter s)) as [rl|] eqn:E; [|discriminate].
  inversion X; subst; clear X. pose proof S0 as [].
  assert (NC : RateLimiter.is_cancel l = false) by (destruct l; auto; discriminate).
  pose proof (good_exec _ _ _ _ _ E s_good0) as G.
  pose proof (calm_exec _ _ _ NC E s_calm0) as C.
  pose proof (outcome_exec _ _ _ NC E s_calm0 s_outcome0) as O.
  destruct (exec_effect _ _ _ Hl E) as [[] Eff].
  destruct (RateLimiter.claims l (limiter s)) as [i|].
  - destruct Eff as (Hi & K & R & Oe).
    replace (startAudit_continues (RateLimiter.outcome (limiter s)) (set_limiter rl s))
      with (set_limiter rl s).
    + eapply sound_claim; eauto.
    + unfold startAudit_continues. simpl. rewrite Oe.
      destruct (RateLimiter.outcome (limiter s)); auto; congruence.
  - destruct Eff as (K & R). apply sound_continues.
    apply sound_limiter; auto. intros i. now rewrite R.
Qed.

Lemma sound_call N m s : m <> Cancel -> sound N s -> sound N (call m s).
Proof.
  intros Hm S0. pose proof S0 as [].
  destruct m; try congruence; simpl; apply sound_emit; auto;
    constructor; simpl; auto; destruct s_good0; constructor; auto.
Qed.

Lemma sound_exec N l s s' :
  is_cancel l = false -> exec l s = Some s' -> sound N s -> sound N s'.
Proof.
  destruct l as [l|i|i r|m]; simpl; intros Hc H S0.
  - destruct l; try discriminate.
    + eapply sound_idle; eauto; reflexivity.
    + eapply sound_idle; eauto; reflexivity.
    + eapply sound_settled; eauto.
    + eapply sound_idle; eauto; reflexivity.
  - eapply sound_worker_polls; eauto.
  - eapply sound_response; eauto.
  - inversion H; subst. apply sound_call; auto. intros ->. discriminate.
Qed.

Lemma sound_execs N ls : forall s s',
  AuditEngine.no_cancel ls = true -> execs ls s = Some s' -> sound N s -> sound N s'.
Proof.
  induction ls as [|l r IH]; simpl; intros s s' Hc H S0.
  - now inversion H; subst.
  - apply andb_true_iff in Hc as [Hl Hr]. apply negb_true_iff in Hl.
    destruct (exec l s) as [s1|] eqn:E; [|discriminate].
    eapply IH; eauto using sound_exec.
Qed.

(** ** The start of the run *)

Lemma limiter_set_stage i st s : limiter (set_stage i st s) = limiter s.
Proof. reflexivity. Qed.

Lemma limiter_finish i rs s : limiter (finish i rs s) = limiter s.
Proof. unfold finish. destruct rs; reflexivity. Qed.

Lemma limiter_auditUrl i k acc s : limiter (auditUrl i k acc s) = limiter s.
Proof.
  unfold auditUrl. destruct (nth_error auditors k); [destruct (aborted s)|];
    auto using limiter_finish.
Qed.

Lemma limiter_wait i s : limiter (wait_if_paused i s) = limiter s.
Proof.
  unfold wait_if_paused, audit_item.
  destruct (isPaused s && negb (aborted s)); auto. now rewrite limiter_auditUrl.
Qed.

Lemma limiter_processUrl i s : limiter (processUrl i s) = limiter s.
Proof. unfold processUrl. destruct (aborted s); auto using limiter_wait. Qed.

Lemma sound_call_processNext N s : sound N s -> sound N (call_processNext s).
Proof.
  intros S0. pose proof S0 as []. unfold call_processNext.
  pose proof (processNext_effect (limiter s)) as [[] Eff].
  pose proof (good_processNext _ _ _ s_good0) as G.
  pose proof (calm_processNext _ s_calm0) as C.
  pose proof (outcome_processNext _ s_calm0 s_outcome0) as O.
  destruct (RateLimiter.processNext (limiter s)) as [rl [i|]]; simpl in *.
  - destruct Eff as (Hi & K & R & Oe).
    replace (startAudit_continues (RateLimiter.outcome (limiter s)) (set_limiter rl s))
      with (set_limiter rl s).
    + eapply sound_claim; eauto.
    + unfold startAudit_continues. simpl. rewrite Oe.
      destruct (RateLimiter.outcome (limiter s)); auto; congruence.
  - destruct Eff as (K & R). apply sound_continues.
    apply sound_limiter; auto. intros i. now rewrite R.
Qed.

Lemma limiter_call_processNext s :
  limiter (call_processNext s) = fst (RateLimiter.processNext (limiter s)).
Proof.
  unfold call_processNext.
  destruct (RateLimiter.processNext (limiter s)) as [rl [i|]]; simpl;
    rewrite ?limiter_processUrl, limiter_continues; reflexivity.
Qed.

Lemma limiter_initial_batch k : forall s,
  limiter (initial_batch k s) = RateLimiter.call_processNext k (limiter s).
Proof.
  induction k; simpl; intros s; auto. now rewrite IHk, limiter_call_processNext.
Qed.

Lemma sound_initial_batch N k : forall s, sound N s -> sound N (initial_batch k s).
Proof. induction k; simpl; auto using sound_call_processNext. Qed.

Lemma urls_call_processNext s : urls (call_processNext s) = urls s.
Proof.
  unfold call_processNext.
  destruct (RateLimiter.processNext (limiter s)) as [rl [i|]]; simpl.
  - unfold processUrl, wait_if_paused, audit_item, auditUrl, finish,
      startAudit_continues.
    repeat match goal with
           | |- context [if ?c then _ else _] => destruct c
           | |- context [match ?c with _ => _ end] => destruct c
           end; reflexivity.
  - unfold startAudit_continues.
    repeat match goal with
           | |- context [if ?c then _ else _] => destruct c
           | |- context [match ?c with _ => _ end] => destruct c
           end; reflexivity.
Qed.

Lemma limiter_startAudit N d us :
  limiter (startAudit N d us) = RateLimiter.processItems N d false false (List.length us).
Proof. unfold startAudit. now rewrite limiter_initial_batch. Qed.

Lemma sound_startAudit N d us : (0 <= N)%Z -> sound N (startAudit N d us).
Proof.
  intros HN. unfold startAudit. apply sound_initial_batch.
  constructor; simpl; auto.
  - constructor; simpl; auto; try lia; constructor.
  - split; reflexivity.
  - discriminate.
  - constructor.
  - intros i. unfold RateLimiter.running. simpl. tauto.
Qed.

Lemma urls_exec l s s' : exec l s = Some s' -> urls s' = urls s.
Proof.
  destruct l as [l|i|i r|m]; simpl.
  - unfold limiter_steps, stage_of.
    destruct l; try discriminate;
      repeat match goal with
             | |- context [match ?c with _ => _ end] => destruct c; try discriminate
             end;
      intros H; inversion H; subst; clear H; simpl;
      unfold processUrl, wait_if_paused, audit_item, auditUrl, finish,
        startAudit_continues;
      repeat match goal with
             | |- context [if ?c then _ else _] => destruct c
             | |- context [match ?c with _ => _ end] => destruct c
             end; reflexivity.
  - unfold worker_polls. destruct (stage_of i s) as [[]|]; try discriminate.
    intros H; inversion H; subst.
    unfold wait_if_paused, audit_item, auditUrl, finish.
    repeat match goal with
           | |- context [if ?c then _ else _] => destruct c
           | |- context [match ?c with _ => _ end] => destruct c
           end; reflexivity.
  - unfold response_arrives. destruct (stage_of i s) as [[]|]; try discriminate.
    destruct (nth_error auditors k); try discriminate.
    intros H; inversion H; subst.
    unfold auditUrl, finish.
    repeat match goal with
           | |- context [if ?c then _ else _] => destruct c
           | |- context [match ?c with _ => _ end] => destruct c
           end; reflexivity.
  - intros H; inversion H; subst. destruct m; reflexivity.
Qed.

Lemma urls_execs ls : forall s s', execs ls s = Some s' -> urls s' = urls s.
Proof.
  induction ls as [|l r IH]; simpl; intros s s' H.
  - now inversion H.
  - destruct (exec l s) as [s1|] eqn:E; [|discriminate].
    rewrite (IH _ _ H). eapply urls_exec; eauto.
Qed.

Lemma urls_startAudit N d us : urls (startAudit N d us) = us.
Proof.
  unfold startAudit.
  generalize (RateLimiter.initial_batch
                (RateLimiter.fresh N d false false (List.length us))) as k.
  intros k.
  assert (H : forall k s, urls (initial_batch k s) = urls s).
  { clear. induction k; simpl; intros; auto. now rewrite IHk, urls_call_processNext. }
  now rewrite H.
Qed.

(** ** The limiter inside the engine runs as on its own *)

Lemma limiter_claimed (o : option nat) s :
  limiter (match o with Some i => processUrl i s | None => s end) = limiter s.
Proof. destruct o; auto using limiter_processUrl. Qed.

Lemma limiter_exec l s s' :
  is_cancel l = false -> exec l s = Some s' ->
  limiter s' = limiter s \/
  exists l', RateLimiter.is_cancel l' = false /\
             RateLimiter.exec l' (limiter s) = Some (limiter s').
Proof.
  destruct l as [l|i|i r|m]; simpl; intros Hc H.
  - right. exists l. unfold limiter_steps in H.
    destruct l; try discriminate; split; auto.
    + destruct (RateLimiter.exec RateLimiter.LTimer (limiter s)); [|discriminate].
      inversion H; subst.
      rewrite ?limiter_claimed, limiter_continues; reflexivity.
    + destruct (RateLimiter.exec RateLimiter.LPoll (limiter s)); [|discriminate].
      inversion H; subst.
      rewrite ?limiter_claimed, limiter_continues; reflexivity.
    + destruct (stage_of item s) as [[]|]; try discriminate.
      destruct (RateLimiter.exec (RateLimiter.LSettle item) (limiter s)); [|discriminate].
      inversion H; subst. reflexivity.
    + destruct (RateLimiter.exec RateLimiter.LDelay (limiter s)); [|discriminate].
      inversion H; subst.
      rewrite ?limiter_claimed, limiter_continues; reflexivity.
  - left. unfold worker_polls in H. destruct (stage_of i s) as [[]|]; try discriminate.
    inversion H; subst. apply limiter_wait.
  - left. unfold response_arrives in H.
    destruct (stage_of i s) as [[]|]; try discriminate.
    destruct (nth_error auditors k); try discriminate.
    inversion H; subst. apply limiter_auditUrl.
  - inversion H; subst. destruct m; try discriminate.
    + right. exists RateLimiter.LPause. split; reflexivity.
    + right. exists RateLimiter.LResume. split; reflexivity.
Qed.

Lemma quiet_exec_engine N l s s' :
  (1 <= N)%Z -> is_cancel l = false -> exec l s = Some s' ->
  sound N s -> quiet (limiter s) -> quiet (limiter s').
Proof.
  intros HN Hc H S0 Q.
  destruct (limiter_exec _ _ _ Hc H) as [->|(l' & Hl & E)]; auto.
  eapply quiet_exec; eauto using s_good, s_calm.
Qed.

Lemma quiet_execs_engine N ls : forall s s',
  (1 <= N)%Z -> AuditEngine.no_cancel ls = true -> execs ls s = Some s' ->
  sound N s -> quiet (limiter s) -> quiet (limiter s').
Proof.
  induction ls as [|l r IH]; simpl; intros s s' HN Hc H S0 Q.
  - now inversion H; subst.
  - apply andb_true_iff in Hc as [Hl Hr]. apply negb_true_iff in Hl.
    destruct (exec l s) as [s1|] eqn:E; [|discriminate].
    eapply (IH s1); eauto using sound_exec, quiet_exec_engine.
Qed.

(** ** Progress and termination *)






Lemma workers_continues b s : workers (startAudit_continues b s) = workers s.
Proof.
  unfold startAudit_continues.
  destruct b, (RateLimiter.outcome (limiter s)); auto.
Qed.






Lemma can_advance_engine N s :
  sound N s -> ~ quiescent s -> isPaused s = false ->
  exists l s', advances l s = true /\ exec l s = Some s'.
Proof.
  intros S0 Hq Hp. pose proof S0 as [].
  destruct (workers s) as [|[i st] ws] eqn:Ew.
  - assert (Hr : RateLimiter.running (limiter s) = []).
    { destruct (RateLimiter.running (limiter s)) as [|j r] eqn:Er; auto.
      exfalso. apply (proj2 (s_workers0 j)). now left. }
    assert (Ht : RateLimiter.tasks (limiter s) <> []).
    { intros Ht. apply Hq. split; auto. }
    destruct (idle_enabled _ Ht Hr) as (l & rl & Hl & E & A).
    exists (Limiter l). simpl. unfold limiter_steps. rewrite E.
    rewrite <- s_paused0 in A. specialize (A Hp).
    destruct l; try discriminate; eauto.
  - assert (Hs : stage_of i s = Some st).
    { unfold stage_of. rewrite Ew. simpl. now rewrite Nat.eqb_refl. }
    destruct st as [|k acc|].
    + exists (WorkerPoll i). simpl. unfold worker_polls. rewrite Hs, Hp. simpl. eauto.
    + assert (Hk : nth_error auditors k <> None).
      { inversion s_stage0; subst. assumption. }
      exists (Response i AbortError). simpl. unfold response_arrives. rewrite Hs.
      destruct (nth_error auditors k); [eauto|congruence].
    + assert (Hin : In i (RateLimiter.running (limiter s))).
      { apply s_workers0. now left. }
      destruct (settle_enabled _ _ Hin) as [rl E].
      exists (Limiter (RateLimiter.LSettle i)). eexists. split; [reflexivity|].
      cbn [exec limiter_steps]. rewrite Hs, E. reflexivity.
Qed.

End AuditEngineFacts.

(** * Claims on the scheduler *)
Module RateLimiterClaims.
Import RateLimiter RateLimiterSpec RateLimiterFacts.
Local Open Scope Z_scope.

(** C1. With concurrency N between 1 and 10 and at least N items, in every
    state that a run of processItems can reach (whatever the processor does,
    and under any pausing, resuming or cancelling) the number of processor
    calls in flight equals activeRequests and is at most N. *)
Theorem C1_concurrency_bound :
  forall (N delay : Z) (paused sig : bool) (n : nat) (ls : list label) (s : state),
    1 <= N <= 10 -> N <= Z.of_nat n ->
    execs ls (processItems N delay paused sig n) = Some s ->
    activeRequests s = Z.of_nat (List.length (running s)) /\
    Z.of_nat (List.length (running s)) <= N /\
    maxConcurrent s = N.
Proof.
  intros N delay paused sig n ls s HN _ H.
  assert (G : good N n s).
  { eapply good_execs; eauto. apply good_processItems. lia. }
  destruct G. repeat split; auto. now rewrite <- g_active0.
Qed.

Lemma C1_concurrency_bound_witness :
  exists s, execs [LSettle 1%nat; LTimer; LSettle 0%nat]
                  (processItems 2 0 false false 3) = Some s /\
            activeRequests s = Z.of_nat (List.length (running s)) /\
            Z.of_nat (List.length (running s)) <= 2 /\ maxConcurrent s = 2.
Proof.
  eexists. split; [vm_compute; reflexivity|].
  exact (C1_concurrency_bound 2 0 false false 3
           [LSettle 1%nat; LTimer; LSettle 0%nat] _
           ltac:(lia) ltac:(simpl; lia) ltac:(vm_compute; reflexivity)).
Defined.

(** C2. In a run of processItems that is never cancelled, the processor
    calls made so far are exactly the first [completed] items, each once
    and in index order; no item is in flight twice; once no invocation of
    processNext is suspended any more every item of the list has been
    handed to the processor; until then an unpaused run can advance, and no
    run advances more than 5 * items.length times. *)
Theorem C2_each_item_once_in_order :
  forall (T : Type) (items : list T) (N delay : Z) (paused : bool)
         (ls : list label) (s : state),
    1 <= N ->
    no_cancel ls = true ->
    execs ls (processItems N delay paused false (List.length items)) = Some s ->
    dispatched s = seq 0 (completed s) /\
    map (nth_error items) (dispatched s) = map Some (firstn (completed s) items) /\
    NoDup (running s) /\
    (tasks s = [] -> map (nth_error items) (dispatched s) = map Some items) /\
    (tasks s <> [] -> isPaused s = false ->
       exists l s', advances l s = true /\ exec l s = Some s') /\
    (advancing_steps ls (processItems N delay paused false (List.length items))
       <= 5 * List.length items)%nat.
Proof.
  intros T items N delay paused ls s HN Hc H.
  set (s0 := processItems N delay paused false (List.length items)) in *.
  assert (G0 : good N (List.length items) s0) by (apply good_processItems; lia).
  assert (G : good N (List.length items) s) by (eapply good_execs; eauto).
  destruct (calm_quiet_execs N _ ls s0 s HN Hc H G0
              (calm_processItems _ _ _ _) (quiet_processItems _ _ _ _ HN)) as [C Q].
  assert (L : items_length s = List.length items) by apply (g_len _ _ _ G).
  pose proof (g_disp _ _ _ G) as D. pose proof (g_le _ _ _ G) as Le.
  assert (P : map (nth_error items) (dispatched s)
              = map Some (firstn (completed s) items)).
  { rewrite D, dispatched_prefix.
    replace (completed s - List.length items)%nat with 0%nat by lia.
    apply app_nil_r. }
  repeat split.
  - exact D.
  - exact P.
  - apply (g_nodup _ _ _ G).
  - intros Ht. rewrite P. f_equal. apply firstn_all2. specialize (Q Ht). lia.
  - apply can_advance.
  - etransitivity; [apply advancing_steps_bounded|]. apply mu_processItems.
Qed.

Lemma C2_each_item_once_in_order_witness :
  exists s, execs [LSettle 0%nat; LTimer; LSettle 1%nat; LTimer;
                   LSettle 2%nat; LTimer]
                  (processItems 2 0 false false 3) = Some s /\
            tasks s = [] /\ dispatched s = [0; 1; 2]%nat /\
            map (nth_error [true; false; true]) (dispatched s)
              = map Some [true; false; true].
Proof.
  eexists. split; [vm_compute; reflexivity|].
  split; [reflexivity|]. split; [reflexivity|].
  pose proof (C2_each_item_once_in_order bool [true; false; true] 2 0 false
    [LSettle 0%nat; LTimer; LSettle 1%nat; LTimer; LSettle 2%nat; LTimer] _
    ltac:(lia) ltac:(vm_compute; reflexivity) ltac:(vm_compute; reflexivity))
    as (_ & _ & _ & Hq & _).
  exact (Hq eq_refl).
Defined.

(** C3 (evaluation).  Two items, concurrency 2: both are claimed by the
    initial batch; when the first worker settles, the next processNext finds
    completed >= items.length and resolves the promise while the worker of
    item 1 is still in flight. *)
Lemma C3_resolves_with_worker_in_flight :
  exists s, execs [LSettle 0%nat; LTimer] (processItems 2 0 false false 2) = Some s /\
            no_cancel [LSettle 0%nat; LTimer] = true /\
            outcome s = Resolved /\ running s = [1%nat] /\ activeRequests s = 1.
Proof. eexists. split; [vm_compute; reflexivity|]. repeat split. Qed.

End RateLimiterClaims.

(** * Claims on the auditors *)
Module AuditorClaims.
Import JS DOM Auditors AuditorSpec AuditorFacts.
Local Open Scope nat_scope.

(** C10. Whatever the auditor, the URL, the readings of the signal and the
    outcome of the request, the promise of audit is fulfilled, never
    rejected; when the body of its try block throws, when the request or
    the parse fails, or when some read of the signal shows it aborted, the
    result is the empty list. *)
Theorem C10_audit_never_rejects :
  forall (a : auditor) (url : string) (sig : Signal) (r : response),
    exists rs,
      audit a url sig r = Normal rs /\
      (forall e n, audit_body a url r sig 0 = (Throw e, n) -> rs = []) /\
      (failed r = true -> rs = []) /\
      (forall c n, audit_body a url r sig 0 = (c, n) ->
                   (exists j, j < n /\ sig j = true) -> rs = []).
Proof.
  intros a url sig r. unfold audit, try_catch.
  destruct (audit_body a url r sig 0) as [[rs|e] n] eqn:E; simpl.
  - exists rs. split; [reflexivity|]. split; [intros ? ? X; discriminate X|]. split.
    + intros Hf. exfalso.
      destruct (body_starts a url r) as [rest B]. rewrite B in E.
      destruct (failed_throws url r Hf) as [e He]. rewrite He in E.
      unfold bind, checkAbortSignal, signal_aborted, lift, bind, throw, ret in E.
      destruct (sig 0); discriminate.
    + intros c n' H (j & Hj & Sj). inversion H; subst.
      destruct (aware_audit_body a url r _ _ _ _ E) as [_ T].
      destruct T as [e He]; [|discriminate]. exists j. split; auto. lia.
  - exists []. repeat split; auto.
Qed.

(** C9. The heading auditor returns at most one finding, and one only if
    some adjacent pair of the h1-h6 level sequence of the document goes up
    by more than one level; when the signal is not aborted it returns the
    finding exactly in that case, with the whole sequence in its details.
    The sequence 1, 2, 3 and the sequence 2, 1, 2 give no finding; 1, 3
    gives one heading-hierarchy finding whose details contain 1, 3. *)
Theorem C9_heading_hierarchy :
  (forall url d sig,
     Forall (fun k => 1 <= k <= 6) (heading_levels d) /\
     exists rs, audit HeadingAuditor url sig (Fetched d) = Normal rs /\
                (rs = [] \/ rs = [heading_issue url (heading_levels d)]) /\
                (rs <> [] -> has_skip (heading_levels d))) /\
  (forall url d,
     (has_skip (heading_levels d) ->
      audit HeadingAuditor url never_aborted (Fetched d)
      = Normal [heading_issue url (heading_levels d)]) /\
     (~ has_skip (heading_levels d) ->
      audit HeadingAuditor url never_aborted (Fetched d) = Normal [])) /\
  (forall url,
     heading_levels (page [1; 2; 3]) = [1; 2; 3] /\
     audit HeadingAuditor url never_aborted (Fetched (page [1; 2; 3])) = Normal [] /\
     heading_levels (page [2; 1; 2]) = [2; 1; 2] /\
     audit HeadingAuditor url never_aborted (Fetched (page [2; 1; 2])) = Normal [] /\
     heading_levels (page [1; 3]) = [1; 3] /\
     exists r, audit HeadingAuditor url never_aborted (Fetched (page [1; 3])) = Normal [r]
               /\ type r = HEADING_HIERARCHY /\ fullUrl r = url
               /\ details r = "Improper heading sequence: 1, 3"%string
               /\ includes (details r) "1, 3" = true).
Proof.
  split; [|split].
  - intros url d sig. split; [apply levels_in_range|].
    eexists. split; [apply heading_audit|].
    destruct (sig 0); [split; [now left|congruence]|].
    destruct (heading_levels d) as [|a l] eqn:E; [split; [now left|congruence]|].
    destruct (sig 1); [split; [now left|congruence]|].
    destruct (valid_from (Some a) (map Some l)) eqn:V; [split; [now left|congruence]|].
    split; [now right|]. intros _. now apply valid_from_skip.
  - intros url d. rewrite heading_audit. unfold never_aborted.
    destruct (heading_levels d) as [|a l] eqn:E.
    + split; auto. intros H. now apply no_skip_nil in H.
    + split.
      * intros H. apply valid_from_skip in H. now rewrite H.
      * intros H. destruct (valid_from (Some a) (map Some l)) eqn:V; auto.
        exfalso. apply H. now apply valid_from_skip.
  - intros url. rewrite !heading_audit. unfold never_aborted.
    repeat split; try reflexivity.
    eexists. split; [reflexivity|]. repeat split; reflexivity.
Qed.

End AuditorClaims.

(** * Claims on the orchestrator *)
Module AuditEngineClaims.
Import JS DOM Auditors AuditEngine.
Import RateLimiterSpec RateLimiterFacts AuditEngineSpec AuditEngineFacts.
Import AuditorSpec AuditorFacts Scenario.
Import AuditEngine.
Local Open Scope nat_scope.

(** C4 (evaluation).  Two URLs, concurrency 1; cancel() is called while the
    first URL is being audited.  Its request is aborted, the worker ends,
    and the next processNext rejects the promise of processItems with a
    plain Error: startAudit reports it through onError with url system. *)
Lemma C4_cancel_reported_as_system_error :
  exists s,
    execs [Call Cancel; Response 0 AbortError;
           Limiter (RateLimiter.LSettle 0); Limiter RateLimiter.LTimer]
          (startAudit 1 0 two_urls) = Some s /\
    In (OnError "system" "Processing cancelled") (after_cancel (log s)) /\
    option_map (fun x => AuditContext.progressErrors (AuditContext.progress x))
      (AuditContext.currentSession (AuditContext.observe two_urls (log s)))
    = Some [AuditContext.mkAuditError "system" "Processing cancelled"].
Proof.
  eexists. split; [vm_compute; reflexivity|]. split; [|vm_compute; reflexivity].
  vm_compute. right. left. reflexivity.
Qed.

(** C5 (evaluation).  Two URLs, concurrency 1; the image auditor has
    returned its finding for the first URL when cancel() is called during
    the request of the link auditor.  That request is aborted, auditUrl
    breaks, and processUrl still calls onResults and onProgress. *)
Lemma C5_events_after_cancel :
  exists s,
    execs [Response 0 (Fetched a_test_page); Call Cancel; Response 0 AbortError]
          (startAudit 1 0 two_urls) = Some s /\
    after_cancel (log s)
    = [OnResults [image_finding]; OnProgress 0 End "https://b.test" 1 2] /\
    option_map (fun x => (AuditContext.progressStatus (AuditContext.progress x),
                          AuditContext.completedCount (AuditContext.progress x),
                          AuditContext.total (AuditContext.progress x)))
      (AuditContext.currentSession (AuditContext.observe two_urls (log s)))
    = Some (AuditContext.cancelled, 1, 2).
Proof. eexists. split; [vm_compute; reflexivity|]. repeat split; vm_compute; reflexivity. Qed.

(** C8 (evaluation).  The run over https://a.test with the page of the
    scenario: one finding for the image, with targetUrl /x.jpg and an empty
    imageFilename (new URL of a relative reference throws, and
    extractFilename returns the empty string), one finding for the link;
    the run completes with 1 of 1 and no error. *)
Lemma C8_relative_src_has_empty_filename :
  exists s,
    execs (six 0 (Fetched a_test_page)
           ++ [Limiter (RateLimiter.LSettle 0); Limiter RateLimiter.LTimer])
          (startAudit 3 1000 a_test) = Some s /\
    log s = [OnProgress 0 Start "https://a.test" 0 1;
             OnResults [image_finding; link_finding];
             OnProgress 0 End EmptyString 1 1;
             OnComplete] /\
    imageFilename image_finding = EmptyString /\
    extractFilename "/x.jpg" = EmptyString /\
    option_map (fun x => (AuditContext.results x,
                          AuditContext.progressStatus (AuditContext.progress x),
                          AuditContext.completedCount (AuditContext.progress x),
                          AuditContext.progressErrors (AuditContext.progress x)))
      (AuditContext.currentSession (AuditContext.observe a_test (log s)))
    = Some ([image_finding; link_finding], AuditContext.completed, 1, []).
Proof. eexists. split; [vm_compute; reflexivity|]. repeat split; vm_compute; reflexivity. Qed.

(** ** Runs of the engine that are never cancelled *)

Lemma sound_run N delay urls ls s :
  (1 <= N)%Z -> AuditEngine.no_cancel ls = true ->
  execs ls (startAudit N delay urls) = Some s ->
  sound N s /\ quiet (limiter s) /\ AuditEngine.urls s = urls.
Proof.
  intros HN Hc H.
  assert (S0 : sound N (startAudit N delay urls)) by (apply sound_startAudit; lia).
  split; [eapply sound_execs; eauto|]. split.
  - eapply quiet_execs_engine; eauto.
    rewrite limiter_startAudit. now apply quiet_processItems.
  - rewrite (urls_execs _ _ _ H). apply urls_startAudit.
Qed.


Lemma quiescent_counts N s i :
  sound N s -> quiet (limiter s) -> quiescent s -> i < List.length (AuditEngine.urls s) ->
  count_progress i Start s = 1 /\ count_progress i End s = 1.
Proof.
  intros S0 Q [Ht Hw] Hi. pose proof (s_progress _ _ S0 i) as H. unfold expected in H.
  rewrite Hw in H. simpl in H.
  pose proof (g_len _ _ _ (s_good _ _ S0)). specialize (Q Ht).
  replace (i <? RateLimiter.completed (limiter s)) with true in H
    by (symmetry; apply Nat.ltb_lt; lia).
  injection H as -> ->. auto.
Qed.




Lemma no_error_event N s u e : sound N s -> ~ In (OnError u e) (log s).
Proof.
  intros S0 Hin. pose proof (s_wf _ _ S0) as F. rewrite Forall_forall in F.
  exact (F _ Hin).
Qed.

Lemma next_auditor_is_asked N s i k acc r :
  sound N s -> stage_of i s = Some (Auditing k acc) ->
  nth_error auditors (S k) <> None ->
  exists acc',
    exec (Response i r) s = Some (set_stage i (Auditing (S k) acc') s) /\
    (failed r = true -> acc' = acc).
Proof.
  intros S0 Hs Hk.
  assert (Ha : exists a, nth_error auditors k = Some a).
  { destruct (nth_error auditors k) eqn:E; eauto.
    apply nth_error_None in E. exfalso. apply Hk. apply nth_error_None. lia. }
  destruct Ha as [a Ha].
  destruct (audit_is_fulfilled a (url i s) (signal s) r) as (rs & Hrs & Hf & _).
  exists (acc ++ rs)%list. split.
  - simpl. unfold response_arrives. rewrite Hs, Ha, Hrs. unfold auditUrl.
    destruct (nth_error auditors (S k)); [|congruence].
    now rewrite (aborted_false _ (s_calm _ _ S0)).
  - intros F. rewrite (Hf F). apply app_nil_r.
Qed.

(** C6 (counterexample).  One URL whose six requests all fail: the run
    ends with the two progress events and the completion, and no error
    event for the URL. *)
Lemma C6_failed_fetch_is_not_reported : ~ fetch_failure_reported.
Proof.
  intros H.
  destruct (H 3%Z 1000%Z a_test
              (six 0 (Failure "Network error")
               ++ [Limiter (RateLimiter.LSettle 0); Limiter RateLimiter.LTimer])
              _ 0 (Failure "Network error") ltac:(lia)
              ltac:(vm_compute; reflexivity))
    as [e He].
  - left. reflexivity.
  - reflexivity.
  - split; vm_compute; reflexivity.
  - vm_compute in He. destruct He as [X|[X|[X|[]]]]; discriminate X.
Qed.

(** C6 (amended).  In a run that is never cancelled, with concurrency
    between 1 and 10: an auditor whose request fails, or whose body throws,
    returns the empty list; no error event is emitted, whatever the requests come to; after
    any outcome of the request of an auditor the next auditor of the rule
    set is asked for the same URL, and a failed request leaves the findings
    collected so far unchanged; once nothing is suspended any more every
    URL has its end event, and until then an unpaused run can advance. *)
Theorem C6_failures_stay_inside_the_auditor :
  forall (N delay : Z) (urls : list string) (ls : list label) (s : state),
    (1 <= N <= 10)%Z -> AuditEngine.no_cancel ls = true ->
    execs ls (startAudit N delay urls) = Some s ->
    (forall a u sig r, failed r = true -> audit a u sig r = Normal []) /\
    (forall a u sig r e n,
       audit_body a u r sig 0 = (Throw e, n) -> audit a u sig r = Normal []) /\
    (forall u e, ~ In (OnError u e) (log s)) /\
    (forall i k acc r,
       stage_of i s = Some (Auditing k acc) -> nth_error auditors (S k) <> None ->
       exists acc',
         exec (Response i r) s = Some (set_stage i (Auditing (S k) acc') s) /\
         (failed r = true -> acc' = acc)) /\
    (quiescent s -> forall i, i < List.length urls -> count_progress i End s = 1) /\
    (~ quiescent s -> isPaused s = false ->
       exists l s', advances l s = true /\ exec l s = Some s').
Proof.
  intros N delay urls ls s HN Hc H.
  destruct (sound_run N delay urls ls s) as (S0 & Q & U); auto; try lia.
  split; [|split; [|split; [|split; [|split]]]].
  - intros a u sig r F.
    destruct (audit_is_fulfilled a u sig r) as (rs & Hrs & Hf & _).
    now rewrite Hrs, (Hf F).
  - intros a u sig r e n F.
    destruct (audit_is_fulfilled a u sig r) as (rs & Hrs & _ & Ht).
    now rewrite Hrs, (Ht e n F).
  - intros u e. eapply no_error_event; eauto.
  - intros i k acc r. eapply next_auditor_is_asked; eauto.
  - intros Hq i Hi. rewrite <- U in Hi. apply (quiescent_counts N s i S0 Q Hq Hi).
  - intros Hq Hp. eapply can_advance_engine; eauto.
Qed.

Lemma C6_failures_stay_inside_the_auditor_witness :
  exists s,
    execs (six 0 (Failure "Network error")
           ++ [Limiter (RateLimiter.LSettle 0); Limiter RateLimiter.LTimer])
          (startAudit 3 1000 a_test) = Some s /\
    (forall u e, ~ In (OnError u e) (log s)) /\
    count_progress 0 End s = 1.
Proof.
  eexists. split; [vm_compute; reflexivity|].
  pose proof (C6_failures_stay_inside_the_auditor 3 1000 a_test
    (six 0 (Failure "Network error")
     ++ [Limiter (RateLimiter.LSettle 0); Limiter RateLimiter.LTimer])
    _ ltac:(lia) eq_refl ltac:(vm_compute; reflexivity))
    as (_ & _ & He & _ & Hq & _).
  split; [exact He|].
  apply Hq; [split; vm_compute; reflexivity|simpl; lia].
Defined.

End AuditEngineClaims.

(** * Facts about the string operations *)
Module StringFacts.
Import JS StringSpec.
Local Open Scope string_scope.

Lemma append_nil_r (s : string) : s ++ EmptyString = s.
Proof. induction s; simpl; congruence. Qed.

Lemma append_assoc (a b c : string) : (a ++ b) ++ c = a ++ (b ++ c).
Proof. induction a; simpl; congruence. Qed.

Lemma rev_onto_app (s acc : string) : rev_onto s acc = reverse s ++ acc.
Proof.
  unfold reverse. revert acc. induction s as [|c s IH]; intros acc; simpl; auto.
  rewrite IH, (IH (String c EmptyString)), append_assoc. reflexivity.
Qed.

Lemma reverse_cons (c : ascii) (s : string) :
  reverse (String c s) = reverse s ++ String c EmptyString.
Proof. unfold reverse at 1. simpl. apply rev_onto_app. Qed.

Lemma reverse_app (a b : string) : reverse (a ++ b) = reverse b ++ reverse a.
Proof.
  induction a as [|c a IH]; simpl.
  - rewrite append_nil_r. reflexivity.
  - rewrite !reverse_cons, IH, append_assoc. reflexivity.
Qed.

Lemma reverse_involutive (s : string) : reverse (reverse s) = s.
Proof.
  induction s as [|c s IH]; auto.
  rewrite reverse_cons, reverse_app, IH. reflexivity.
Qed.

Lemma reverse_empty (s : string) : reverse s = EmptyString -> s = EmptyString.
Proof. intros H. rewrite <- (reverse_involutive s), H. reflexivity. Qed.

(** ** trim *)

Lemma trimStart_app_nonspace (a : string) (c : ascii) (b : string) :
  is_space c = false ->
  trimStart (a ++ String c b) = trimStart a ++ String c b.
Proof.
  intros H. induction a as [|x a IH]; simpl.
  - rewrite H. reflexivity.
  - destruct (is_space x); auto.
Qed.

Lemma trimStart_all_space (a : string) :
  trimStart a = EmptyString ->
  forall b, trimStart (a ++ b) = trimStart b.
Proof.
  induction a as [|x a IH]; simpl; intros H b; auto.
  destruct (is_space x); [auto|discriminate].
Qed.

(** [trimEnd] read from the left. *)
Lemma trimEnd_cons (c : ascii) (s : string) :
  trimEnd (String c s) =
  match trimEnd s with
  | EmptyString => if is_space c then EmptyString else String c EmptyString
  | t => String c t
  end.
Proof.
  unfold trimEnd. rewrite reverse_cons.
  destruct (trimStart (reverse s)) as [|d t] eqn:E.
  - rewrite (trimStart_all_space _ E). simpl.
    destruct (is_space c); reflexivity.
  - assert (Hd : is_space d = false).
    { clear - E. induction (reverse s) as [|x r IH]; simpl in E; [discriminate|].
      destruct (is_space x) eqn:Ex; auto. inversion E; subst. exact Ex. }
    assert (E' : trimStart (reverse s ++ String c EmptyString)
                 = String d t ++ String c EmptyString).
    { clear - E Hd. induction (reverse s) as [|x r IH]; simpl in *; [discriminate|].
      destruct (is_space x) eqn:Ex; auto. inversion E; subst. reflexivity. }
    rewrite E'. rewrite reverse_app.
    change (reverse (String c EmptyString)) with (String c EmptyString).
    destruct (reverse (String d t)) eqn:R.
    + apply reverse_empty in R. discriminate.
    + reflexivity.
Qed.

Lemma trimEnd_empty : trimEnd EmptyString = EmptyString.
Proof. reflexivity. Qed.



Lemma trimEnd_first (s : string) (c : ascii) (r : string) :
  s = String c r -> is_space c = false ->
  exists r', trimEnd s = String c r'.
Proof.
  intros -> H. rewrite trimEnd_cons.
  destruct (trimEnd r); rewrite ?H; eauto.
Qed.








(** ** startsWith and includes *)

Lemma startsWith_refl (s r : string) : startsWith (s ++ r) s = true.
Proof.
  induction s as [|c s IH]; cbn [startsWith append].
  - destruct r; reflexivity.
  - rewrite Ascii.eqb_refl. exact IH.
Qed.

Lemma startsWith_nil (s : string) : startsWith s EmptyString = true.
Proof. destruct s; reflexivity. Qed.

Lemma startsWith_app (s p q : string) :
  startsWith s (p ++ q) = true -> startsWith s p = true.
Proof.
  revert s. induction p as [|c p IH]; intros s H; [apply startsWith_nil|].
  destruct s as [|d s]; [discriminate|]. cbn [startsWith append] in *.
  apply andb_prop in H as [H1 H2]. rewrite H1. cbn [andb]. eauto.
Qed.

Lemma startsWith_decompose (s p : string) :
  startsWith s p = true <-> exists r, s = p ++ r.
Proof.
  split.
  - revert s. induction p as [|c p IH]; intros s H; [exists s; reflexivity|].
    destruct s as [|d s]; [discriminate|]. cbn [startsWith] in H.
    apply andb_prop in H as [H1 H2]. apply Ascii.eqb_eq in H1. subst.
    destruct (IH _ H2) as [r ->]. exists r. reflexivity.
  - intros [r ->]. apply startsWith_refl.
Qed.

Lemma includes_decompose (s sub : string) :
  includes s sub = true <-> exists a b, s = a ++ sub ++ b.
Proof.
  split.
  - induction s as [|c s IH]; cbn [includes]; intros H.
    + rewrite orb_false_r in H. apply startsWith_decompose in H as [r Hr].
      exists EmptyString, r. exact Hr.
    + apply orb_prop in H as [H|H].
      * apply startsWith_decompose in H as [r Hr]. exists EmptyString, r. exact Hr.
      * destruct (IH H) as (a & b & ->). exists (String c a), b. reflexivity.
  - intros (a & b & ->). induction a as [|c a IH].
    + cbn [append]. destruct (sub ++ b) eqn:E; cbn [includes];
        rewrite <- E, startsWith_refl; reflexivity.
    + cbn [append includes]. rewrite IH. apply orb_true_r.
Qed.


Lemma includes_app_r (a s sub : string) :
  includes s sub = true -> includes (a ++ s) sub = true.
Proof.
  intros H. apply includes_decompose in H as (x & y & ->).
  apply includes_decompose. exists (a ++ x), y. rewrite append_assoc. reflexivity.
Qed.

Lemma includes_cons (c : ascii) (s sub : string) :
  includes (String c s) sub = startsWith (String c s) sub || includes s sub.
Proof. reflexivity. Qed.

(** ** toLowerCase *)

Lemma lower_idempotent (c : ascii) : lower (lower c) = lower c.
Proof.
  destruct c as [[] [] [] [] [] [] [] []]; vm_compute; reflexivity.
Qed.

Lemma toLowerCase_idempotent (s : string) : toLowerCase (toLowerCase s) = toLowerCase s.
Proof.
  unfold toLowerCase. induction s as [|c s IH]; simpl; auto.
  rewrite lower_idempotent, IH. reflexivity.
Qed.

Lemma toLowerCase_app (a b : string) :
  toLowerCase (a ++ b) = toLowerCase a ++ toLowerCase b.
Proof. unfold toLowerCase. induction a as [|c a IH]; simpl; congruence. Qed.

(** ** split and join *)

Lemma has_app (c : ascii) (a b : string) : has c (a ++ b) = has c a || has c b.
Proof.
  induction a as [|d a IH]; [reflexivity|].
  cbn [append has]. rewrite IH, orb_assoc. reflexivity.
Qed.

Lemma includes_char (c : ascii) (s : string) :
  includes s (String c EmptyString) = has c s.
Proof.
  induction s as [|d s IH]; simpl; auto.
  rewrite IH. rewrite (Ascii.eqb_sym c d).
  destruct s; destruct (Ascii.eqb d c); reflexivity.
Qed.

Lemma split_nonempty (c : ascii) (s : string) : split c s <> [].
Proof.
  destruct s as [|a r]; simpl; [discriminate|].
  destruct (Ascii.eqb a c); [discriminate|]. destruct (split c r); discriminate.
Qed.

Lemma split_without (c : ascii) (s : string) : has c s = false -> split c s = [s].
Proof.
  induction s as [|a r IH]; simpl; intros H; auto.
  apply orb_false_elim in H as [H1 H2]. rewrite H1, (IH H2). reflexivity.
Qed.

Lemma split_app (c : ascii) (a b : string) :
  has c a = false ->
  split c (a ++ String c b) = a :: split c b.
Proof.
  induction a as [|x a IH]; simpl; intros H.
  - rewrite Ascii.eqb_refl. reflexivity.
  - apply orb_false_elim in H as [H1 H2]. rewrite H1, (IH H2). reflexivity.
Qed.

Lemma split_join (c : ascii) (l : list string) :
  l <> [] -> Forall (fun s => has c s = false) l ->
  split c (join (String c EmptyString) l) = l.
Proof.
  induction l as [|x r IH]; intros Hn H; [contradiction|].
  inversion H as [|? ? Hx Hr]; subst.
  destruct r as [|y r'].
  - simpl. apply split_without, Hx.
  - change (join (String c EmptyString) (x :: y :: r'))
      with (x ++ String c (join (String c EmptyString) (y :: r'))).
    rewrite split_app by exact Hx. f_equal. apply IH; [discriminate|exact Hr].
Qed.

End StringFacts.

(** * The CSV parser and the CSV export *)
Module CsvFacts.
Import JS Auditors CSVParser CSVExporter StringSpec CsvSpec StringFacts.
Local Open Scope string_scope.

Lemma push_app (cur : string) (c : ascii) (f : string) :
  push cur c ++ f = cur ++ String c f.
Proof. unfold push. rewrite append_assoc. reflexivity. Qed.

(** ** The row parser on the output of [escapeCSVField] *)

(** Inside quotes: the doubled quotes and the closing quote. *)
Lemma row_loop_quoted (f R cur : string) (res : list string) :
  startsWith R (String quote EmptyString) = false ->
  row_loop (double_quotes f ++ String quote R) cur true res
  = row_loop R (cur ++ f) false res.
Proof.
  intros HR. revert cur. induction f as [|c f IH]; intros cur.
  - cbn [double_quotes append row_loop]. rewrite Ascii.eqb_refl.
    rewrite append_nil_r. destruct R as [|n R']; [reflexivity|].
    cbn [startsWith] in HR. rewrite Ascii.eqb_sym in HR.
    destruct R'; cbn [startsWith] in HR; rewrite andb_true_r in HR;
      rewrite HR; reflexivity.
  - cbn [double_quotes]. destruct (Ascii.eqb c quote) eqn:E.
    + apply Ascii.eqb_eq in E. subst c.
      cbn [append row_loop]. rewrite Ascii.eqb_refl. cbn [andb].
      rewrite IH, push_app. reflexivity.
    + cbn [append row_loop]. rewrite E. rewrite andb_false_r.
      rewrite IH, push_app. reflexivity.
Qed.

(** Outside quotes: a field without comma and quote. *)
Lemma row_loop_plain (f R cur : string) (res : list string) :
  has comma f = false -> has quote f = false ->
  row_loop (f ++ R) cur false res = row_loop R (cur ++ f) false res.
Proof.
  revert cur. induction f as [|c f IH]; intros cur Hc Hq.
  - rewrite append_nil_r. reflexivity.
  - cbn [has] in Hc, Hq.
    apply orb_false_elim in Hc as [Hc1 Hc2]. apply orb_false_elim in Hq as [Hq1 Hq2].
    cbn [append row_loop]. rewrite Hq1, Hc1. cbn [andb].
    rewrite IH, push_app by assumption. reflexivity.
Qed.

Lemma row_loop_open (rest cur : string) (res : list string) :
  rest <> EmptyString ->
  row_loop (String quote rest) cur false res = row_loop rest cur true res.
Proof. destruct rest; [contradiction|reflexivity]. Qed.

Lemma row_loop_field (f R : string) (res : list string) :
  startsWith R (String quote EmptyString) = false ->
  row_loop (escapeCSVField f ++ R) EmptyString false res
  = row_loop R f false res.
Proof.
  intros HR. unfold escapeCSVField, has_char. rewrite !includes_char.
  destruct f as [|c f]; [reflexivity|]. cbn [truthy negb].
  destruct (has comma (String c f) || has newline (String c f)
            || has quote (String c f)) eqn:E.
  - change (String quote (double_quotes (String c f)) ++ String quote EmptyString)
      with (String quote (double_quotes (String c f) ++ String quote EmptyString)).
    cbn [append]. rewrite append_assoc. cbn [append].
    rewrite row_loop_open.
    2:{ cbn [double_quotes]. destruct (Ascii.eqb c quote); discriminate. }
    apply (row_loop_quoted (String c f) R EmptyString res HR).
  - apply orb_false_elim in E as [E Eq]. apply orb_false_elim in E as [Ec _].
    apply (row_loop_plain (String c f) R EmptyString res Ec Eq).
Qed.

Lemma row_loop_fields (x : string) (r : list string) (res : list string) :
  row_loop (join "," (map escapeCSVField (x :: r))) EmptyString false res
  = (res ++ map trim (x :: r))%list.
Proof.
  revert x res. induction r as [|y r IH]; intros x res.
  - cbn [map join]. rewrite <- (append_nil_r (escapeCSVField x)).
    rewrite row_loop_field by reflexivity. reflexivity.
  - change (join "," (map escapeCSVField (x :: y :: r)))
      with (escapeCSVField x ++ String comma (join "," (map escapeCSVField (y :: r)))).
    rewrite row_loop_field by reflexivity.
    cbn [row_loop]. change (Ascii.eqb comma quote) with false.
    rewrite Ascii.eqb_refl. cbn [andb negb].
    rewrite IH. cbn [map]. rewrite <- app_assoc. reflexivity.
Qed.

Lemma parseCSVRow_escaped (x : string) (r : list string) :
  parseCSVRow (join "," (map escapeCSVField (x :: r))) = map trim (x :: r).
Proof. unfold parseCSVRow. rewrite row_loop_fields. reflexivity. Qed.

Lemma has_double_quotes (c : ascii) (f : string) :
  has c f = false -> has c (double_quotes f) = false.
Proof.
  induction f as [|d f IH]; intros H; [reflexivity|].
  cbn [has] in H. apply orb_false_elim in H as [H1 H2].
  cbn [double_quotes]. destruct (Ascii.eqb d quote) eqn:E.
  - apply Ascii.eqb_eq in E. subst d. cbn [has]. rewrite H1, (IH H2). reflexivity.
  - cbn [has]. rewrite H1, (IH H2). reflexivity.
Qed.

Lemma has_escape (f : string) :
  has newline f = false -> has newline (escapeCSVField f) = false.
Proof.
  intros H. unfold escapeCSVField. destruct (negb (truthy f)); [reflexivity|].
  destruct (_ || _); auto.
  change (String quote (double_quotes f) ++ String quote EmptyString)
    with (String quote (double_quotes f ++ String quote EmptyString)).
  cbn [has]. rewrite has_app, (has_double_quotes _ _ H). reflexivity.
Qed.

Lemma has_join (c : ascii) (sep : string) (l : list string) :
  has c sep = false -> Forall (fun s => has c s = false) l ->
  has c (join sep l) = false.
Proof.
  intros Hs H. induction H as [|x r Hx Hr IH]; [reflexivity|].
  destruct r as [|y r']; [exact Hx|].
  change (join sep (x :: y :: r')) with (x ++ sep ++ join sep (y :: r')).
  rewrite !has_app, Hx, Hs, IH. reflexivity.
Qed.

(** ** The row parser on a line without quotes *)

Lemma row_loop_unquoted (line cur : string) (res : list string) :
  has quote line = false ->
  row_loop line cur false res
  = app res (map trim (match split comma line with
                       | x :: xs => (cur ++ x) :: xs
                       | [] => [cur]
                       end)).
Proof.
  revert cur res. induction line as [|c line IH]; intros cur res H.
  - cbn [row_loop split map]. rewrite append_nil_r. reflexivity.
  - cbn [has] in H. apply orb_false_elim in H as [H1 H2].
    cbn [row_loop split]. rewrite H1.
    destruct (Ascii.eqb c comma) eqn:E; cbn [andb negb].
    + rewrite (IH _ _ H2). rewrite append_nil_r.
      pose proof (split_nonempty comma line) as N.
      destruct (split comma line) as [|x xs]; [contradiction|].
      cbn [map append]. rewrite <- app_assoc. reflexivity.
    + rewrite (IH _ _ H2).
      pose proof (split_nonempty comma line) as N.
      destruct (split comma line) as [|x xs]; [contradiction|].
      rewrite push_app. reflexivity.
Qed.

(** ** Blank lines *)

Lemma trimStart_blank (s : string) : all_space s = true -> trimStart s = EmptyString.
Proof.
  induction s as [|c s IH]; [reflexivity|]. cbn [all_space trimStart].
  intros H. apply andb_prop in H as [H1 H2]. rewrite H1. auto.
Qed.

Lemma trim_blank (s : string) : all_space s = true <-> trim s = EmptyString.
Proof.
  split.
  - intros H. unfold trim. rewrite (trimStart_blank _ H). reflexivity.
  - unfold trim. induction s as [|c s IH]; [reflexivity|].
    cbn [trimStart all_space]. destruct (is_space c) eqn:E; [exact IH|].
    intros H. destruct (trimEnd_first _ c s eq_refl E) as [r' Hr]. congruence.
Qed.

Lemma split_blank (c : ascii) (s : string) :
  all_space s = true -> Forall (fun l => all_space l = true) (split c s).
Proof.
  induction s as [|a s IH]; intros H.
  - repeat constructor.
  - cbn [all_space] in H. apply andb_prop in H as [H1 H2].
    specialize (IH H2). cbn [split]. destruct (Ascii.eqb a c).
    + constructor; [reflexivity|exact IH].
    + destruct (split c s) as [|x xs].
      * repeat constructor. cbn. rewrite H1. reflexivity.
      * inversion IH; subst. constructor; auto. cbn [all_space].
        rewrite H1. assumption.
Qed.

Lemma nonblank_blank (content : string) :
  trim content = EmptyString -> nonblank content = [].
Proof.
  intros H. apply trim_blank in H. unfold nonblank.
  pose proof (split_blank newline content H) as F.
  induction F as [|x r Hx Hr IH]; [reflexivity|].
  cbn [filter]. apply trim_blank in Hx. rewrite Hx. exact IH.
Qed.

(** ** The loop of [parseCSV] *)





(** ** validateURL *)




Lemma includes_https (t p : string) :
  includes t p = true -> includes ("https://" ++ t) p = true.
Proof. apply includes_app_r. Qed.


Lemma all_space_has (c : ascii) (s : string) :
  is_space c = false -> all_space s = true -> has c s = false.
Proof.
  intros Hc. induction s as [|d s IH]; [reflexivity|]. cbn [all_space has].
  intros H. apply andb_prop in H as [H1 H2]. rewrite (IH H2), orb_false_r.
  destruct (Ascii.eqb d c) eqn:E; auto. apply Ascii.eqb_eq in E. congruence.
Qed.

Lemma detectHeader_nonblank (line : string) :
  detectHeader line = true -> truthy (trim line) = true.
Proof.
  intros H. destruct (truthy (trim line)) eqn:T; auto. exfalso.
  assert (E : trim line = EmptyString) by (destruct (trim line); [auto|discriminate]).
  pose proof (proj2 (trim_blank line) E) as B.
  unfold detectHeader, parseCSVRow in H.
  rewrite row_loop_unquoted in H by (apply all_space_has; auto).
  rewrite split_without in H by (apply all_space_has; auto).
  cbn [app map hd append] in H. rewrite E in H. discriminate.
Qed.

Lemma nonblank_cons (first rest : string) :
  has newline first = false -> truthy (trim first) = true ->
  nonblank (first ++ String newline rest) = first :: nonblank rest.
Proof.
  intros N T. unfold nonblank. rewrite split_app by exact N.
  cbn [filter]. rewrite T. reflexivity.
Qed.

End CsvFacts.

(** * Facts about the URL helpers and the text helpers *)
Module HelperFacts.
Import JS DOM Auditors HTMLProcessor AuditUtils StringSpec StringFacts.
Local Open Scope string_scope.

(** ** URLs without a colon do not parse *)

Lemma code_colon (c : ascii) : Nat.eqb (URL.code c) 58 = Ascii.eqb c ":".
Proof. destruct c as [[] [] [] [] [] [] [] []]; vm_compute; reflexivity. Qed.

Lemma has_reverse (c : ascii) (s : string) : has c (reverse s) = has c s.
Proof.
  induction s as [|d s IH]; [reflexivity|].
  rewrite reverse_cons, has_app, IH. cbn [has].
  rewrite orb_false_r. apply orb_comm.
Qed.

Lemma has_drop_while (c : ascii) (f : ascii -> bool) (s : string) :
  has c s = false -> has c (URL.drop_while f s) = false.
Proof.
  induction s as [|d s IH]; intros H; [reflexivity|].
  cbn [URL.drop_while]. destruct (f d); auto.
  cbn [has] in H. apply orb_false_elim in H as [_ H]. auto.
Qed.

Lemma has_filter_chars (c : ascii) (f : ascii -> bool) (s : string) :
  has c s = false -> has c (URL.filter_chars f s) = false.
Proof.
  induction s as [|d s IH]; intros H; [reflexivity|].
  cbn [has] in H. apply orb_false_elim in H as [H1 H2].
  cbn [URL.filter_chars]. destruct (f d); auto. cbn [has]. rewrite H1. auto.
Qed.

Lemma has_clean (c : ascii) (s : string) :
  has c s = false -> has c (URL.clean s) = false.
Proof.
  intros H. unfold URL.clean. apply has_filter_chars. rewrite has_reverse.
  apply has_drop_while. rewrite has_reverse. apply has_drop_while. exact H.
Qed.

Lemma scan_scheme_none (s acc : string) :
  has ":" s = false -> URL.scan_scheme s acc = None.
Proof.
  revert acc. induction s as [|c s IH]; intros acc H; [reflexivity|].
  cbn [has] in H. apply orb_false_elim in H as [H1 H2].
  cbn [URL.scan_scheme]. rewrite code_colon, H1.
  destruct (URL.is_scheme_char c); auto.
Qed.

(** [new URL(url)] throws when the URL holds no colon. *)
Lemma parse_without_colon (url : string) :
  has ":" url = false -> URL.parse url = None.
Proof.
  intros H. unfold URL.parse, URL.split_scheme.
  pose proof (has_clean ":" url H) as C.
  destruct (URL.clean url) as [|c r]; [reflexivity|].
  destruct (is_alpha c); [|reflexivity].
  rewrite (scan_scheme_none _ _ C). reflexivity.
Qed.

(** ** The file extension *)

Lemma break_before (f : ascii -> bool) (s b a : string) :
  URL.break f s = (b, a) -> forall c, f c = true -> has c b = false.
Proof.
  revert b a. induction s as [|d s IH]; intros b a H c Hc.
  - inversion H. reflexivity.
  - cbn [URL.break] in H. destruct (f d) eqn:E.
    + inversion H. reflexivity.
    + destruct (URL.break f s) as [b' a'] eqn:B. inversion H; subst.
      cbn [has]. rewrite (IH _ _ eq_refl c Hc), orb_false_r.
      destruct (Ascii.eqb d c) eqn:D; auto. apply Ascii.eqb_eq in D. congruence.
Qed.

Lemma split_last_after (c : ascii) (s before after : string) :
  URL.split_last c s = Some (before, after) -> has c after = false.
Proof.
  unfold URL.split_last. destruct (URL.break (Ascii.eqb c) (reverse s)) as [b a] eqn:B.
  destruct a; [discriminate|]. intros H. inversion H; subst.
  rewrite has_reverse. apply (break_before _ _ _ _ B). apply Ascii.eqb_refl.
Qed.

Lemma lower_dot (c : ascii) : Ascii.eqb (lower c) "." = Ascii.eqb c ".".
Proof. destruct c as [[] [] [] [] [] [] [] []]; vm_compute; reflexivity. Qed.

Lemma has_dot_lower (s : string) : has "." (toLowerCase s) = has "." s.
Proof.
  unfold toLowerCase. induction s as [|c s IH]; [reflexivity|].
  cbn [map_chars has]. rewrite lower_dot, IH. reflexivity.
Qed.

Lemma extension_shape (url : string) :
  getFileExtension url = EmptyString
  \/ exists x, getFileExtension url = String "." x /\ x <> EmptyString
               /\ has "." x = false /\ toLowerCase x = x.
Proof.
  unfold getFileExtension. destruct (URL.parse url) as [u|]; auto.
  destruct (URL.split_last "." (URL.pathname u)) as [[before after]|] eqn:E; auto.
  destruct after as [|c r]; auto. right.
  exists (toLowerCase (String c r)). split; [reflexivity|].
  split; [discriminate|]. split.
  - rewrite has_dot_lower. apply (split_last_after _ _ _ _ E).
  - apply toLowerCase_idempotent.
Qed.

(** ** trim keeps what is inside *)










(** ** normalizeWhitespace *)

(** ** normalizeWhitespace *)














End HelperFacts.

(** * Facts about the findings of the auditors *)
Module FindingFacts.
Import JS DOM Auditors AuditorSpec FindingSpec StringSpec StringFacts HelperFacts.
Local Open Scope string_scope.

(** ** What every result satisfies *)

Lemma yields_ret (P : AuditResult -> Prop) (rs : list AuditResult) :
  Forall P rs -> yields P (ret rs).
Proof. intros H sig k rs' n E. inversion E; subst. exact H. Qed.

Lemma yields_throw (P : AuditResult -> Prop) (e : Error) : yields P (throw e).
Proof. intros sig k rs n E. discriminate E. Qed.

Lemma yields_bind {A} (P : AuditResult -> Prop) (m : M A)
      (f : A -> M (list AuditResult)) :
  (forall a, yields P (f a)) -> yields P (bind m f).
Proof.
  intros H sig k rs n E. unfold bind in E.
  destruct (m sig k) as [[a|e] k']; [|discriminate]. exact (H a _ _ _ _ E).
Qed.

Lemma yields_bind_list (P : AuditResult -> Prop) (m : M (list AuditResult))
      (f : list AuditResult -> M (list AuditResult)) :
  yields P m -> (forall a, Forall P a -> yields P (f a)) -> yields P (bind m f).
Proof.
  intros Hm H sig k rs n E. unfold bind in E.
  destruct (m sig k) as [[a|e] k'] eqn:Em; [|discriminate].
  exact (H a (Hm _ _ _ _ Em) _ _ _ _ E).
Qed.

Lemma yields_forEach {A} (P : AuditResult -> Prop) (l : list A)
      (f : A -> M (list AuditResult)) :
  (forall x, yields P (f x)) -> yields P (forEach l f).
Proof.
  intros H. induction l as [|x r IH]; cbn [forEach].
  - apply yields_ret. constructor.
  - apply yields_bind_list; [apply H|]. intros a Ha.
    apply yields_bind_list; [exact IH|]. intros b Hb.
    apply yields_ret. apply Forall_app. auto.
Qed.

Lemma yields_if (P : AuditResult -> Prop) (b : bool) (m1 m2 : M (list AuditResult)) :
  yields P m1 -> yields P m2 -> yields P (if b then m1 else m2).
Proof. destruct b; auto. Qed.

(** ** Runs under a signal that is never aborted *)

Lemma check_quiet (k : nat) : checkAbortSignal never_aborted k = (Normal tt, S k).
Proof. reflexivity. Qed.

Lemma forEach_quiet {A} (l : list A) (f : A -> M (list AuditResult))
      (g : A -> list AuditResult) :
  (forall x k, f x never_aborted k = (Normal (g x), S k)) ->
  forall k, forEach l f never_aborted k = (Normal (flat_map g l), List.length l + k).
Proof.
  intros H. induction l as [|x r IH]; intros k; [reflexivity|].
  cbn [forEach flat_map List.length]. unfold bind at 1. rewrite H.
  unfold bind at 1. rewrite IH. unfold ret. f_equal. lia.
Qed.

Lemma flat_map_singleton {A B} (g : A -> B) (l : list A) :
  flat_map (fun x => [g x]) l = map g l.
Proof. induction l; cbn; congruence. Qed.

(** ** The results name the page and the rule *)

Ltac one_result :=
  first [ apply Forall_nil
        | apply Forall_cons; [split; [reflexivity|cbn; auto]|apply Forall_nil] ].

Lemma audit_body_yields (a : auditor) (url : string) (r : response) :
  yields (fun x => fullUrl x = url /\ In (type x) (types_of a)) (audit_body a url r).
Proof.
  destruct a; cbn [audit_body types_of];
    unfold ImageAuditor_body, LinkAuditor_body, ButtonAuditor_body,
      HeadingAuditor_body, TableAuditor_body, DocumentAuditor_body.
  - apply yields_bind; intros _. apply yields_bind; intros document.
    apply yields_forEach; intros img. apply yields_bind; intros _.
    apply yields_ret. unfold image_result.
    destruct (getAttribute "alt" img) as [alt|]; [|one_result].
    destruct (negb (truthy alt) || String.eqb (trim alt) EmptyString); one_result.
  - apply yields_bind; intros _. apply yields_bind; intros document.
    apply yields_bind_list.
    + unfold findInaccessibleLinks. apply yields_forEach; intros link.
      apply yields_bind; intros _.
      repeat apply yields_if; apply yields_ret; one_result.
    + intros x Hx. apply yields_bind_list.
      * unfold findRawUrls. apply yields_bind; intros _.
        destruct (body document); [|apply yields_throw].
        apply yields_forEach; intros rawUrl. apply yields_bind; intros _.
        apply yields_if; apply yields_ret; one_result.
      * intros y Hy. apply yields_ret. apply Forall_app. auto.
  - apply yields_bind; intros _. apply yields_bind; intros document.
    apply yields_forEach; intros element. apply yields_bind; intros _.
    apply yields_ret. unfold button_results.
    destruct (_ && _); one_result.
  - apply yields_bind; intros _. apply yields_bind; intros document.
    destruct (querySelectorAll heading_selector document);
      [apply yields_ret; constructor|].
    apply yields_bind; intros _. destruct (validateHeadingHierarchy _) as [v sq].
    apply yields_if; apply yields_ret; one_result.
  - apply yields_bind; intros _. apply yields_bind; intros document.
    apply yields_forEach; intros table. apply yields_bind; intros _.
    apply yields_ret. unfold table_result.
    destruct (analyzeTableStructure table) as [[[? ?] ?] ?]. one_result.
  - apply yields_bind; intros _. apply yields_bind; intros document.
    apply yields_forEach; intros link. apply yields_bind; intros _.
    apply yields_ret. unfold document_results. apply Forall_app. split.
    + destruct (endsWith _ _); one_result.
    + destruct (existsb _ _); one_result.
Qed.

Lemma audit_yields (a : auditor) (url : string) (sig : Signal) (r : response) :
  exists rs, audit a url sig r = Normal rs
             /\ Forall (fun x => fullUrl x = url /\ In (type x) (types_of a)) rs.
Proof.
  unfold audit, try_catch.
  destruct (audit_body a url r sig 0) as [[rs|e] n] eqn:E; cbn.
  - exists rs. split; auto. exact (audit_body_yields a url r _ _ _ _ E).
  - exists []. split; auto.
Qed.

(** ** The auditors under a signal that is never aborted *)

Lemma image_quiet (url : string) (doc : Document) :
  audit ImageAuditor url never_aborted (Fetched doc)
  = Normal (map (image_result url) (querySelectorAll [Type_ "img"] doc)).
Proof.
  unfold audit, try_catch, audit_body, ImageAuditor_body.
  unfold bind at 1. rewrite check_quiet. unfold bind at 1. cbn [lift fetchAndParseHTML].
  rewrite (forEach_quiet _ _ (fun img => [image_result url img])) by reflexivity.
  cbn [fst]. rewrite flat_map_singleton. reflexivity.
Qed.

Lemma table_quiet (url : string) (doc : Document) :
  audit TableAuditor url never_aborted (Fetched doc)
  = Normal (map (table_result url) (querySelectorAll [Type_ "table"] doc)).
Proof.
  unfold audit, try_catch, audit_body, TableAuditor_body.
  unfold bind at 1. rewrite check_quiet. unfold bind at 1. cbn [lift fetchAndParseHTML].
  rewrite (forEach_quiet _ _ (fun t => [table_result url t])) by reflexivity.
  cbn [fst]. rewrite flat_map_singleton. reflexivity.
Qed.

Lemma button_quiet (url : string) (doc : Document) :
  audit ButtonAuditor url never_aborted (Fetched doc)
  = Normal (flat_map (button_results doc url) (button_elements doc)).
Proof.
  unfold audit, try_catch, audit_body, ButtonAuditor_body.
  unfold bind at 1. rewrite check_quiet. unfold bind at 1. cbn [lift fetchAndParseHTML].
  rewrite (forEach_quiet _ _ (button_results doc url)) by reflexivity.
  reflexivity.
Qed.

Lemma document_quiet (url : string) (doc : Document) :
  audit DocumentAuditor url never_aborted (Fetched doc)
  = Normal (flat_map (document_results url) (querySelectorAll [HasAttr "a" "href"] doc)).
Proof.
  unfold audit, try_catch, audit_body, DocumentAuditor_body.
  unfold bind at 1. rewrite check_quiet. unfold bind at 1. cbn [lift fetchAndParseHTML].
  rewrite (forEach_quiet _ _ (document_results url)) by reflexivity.
  reflexivity.
Qed.

Lemma or_else_empty (s : string) : or_else s EmptyString = s.
Proof. destruct s; reflexivity. Qed.

Lemma vague_link_step (url : string) (link : Node) (k : nat) :
  (checkAbortSignal ;;;
   let linkText := or_else (toLowerCase (trim (textContent link))) EmptyString in
   let href := or_null (getAttribute "href" link) EmptyString in
   if containsTriggerPhrase linkText TRIGGER_PHRASES then
     if negb (containsExcludedPhrase linkText EXCLUDED_PHRASES) then
       ret [createAuditResult INACCESSIBLE_LINK url EmptyString
              (or_else (trim (textContent link)) EmptyString) href EmptyString]
     else ret []
   else ret []) never_aborted k
  = (Normal (vague_link url link), S k).
Proof.
  unfold bind. rewrite check_quiet. unfold vague_link. rewrite !or_else_empty.
  destruct (containsTriggerPhrase _ _); [|reflexivity].
  destruct (containsExcludedPhrase _ _); reflexivity.
Qed.

Lemma raw_url_step (url rawUrl : string) (k : nat) :
  (checkAbortSignal ;;;
   let fullUrl :=
     if negb (startsWith rawUrl "http://") && negb (startsWith rawUrl "https://")
     then "https://" ++ rawUrl else rawUrl in
   if isValidUrl fullUrl
   then ret [createAuditResult INACCESSIBLE_LINK url EmptyString EmptyString
               fullUrl EmptyString]
   else ret []) never_aborted k
  = (Normal (raw_url url rawUrl), S k).
Proof.
  unfold bind. rewrite check_quiet. unfold raw_url.
  destruct (startsWith rawUrl "http://"), (startsWith rawUrl "https://"); cbn [negb andb orb];
    destruct (isValidUrl _); reflexivity.
Qed.

Lemma link_quiet (url : string) (doc : Document) :
  audit LinkAuditor url never_aborted (Fetched doc)
  = Normal (match body doc with
            | Some b =>
                flat_map (vague_link url) (querySelectorAll [HasAttr "a" "href"] doc)
                ++ flat_map (raw_url url) (match_all None (textContent b) 0)
            | None => []
            end)%list.
Proof.
  unfold audit, try_catch, audit_body, LinkAuditor_body.
  unfold bind at 1. rewrite check_quiet. unfold bind at 1. cbn [lift fetchAndParseHTML].
  unfold bind at 1. unfold findInaccessibleLinks.
  rewrite (forEach_quiet _ _ (vague_link url)) by (intros; apply vague_link_step).
  unfold bind at 1. unfold findRawUrls. unfold bind at 1. rewrite check_quiet.
  destruct (body doc) as [b|]; [|reflexivity].
  rewrite or_else_empty.
  rewrite (forEach_quiet _ _ (raw_url url)) by (intros; apply raw_url_step).
  reflexivity.
Qed.

(** ** Document links *)

Lemma pdf_is_no_office_file (s : string) :
  endsWith s PDF_EXTENSION = true ->
  existsb (fun ext => endsWith s ext) OFFICE_EXTENSIONS = false.
Proof.
  unfold endsWith, PDF_EXTENSION, OFFICE_EXTENSIONS. cbn [existsb].
  destruct (reverse s) as [|c r]; [discriminate|].
  change (reverse ".pdf") with "fdp.". change (reverse ".doc") with "cod.".
  change (reverse ".docx") with "xcod.". change (reverse ".xls") with "slx.".
  change (reverse ".xlsx") with "xslx.". change (reverse ".ppt") with "tpp.".
  change (reverse ".pptx") with "xtpp.".
  cbn [startsWith]. intros H. apply andb_prop in H as [H _].
  apply Ascii.eqb_eq in H. subst c. reflexivity.
Qed.

Lemma document_results_once (url : string) (link : Node) :
  List.length (document_results url link) <= 1.
Proof.
  unfold document_results.
  destruct (endsWith _ PDF_EXTENSION) eqn:E.
  - rewrite (pdf_is_no_office_file _ E). cbn. lia.
  - destruct (existsb _ _); cbn; lia.
Qed.

Lemma hd_split_app (c : ascii) (a b : string) :
  has c a = false ->
  hd EmptyString (split c (a ++ b)) = a ++ hd EmptyString (split c b).
Proof.
  induction a as [|x a IH]; intros H; [reflexivity|].
  cbn [has] in H. apply orb_false_elim in H as [H1 H2].
  cbn [append split]. rewrite H1. specialize (IH H2).
  pose proof (split_nonempty c (a ++ b)) as N.
  destruct (split c (a ++ b)); [contradiction|]. cbn [hd] in *. congruence.
Qed.

Lemma hd_split_cut (c : ascii) (a b : string) :
  has c a = false -> hd EmptyString (split c (a ++ String c b)) = a.
Proof. intros H. rewrite split_app by exact H. reflexivity. Qed.

(** The part of the reference that the extension test looks at. *)
Lemma clean_href_cut (h rest : string) (sep : ascii) :
  has "?" h = false -> has "#" h = false -> sep = "?"%char \/ sep = "#"%char ->
  hd EmptyString (split "#" (hd EmptyString (split "?" (h ++ String sep rest)))) = h.
Proof.
  intros Q F [-> | ->].
  - rewrite hd_split_cut by exact Q. rewrite split_without by exact F. reflexivity.
  - rewrite hd_split_app by exact Q.
    remember (hd EmptyString (split "?" (String "#" rest))) as t eqn:Et.
    assert (exists t', t = String "#" t') as [t' ->].
    { subst t. cbn [split]. change (Ascii.eqb "#" "?") with false. cbn iota.
      pose proof (split_nonempty "?" rest) as N.
      destruct (split "?" rest); [contradiction|]. cbn [hd]. eauto. }
    apply hd_split_cut. exact F.
Qed.

Lemma clean_href_plain (h : string) :
  has "?" h = false -> has "#" h = false ->
  hd EmptyString (split "#" (hd EmptyString (split "?" h))) = h.
Proof.
  intros Q F. rewrite (split_without _ _ Q). cbn [hd].
  rewrite (split_without _ _ F). reflexivity.
Qed.

Lemma document_types_cut (url h rest : string) (sep : ascii) (content : list Node) :
  has "?" h = false -> has "#" h = false -> sep = "?"%char \/ sep = "#"%char ->
  map type (document_results url (anchor (h ++ String sep rest) content))
  = map type (document_results url (anchor h content)).
Proof.
  intros Q F S. unfold document_results, anchor.
  cbn [getAttribute lookup]. change (String.eqb "href" "href") with true. cbn iota.
  assert (O : forall x, or_null (Some x) EmptyString = x) by (intros []; reflexivity).
  rewrite !O. rewrite (clean_href_cut h rest sep Q F S), (clean_href_plain h Q F).
  destruct (endsWith _ PDF_EXTENSION); destruct (existsb _ _); reflexivity.
Qed.

(** ** Buttons *)







(** ** Raw URLs *)

Lemma raw_url_shape (url rawUrl : string) :
  Forall (fun x => type x = INACCESSIBLE_LINK /\ linkText x = EmptyString
                   /\ (startsWith (targetUrl x) "http://"
                       || startsWith (targetUrl x) "https://") = true
                   /\ existsb (fun tld => endsWith (toLowerCase (targetUrl x)) tld)
                              VALID_TLDS = true
                   /\ includes (targetUrl x) "@" = false)
         (raw_url url rawUrl).
Proof.
  unfold raw_url.
  set (full := if startsWith rawUrl "http://" || startsWith rawUrl "https://"
               then rawUrl else "https://" ++ rawUrl).
  destruct (isValidUrl full) eqn:V; [|constructor].
  constructor; [|constructor]. cbn [type linkText targetUrl].
  split; [reflexivity|]. split; [reflexivity|]. split.
  - subst full. destruct (startsWith rawUrl "http://" || startsWith rawUrl "https://") eqn:P;
      [exact P|]. rewrite (startsWith_refl "https://" rawUrl). apply orb_true_r.
  - unfold isValidUrl in V.
    destruct (includes full "mailto:" || includes full "@") eqn:M; [discriminate|].
    apply orb_false_elim in M. tauto.
Qed.

Lemma findRawUrls_yields (doc : Document) (url : string) :
  yields (fun x => type x = INACCESSIBLE_LINK /\ linkText x = EmptyString
                   /\ (startsWith (targetUrl x) "http://"
                       || startsWith (targetUrl x) "https://") = true
                   /\ existsb (fun tld => endsWith (toLowerCase (targetUrl x)) tld)
                              VALID_TLDS = true
                   /\ includes (targetUrl x) "@" = false)
         (findRawUrls doc url).
Proof.
  unfold findRawUrls. apply yields_bind; intros _.
  destruct (body doc) as [b|]; [|apply yields_throw].
  apply yields_forEach; intros rawUrl. apply yields_bind; intros _.
  intros sig k rs n E.
  assert (R : rs = raw_url url rawUrl).
  { unfold raw_url. revert E.
    destruct (startsWith rawUrl "http://"), (startsWith rawUrl "https://");
      cbn [negb andb orb]; destruct (isValidUrl _); intros E; inversion E; reflexivity. }
  rewrite R. apply raw_url_shape.
Qed.

End FindingFacts.

(** * Facts about pausing, cancelling and the delay of the limiter *)
Module LimiterRunFacts.
Import RateLimiter RateLimiterSpec RateLimiterFacts LimiterRunSpec.
Local Open Scope nat_scope.

Lemma resume_fields t s s' :
  resume_task t s = Some s' ->
  exists ts, remove_task t (tasks s) = Some ts /\ s' = set_tasks ts s.
Proof.
  unfold resume_task. destruct (remove_task t (tasks s)) as [ts|]; [|discriminate].
  intros H. inversion H. eauto.
Qed.

(** ** A paused limiter *)

Lemma paused_step l s s' :
  isPaused s = true -> isCancelled s = false -> aborted s = false ->
  keeps_paused l = true -> exec l s = Some s' ->
  isPaused s' = true /\ isCancelled s' = false /\ aborted s' = false
  /\ dispatched s' = dispatched s /\ completed s' = completed s
  /\ outcome s' = outcome s.
Proof.
  intros P C A K H. destruct l; cbn [keeps_paused] in K; try discriminate;
    cbn [exec] in H.
  - destruct (resume_task Timer s) as [s1|] eqn:E; [|discriminate].
    destruct (resume_fields _ _ _ E) as (ts & _ & ->). cbn in H.
    unfold processNext, pause_loop in H. cbn in H. rewrite P, C, A in H. cbn in H.
    inversion H; subst. cbn. repeat split; auto.
  - destruct (resume_task PauseWait s) as [s1|] eqn:E; [|discriminate].
    destruct (resume_fields _ _ _ E) as (ts & _ & ->). cbn in H.
    unfold pause_loop in H. cbn in H. rewrite P, C, A in H. cbn in H.
    inversion H; subst. cbn. repeat split; auto.
  - destruct (resume_task (Running item) s) as [s1|] eqn:E; [|discriminate].
    destruct (resume_fields _ _ _ E) as (ts & _ & ->). cbn in H.
    unfold settle in H. cbn in H.
    destruct (_ && _) in H; inversion H; subst; cbn; repeat split; auto.
  - destruct (resume_task BatchDelay s) as [s1|] eqn:E; [|discriminate].
    destruct (resume_fields _ _ _ E) as (ts & _ & ->). cbn in H.
    inversion H; subst. cbn. repeat split; auto.
  - inversion H; subst. cbn. repeat split; auto.
Qed.

Lemma paused_steps ls : forall s s',
  isPaused s = true -> isCancelled s = false -> aborted s = false ->
  forallb keeps_paused ls = true -> execs ls s = Some s' ->
  isPaused s' = true /\ dispatched s' = dispatched s /\ completed s' = completed s
  /\ outcome s' = outcome s.
Proof.
  induction ls as [|l r IH]; intros s s' P C A K H.
  - inversion H; subst. auto.
  - cbn [forallb] in K. apply andb_prop in K as [K1 K2]. cbn [execs] in H.
    destruct (exec l s) as [s1|] eqn:E; [|discriminate].
    destruct (paused_step _ _ _ P C A K1 E) as (P1 & C1 & A1 & D1 & M1 & O1).
    destruct (IH _ _ P1 C1 A1 K2 H) as (P2 & D2 & M2 & O2).
    repeat split; congruence.
Qed.

(** ** A stopped limiter *)

Lemma waiters_remove t ts ts' :
  remove_task t ts = Some ts' ->
  List.length (filter is_waiter ts)
  = List.length (filter is_waiter ts') + (if is_waiter t then 1 else 0).
Proof.
  revert ts'. induction ts as [|x r IH]; intros ts' H; [discriminate|].
  cbn [remove_task] in H. destruct (task_eqb t x) eqn:E.
  - apply task_eqb_eq in E. inversion H; subst. cbn [filter].
    destruct (is_waiter x); cbn [List.length]; lia.
  - destruct (remove_task t r) as [r'|]; [|discriminate]. cbn in H.
    inversion H; subst. specialize (IH _ eq_refl). cbn [filter].
    destruct (is_waiter x); cbn [List.length]; lia.
Qed.

Lemma waiters_suspend t s :
  waiters (suspend t s) = waiters s + (if is_waiter t then 1 else 0).
Proof.
  unfold waiters, suspend. cbn. rewrite filter_app, length_app. cbn [filter].
  destruct (is_waiter t); cbn [List.length]; lia.
Qed.

Lemma dispatch_bound s :
  completed s <= completed (fst (dispatch s)) <= S (completed s)
  /\ waiters (fst (dispatch s)) = waiters s
  /\ stopped (fst (dispatch s)) = stopped s.
Proof.
  unfold dispatch. destruct (items_length s <=? completed s).
  - unfold resolve. destruct (outcome s); cbn; repeat split; auto.
  - destruct (maxConcurrent s <=? activeRequests s)%Z; cbn [fst];
      [repeat split; auto|].
    unfold waiters, claim, stopped. cbn. rewrite filter_app, length_app. cbn.
    repeat split; lia.
Qed.

Lemma stopped_step l s s' :
  stopped s = true -> exec l s = Some s' ->
  stopped s' = true
  /\ completed s <= completed s'
  /\ completed s' + waiters s' <= completed s + waiters s.
Proof.
  intros S H. destruct l; cbn [exec] in H.
  - destruct (resume_task Timer s) as [s1|] eqn:E; [|discriminate].
    destruct (resume_fields _ _ _ E) as (ts & R & ->). cbn in H.
    pose proof (waiters_remove _ _ _ R) as W. cbn in W.
    unfold processNext in H. cbn in H. unfold stopped in S. rewrite S in H.
    cbn in H. inversion H; subst. unfold reject, stopped, waiters.
    destruct (outcome _); cbn; rewrite S; repeat split; auto; lia.
  - destruct (resume_task PauseWait s) as [s1|] eqn:E; [|discriminate].
    destruct (resume_fields _ _ _ E) as (ts & R & ->). cbn in H.
    pose proof (waiters_remove _ _ _ R) as W. cbn in W.
    unfold pause_loop in H. cbn in H.
    assert (Z : isPaused s && negb (isCancelled s) && negb (aborted s) = false).
    { unfold stopped in S. destruct (isPaused s), (isCancelled s), (aborted s);
        auto; discriminate. }
    rewrite Z in H. inversion H; subst.
    destruct (dispatch_bound (set_tasks ts s)) as (B1 & B2 & B3).
    rewrite B3, B2. unfold stopped, waiters. cbn. cbn in B1.
    repeat split; auto; lia.
  - destruct (resume_task (Running item) s) as [s1|] eqn:E; [|discriminate].
    destruct (resume_fields _ _ _ E) as (ts & R & ->). cbn in H.
    pose proof (waiters_remove _ _ _ R) as W. cbn in W.
    unfold settle in H. cbn in H.
    destruct (_ && _) in H; inversion H; subst; rewrite waiters_suspend;
      unfold stopped, waiters in *; cbn; repeat split; auto; lia.
  - destruct (resume_task BatchDelay s) as [s1|] eqn:E; [|discriminate].
    destruct (resume_fields _ _ _ E) as (ts & R & ->). cbn in H.
    pose proof (waiters_remove _ _ _ R) as W. cbn in W.
    inversion H; subst. rewrite waiters_suspend.
    unfold stopped, waiters in *; cbn; repeat split; auto; lia.
  - inversion H; subst. unfold stopped, waiters in *. cbn. repeat split; auto.
  - inversion H; subst. unfold stopped, waiters in *. cbn. repeat split; auto.
  - inversion H; subst. unfold stopped, waiters in *. cbn. repeat split; auto.
  - inversion H; subst. unfold stopped, waiters in *. cbn. repeat split; auto.
    apply orb_true_r.
Qed.

Lemma stopped_steps ls : forall s s',
  stopped s = true -> execs ls s = Some s' ->
  stopped s' = true
  /\ completed s <= completed s'
  /\ completed s' + waiters s' <= completed s + waiters s.
Proof.
  induction ls as [|l r IH]; intros s s' S H.
  - inversion H; subst. auto.
  - cbn [execs] in H. destruct (exec l s) as [s1|] eqn:E; [|discriminate].
    destruct (stopped_step _ _ _ S E) as (S1 & M1 & B1).
    destruct (IH _ _ S1 H) as (S2 & M2 & B2). split; auto. lia.
Qed.

(** ** One worker and a delay between batches *)

Lemma tokens_remove t ts ts' :
  remove_task t ts = Some ts' ->
  List.length (filter is_token ts)
  = List.length (filter is_token ts') + (if is_token t then 1 else 0).
Proof.
  revert ts'. induction ts as [|x r IH]; intros ts' H; [discriminate|].
  cbn [remove_task] in H. destruct (task_eqb t x) eqn:E.
  - apply task_eqb_eq in E. inversion H; subst. cbn [filter].
    destruct (is_token x); cbn [List.length]; lia.
  - destruct (remove_task t r) as [r'|]; [|discriminate]. cbn in H.
    inversion H; subst. specialize (IH _ eq_refl). cbn [filter].
    destruct (is_token x); cbn [List.length]; lia.
Qed.

Lemma tokens_suspend t s :
  tokens (suspend t s) = tokens s + (if is_token t then 1 else 0).
Proof.
  unfold tokens, suspend. cbn. rewrite filter_app, length_app. cbn [filter].
  destruct (is_token t); cbn [List.length]; lia.
Qed.

Lemma paced_dispatch n d s :
  good 1 n s -> (0 < delayBetweenBatches s)%Z -> completed s <= 1 + d ->
  (completed s < n -> completed s + tokens s + 1 <= 1 + d) ->
  paced n d (fst (dispatch s)).
Proof.
  intros G D C T. pose proof (good_dispatch _ _ _ G) as G'.
  unfold dispatch in *. destruct (items_length s <=? completed s) eqn:L.
  - unfold resolve in *. destruct (outcome s); constructor; cbn; auto;
      intros X; specialize (T X); unfold tokens in *; cbn; lia.
  - destruct (maxConcurrent s <=? activeRequests s)%Z; cbn [fst] in *.
    + constructor; auto. intros X. specialize (T X). lia.
    + apply Nat.leb_gt in L. rewrite (g_len _ _ _ G) in L. specialize (T L).
      constructor; auto; cbn.
      * lia.
      * intros _. unfold tokens in *. cbn. rewrite filter_app, length_app. cbn. lia.
Qed.

Lemma paced_pause_loop n d s :
  good 1 n s -> (0 < delayBetweenBatches s)%Z -> completed s <= 1 + d ->
  (completed s < n -> completed s + tokens s + 1 <= 1 + d) ->
  paced n d (fst (pause_loop s)).
Proof.
  intros G D C T. pose proof (good_pause_loop _ _ _ G) as G'. unfold pause_loop in *.
  destruct (_ && _); [|apply paced_dispatch; auto].
  cbn [fst] in *. constructor; auto. intros X. specialize (T X).
  rewrite tokens_suspend. cbn. cbn in X. lia.
Qed.

Lemma paced_processNext n d s :
  good 1 n s -> (0 < delayBetweenBatches s)%Z -> completed s <= 1 + d ->
  (completed s < n -> completed s + tokens s + 1 <= 1 + d) ->
  paced n d (fst (processNext s)).
Proof.
  intros G D C T. pose proof (good_processNext _ _ _ G) as G'. unfold processNext in *.
  destruct (_ || _); [|apply paced_pause_loop; auto].
  cbn [fst] in *. unfold reject in *.
  destruct (outcome s); constructor; cbn; auto; intros X; specialize (T X);
    unfold tokens in *; cbn; lia.
Qed.

Lemma paced_step n d l s s' :
  paced n d s -> exec l s = Some s' ->
  paced n (d + (if is_delay l then 1 else 0)) s'.
Proof.
  intros [G D C T] H. pose proof (good_exec _ _ _ _ _ H G) as G'.
  destruct l; cbn [is_delay]; rewrite ?Nat.add_0_r; cbn [exec] in H.
  - destruct (resume_task Timer s) as [s1|] eqn:E; [|discriminate].
    destruct (resume_fields _ _ _ E) as (ts & R & ->). cbn in H.
    pose proof (tokens_remove _ _ _ R) as W. cbn in W.
    inversion H; subst. apply paced_processNext; auto.
    + eapply good_resume_idle; eauto. reflexivity.
    + cbn. intros X. specialize (T X). unfold tokens in *. cbn. lia.
  - destruct (resume_task PauseWait s) as [s1|] eqn:E; [|discriminate].
    destruct (resume_fields _ _ _ E) as (ts & R & ->). cbn in H.
    pose proof (tokens_remove _ _ _ R) as W. cbn in W.
    inversion H; subst. apply paced_pause_loop; auto.
    + eapply good_resume_idle; eauto. reflexivity.
    + cbn. intros X. specialize (T X). unfold tokens in *. cbn. lia.
  - assert (H0 := H). cbn [exec] in H0.
    destruct (resume_task (Running item) s) as [s1|] eqn:E; [|discriminate].
    destruct (resume_fields _ _ _ E) as (ts & R & ->). cbn in H.
    pose proof (tokens_remove _ _ _ R) as W. cbn in W.
    assert (A : activeRequests s = 1%Z).
    { pose proof (running_perm _ _ _ R) as P. apply Permutation_length in P.
      pose proof (g_active _ _ _ G) as GA. pose proof (g_bound _ _ _ G) as GB.
      cbn [run_of] in P. rewrite length_app in P. cbn [List.length] in P. lia. }
    assert (Dz : (0 <? delayBetweenBatches s)%Z = true) by (apply Z.ltb_lt; exact D).
    unfold settle, set_activeRequests, set_tasks in H.
    cbn [activeRequests delayBetweenBatches completed items_length] in H.
    rewrite A, Dz in H. change (1 - 1 =? 0)%Z with true in H. cbn [andb] in H.
    fold (set_tasks ts s) in H. fold (set_activeRequests 0%Z (set_tasks ts s)) in H.
    destruct (completed s <? items_length s) eqn:L; inversion H; subst.
    + constructor; auto. rewrite tokens_suspend. cbn. intros X. specialize (T X).
      unfold tokens in *. cbn. lia.
    + constructor; auto. cbn. intros X. apply Nat.ltb_ge in L.
      rewrite (g_len _ _ _ G) in L. lia.
  - destruct (resume_task BatchDelay s) as [s1|] eqn:E; [|discriminate].
    destruct (resume_fields _ _ _ E) as (ts & R & ->). cbn in H.
    pose proof (tokens_remove _ _ _ R) as W. cbn in W.
    inversion H; subst. constructor; auto; cbn; [lia|].
    intros X. specialize (T X). unfold tokens in *. cbn.
    rewrite filter_app, length_app. cbn. lia.
  - inversion H; subst. constructor; auto.
  - inversion H; subst. constructor; auto.
  - inversion H; subst. constructor; auto.
  - inversion H; subst. constructor; auto.
Qed.

Lemma paced_steps n ls : forall d s s',
  paced n d s -> execs ls s = Some s' -> paced n (d + delays ls) s'.
Proof.
  induction ls as [|l r IH]; intros d s s' P H.
  - inversion H; subst. unfold delays. cbn. rewrite Nat.add_0_r. exact P.
  - cbn [execs] in H. destruct (exec l s) as [s1|] eqn:E; [|discriminate].
    pose proof (IH _ _ _ (paced_step _ _ _ _ _ P E) H) as Q.
    replace (d + delays (l :: r)) with (d + (if is_delay l then 1 else 0) + delays r);
      [exact Q|].
    unfold delays. cbn [filter]. destruct (is_delay l); cbn [List.length]; lia.
Qed.

Lemma paced_processItems (delay : Z) (paused sig : bool) (n : nat) :
  (0 < delay)%Z -> paced n 0 (processItems 1 delay paused sig n).
Proof.
  intros D. unfold processItems.
  set (s0 := fresh 1 delay paused sig n).
  assert (G0 : good 1 n s0).
  { constructor; cbn; auto; try lia; constructor. }
  assert (P0 : paced n 0 s0).
  { constructor; auto; cbn; lia. }
  assert (B : initial_batch s0 = 0 \/ initial_batch s0 = 1).
  { unfold initial_batch. cbn. lia. }
  destruct B as [-> | ->]; [exact P0|].
  cbn [call_processNext]. apply paced_processNext; auto; cbn; lia.
Qed.

(** ** How the promise settles *)

Lemma settles_dispatch s :
  (outcome (fst (dispatch s)) = outcome s
   \/ (outcome (fst (dispatch s)) = Resolved /\ items_length s <= completed s))
  /\ completed s <= completed (fst (dispatch s))
  /\ items_length (fst (dispatch s)) = items_length s.
Proof.
  unfold dispatch. destruct (items_length s <=? completed s) eqn:L.
  - apply Nat.leb_le in L. unfold resolve.
    destruct (outcome s) eqn:O; cbn; rewrite ?O; auto.
  - destruct (maxConcurrent s <=? activeRequests s)%Z; cbn; auto.
Qed.

Lemma settles_step l s s' :
  exec l s = Some s' ->
  (outcome s' = outcome s
   \/ (outcome s' = Resolved /\ items_length s' <= completed s')
   \/ (outcome s' = Rejected /\ stopped s' = true))
  /\ completed s <= completed s'
  /\ items_length s' = items_length s
  /\ (stopped s = true -> stopped s' = true).
Proof.
  intros H. destruct l; cbn [exec] in H.
  - destruct (resume_task Timer s) as [s1|] eqn:E; [|discriminate].
    destruct (resume_fields _ _ _ E) as (ts & R & ->). cbn in H.
    inversion H; subst. unfold processNext. cbn.
    destruct (isCancelled s || aborted s) eqn:S.
    + cbn. unfold reject, stopped. cbn.
      destruct (outcome s) eqn:O; cbn; rewrite ?O, ?S; auto 6.
    + unfold pause_loop. cbn. destruct (_ && _); cbn; unfold stopped; cbn; auto.
      destruct (settles_dispatch (set_tasks ts s)) as ([X|[X Y]] & C & I);
        cbn in *; rewrite ?I; repeat split; auto;
        destruct (dispatch_bound (set_tasks ts s)) as (_ & _ & B);
        unfold stopped in B; cbn in B; rewrite B; auto.
      right. left. split; auto. lia.
  - destruct (resume_task PauseWait s) as [s1|] eqn:E; [|discriminate].
    destruct (resume_fields _ _ _ E) as (ts & R & ->). cbn in H.
    inversion H; subst.
    unfold pause_loop. cbn. destruct (_ && _); cbn; unfold stopped; cbn; auto.
    destruct (settles_dispatch (set_tasks ts s)) as ([X|[X Y]] & C & I);
      cbn in *; rewrite ?I; repeat split; auto;
      destruct (dispatch_bound (set_tasks ts s)) as (_ & _ & B);
      unfold stopped in B; cbn in B; rewrite B; auto.
    right. left. split; auto. lia.
  - destruct (resume_task (Running item) s) as [s1|] eqn:E; [|discriminate].
    destruct (resume_fields _ _ _ E) as (ts & R & ->). cbn in H.
    unfold settle in H. cbn in H.
    destruct (_ && _) in H; inversion H; subst; unfold stopped; cbn; auto.
  - destruct (resume_task BatchDelay s) as [s1|] eqn:E; [|discriminate].
    destruct (resume_fields _ _ _ E) as (ts & R & ->). cbn in H.
    inversion H; subst; unfold stopped; cbn; auto.
  - inversion H; subst. unfold stopped. cbn. auto.
  - inversion H; subst. unfold stopped. cbn. auto.
  - inversion H; subst. unfold stopped. cbn. auto.
  - inversion H; subst. unfold stopped. cbn. repeat split; auto.
    intros _. apply orb_true_r.
Qed.

Lemma settled_step l s s' : settled_ok s -> exec l s = Some s' -> settled_ok s'.
Proof.
  intros [A B] H. destruct (settles_step _ _ _ H) as (O & C & I & S).
  unfold settled_ok. destruct O as [O|[[O X]|[O X]]].
  - rewrite O, I. split; intros Y; [specialize (A Y); lia|auto].
  - split; auto. intros Y. congruence.
  - split; auto. intros Y. congruence.
Qed.

Lemma settled_steps ls : forall s s',
  settled_ok s -> execs ls s = Some s' -> settled_ok s'.
Proof.
  induction ls as [|l r IH]; intros s s' S H.
  - inversion H; subst. exact S.
  - cbn [execs] in H. destruct (exec l s) as [s1|] eqn:E; [|discriminate].
    eauto using settled_step.
Qed.

Lemma settled_processNext s : settled_ok s -> settled_ok (fst (processNext s)).
Proof.
  intros [A B]. unfold settled_ok, processNext.
  destruct (isCancelled s || aborted s) eqn:S; cbn [fst].
  - unfold reject, stopped. destruct (outcome s) eqn:O; cbn; rewrite ?O, ?S; auto.
    split; auto. discriminate.
  - unfold pause_loop. destruct (_ && _); cbn [fst].
    + unfold suspend, stopped. cbn. auto.
    + destruct (settles_dispatch s) as ([X|[X Y]] & C & I);
        destruct (dispatch_bound s) as (_ & _ & Bd); rewrite ?I, ?Bd.
      * rewrite X. split; auto. intros Z. specialize (A Z). lia.
      * split; [intros _; lia|]. intros Z. congruence.
Qed.

Lemma settled_processItems N d p a n : settled_ok (processItems N d p a n).
Proof.
  unfold processItems. generalize (initial_batch (fresh N d p a n)).
  assert (S0 : settled_ok (fresh N d p a n)) by (split; discriminate).
  revert S0. generalize (fresh N d p a n). intros s S k. revert s S.
  induction k as [|k IH]; intros s S; cbn [call_processNext]; auto.
  apply IH, settled_processNext, S.
Qed.

(** A promise settles once. *)
Lemma sticky_processNext s :
  outcome s <> Pending -> outcome (fst (processNext s)) = outcome s.
Proof.
  intros O. unfold processNext, pause_loop, dispatch, resolve, reject.
  repeat match goal with |- context [if ?c then _ else _] => destruct c end;
    cbn; auto; destruct (outcome s) eqn:OO; cbn; rewrite ?OO; congruence.
Qed.

Lemma sticky_step l s s' :
  exec l s = Some s' -> outcome s <> Pending -> outcome s' = outcome s.
Proof.
  intros H O. destruct l; cbn [exec] in H.
  - destruct (resume_task Timer s) as [s1|] eqn:E; [|discriminate].
    destruct (resume_fields _ _ _ E) as (ts & R & ->). cbn in H.
    inversion H; subst. apply (sticky_processNext (set_tasks ts s)). exact O.
  - destruct (resume_task PauseWait s) as [s1|] eqn:E; [|discriminate].
    destruct (resume_fields _ _ _ E) as (ts & R & ->). cbn in H.
    inversion H; subst. unfold pause_loop, dispatch, resolve.
    repeat match goal with |- context [if ?c then _ else _] => destruct c end;
      cbn; auto; destruct (outcome s) eqn:OO; cbn; rewrite ?OO; congruence.
  - destruct (settle_effect _ _ _ H) as (_ & _ & X & _). exact X.
  - destruct (resume_task BatchDelay s) as [s1|] eqn:E; [|discriminate].
    destruct (resume_fields _ _ _ E) as (ts & R & ->). cbn in H.
    inversion H; subst. reflexivity.
  - inversion H; subst. reflexivity.
  - inversion H; subst. reflexivity.
  - inversion H; subst. reflexivity.
  - inversion H; subst. reflexivity.
Qed.

Lemma moves_step l s s' :
  exec l s = Some s' ->
  outcome s' = outcome s
  \/ (outcome s = Pending /\ outcome s' = Resolved
      /\ items_length s' <= completed s')
  \/ (outcome s = Pending /\ outcome s' = Rejected /\ stopped s' = true).
Proof.
  intros H. destruct (outcome s) eqn:O.
  - destruct (settles_step _ _ _ H) as ([X|[[X Y]|[X Y]]] & _); rewrite ?O in *; auto.
  - left. rewrite <- O. apply (sticky_step _ _ _ H). congruence.
  - left. rewrite <- O. apply (sticky_step _ _ _ H). congruence.
Qed.

Lemma moves_processNext s :
  outcome (fst (processNext s)) = outcome s
  \/ (outcome s = Pending /\ outcome (fst (processNext s)) = Resolved
      /\ items_length (fst (processNext s)) <= completed (fst (processNext s)))
  \/ (outcome s = Pending /\ outcome (fst (processNext s)) = Rejected
      /\ stopped (fst (processNext s)) = true).
Proof.
  destruct (outcome s) eqn:O.
  - unfold processNext. destruct (isCancelled s || aborted s) eqn:S; cbn [fst].
    + right. right. unfold reject, stopped. rewrite O. cbn. auto.
    + unfold pause_loop. destruct (_ && _); cbn [fst]; [left; cbn; auto|].
      unfold dispatch. destruct (items_length s <=? completed s) eqn:L; cbn [fst].
      * right. left. apply Nat.leb_le in L. unfold resolve. rewrite O. cbn. auto.
      * destruct (maxConcurrent s <=? activeRequests s)%Z; cbn; auto.
  - left. rewrite <- O. apply sticky_processNext. congruence.
  - left. rewrite <- O. apply sticky_processNext. congruence.
Qed.

(** ** Nothing to start with *)

Lemma idle_forever l s s' :
  tasks s = [] -> exec l s = Some s' ->
  tasks s' = [] /\ outcome s' = outcome s /\ dispatched s' = dispatched s
  /\ completed s' = completed s.
Proof.
  intros T H. destruct l; cbn [exec] in H; unfold resume_task in H;
    rewrite ?T in H; cbn in H; try discriminate; inversion H; subst; cbn; auto.
Qed.

Lemma idle_forever_steps ls : forall s s',
  tasks s = [] -> execs ls s = Some s' ->
  tasks s' = [] /\ outcome s' = outcome s /\ dispatched s' = dispatched s
  /\ completed s' = completed s.
Proof.
  induction ls as [|l r IH]; intros s s' T H.
  - inversion H; subst. auto.
  - cbn [execs] in H. destruct (exec l s) as [s1|] eqn:E; [|discriminate].
    destruct (idle_forever _ _ _ T E) as (T1 & O1 & D1 & C1).
    destruct (IH _ _ T1 H) as (T2 & O2 & D2 & C2). repeat split; congruence.
Qed.

Lemma nothing_to_start (N delay : Z) (paused sig : bool) (n : nat) :
  (N <= 0)%Z \/ n = 0 ->
  processItems N delay paused sig n = fresh N delay paused sig n.
Proof.
  intros H. unfold processItems, initial_batch. cbn.
  replace (Z.to_nat (Z.min N (Z.of_nat n))) with 0 by lia. reflexivity.
Qed.

End LimiterRunFacts.

(** * Facts about every run of the engine *)
Module EngineRunFacts.
Import JS Auditors AuditEngine RateLimiterSpec RateLimiterFacts AuditEngineSpec AuditEngineFacts.
Import AuditorSpec FindingSpec FindingFacts LimiterRunSpec LimiterRunFacts EngineRunSpec.
Local Open Scope nat_scope.

(** ** The table of workers, without assuming distinct keys *)

Lemma pending_drop_le i ws : pending (drop i ws) <= pending ws.
Proof.
  unfold pending, drop. induction ws as [|[k st] ws IH]; cbn; auto.
  destruct (k =? i); cbn; destruct (unsettled st); cbn; lia.
Qed.

Lemma pending_drop_unsettled i ws st :
  stage_in i ws = Some st -> unsettled st = true ->
  pending (drop i ws) + 1 <= pending ws.
Proof.
  unfold stage_in, pending, drop. induction ws as [|[k st'] ws IH]; cbn; [discriminate|].
  destruct (k =? i) eqn:E; cbn.
  - intros H U. inversion H; subst. rewrite U. cbn.
    pose proof (pending_drop_le i ws) as L. unfold pending, drop in L. lia.
  - intros H U. specialize (IH H U). destruct (unsettled st'); cbn; lia.
Qed.

Lemma pending_restage i st ws :
  pending (drop i ws ++ [(i, st)]) = pending (drop i ws) + (if unsettled st then 1 else 0).
Proof.
  rewrite pending_app. unfold pending at 2. cbn. destruct (unsettled st); reflexivity.
Qed.

Lemma fine_drop us i ws :
  Forall (stage_fine us) ws -> Forall (stage_fine us) (drop i ws).
Proof.
  intros H. apply Forall_forall. intros w Hw. apply filter_In in Hw as [Hw _].
  rewrite Forall_forall in H. auto.
Qed.

Lemma fine_restage us i st ws :
  Forall (stage_fine us) ws -> stage_fine us (i, st) ->
  Forall (stage_fine us) (drop i ws ++ [(i, st)]).
Proof.
  intros H F. apply Forall_app. split; [apply fine_drop, H|]. constructor; auto.
Qed.

Lemma stage_in_fine us i ws st :
  Forall (stage_fine us) ws -> stage_in i ws = Some st -> stage_fine us (i, st).
Proof.
  unfold stage_in. intros H E.
  destruct (find (fun w => fst w =? i) ws) as [[k st']|] eqn:F; [|discriminate].
  cbn in E. inversion E; subst. apply find_some in F as [Hin Hk].
  cbn in Hk. apply Nat.eqb_eq in Hk. subst k.
  rewrite Forall_forall in H. exact (H _ Hin).
Qed.

(** ** The fields after each part of processUrl *)

Lemma finish_fields i rs s :
  limiter (finish i rs s) = limiter s
  /\ isPaused (finish i rs s) = isPaused s
  /\ urls (finish i rs s) = urls s
  /\ completed (finish i rs s) = S (completed s)
  /\ workers (finish i rs s) = (drop i (workers s) ++ [(i, Settled)])%list
  /\ log (finish i rs s)
     = (log s ++ match rs with [] => [] | _ => [OnResults rs] end
        ++ [OnProgress i End
              (if S (completed s) <? List.length (urls s)
               then nth (S (completed s)) (urls s) EmptyString else EmptyString)
              (S (completed s)) (List.length (urls s))])%list.
Proof.
  unfold finish. destruct rs; cbn; repeat split; auto.
  rewrite <- app_assoc. reflexivity.
Qed.

Lemma filter_snoc {A} (f : A -> bool) (l : list A) (x : A) :
  filter f (l ++ [x]) = (filter f l ++ if f x then [x] else [])%list.
Proof. rewrite filter_app. cbn. destruct (f x); reflexivity. Qed.

Lemma shown_snoc l e : shown (l ++ [e]) = shown_after (shown l) e.
Proof. unfold shown. rewrite fold_left_app. reflexivity. Qed.

Lemma steady_emit N e s :
  steady N s -> event_ok (urls s) e -> is_end e = false -> is_final e = false ->
  shown_after (completed s) e = completed s ->
  steady N (emit e s).
Proof.
  intros [] Ok E F Sh. constructor; cbn; auto.
  - apply Forall_app. split; auto.
  - rewrite filter_snoc, E, app_nil_r. exact t_ends0.
  - change (shown (log s ++ [e]) = completed s).
    rewrite shown_snoc, t_shown0. exact Sh.
  - unfold finals_ok in *. cbn. rewrite filter_snoc, F, app_nil_r. exact t_finals0.
Qed.

Lemma steady_set_stage N i st s :
  steady N s -> stage_fine (urls s) (i, st) ->
  completed s + pending (drop i (workers s)) + (if unsettled st then 1 else 0)
  <= RateLimiter.completed (limiter s) ->
  steady N (set_stage i st s).
Proof.
  intros [] F C. constructor; cbn -[pending drop]; auto.
  - rewrite pending_restage. lia.
  - apply fine_restage; auto.
Qed.

Lemma limit_le N s :
  steady N s -> RateLimiter.completed (limiter s) <= List.length (urls s).
Proof.
  intros []. pose proof (g_le _ _ _ t_good0) as L.
  rewrite (g_len _ _ _ t_good0) in L. exact L.
Qed.

Lemma steady_finish N i rs s :
  steady N s -> i < List.length (urls s) ->
  Forall (fun x => fullUrl x = nth i (urls s) EmptyString) rs ->
  completed s + pending (drop i (workers s)) + 1 <= RateLimiter.completed (limiter s) ->
  steady N (finish i rs s).
Proof.
  intros S0 I R C. pose proof (limit_le _ _ S0) as L. destruct S0.
  destruct (finish_fields i rs s) as (Fl & Fp & Fu & Fc & Fw & Fg).
  constructor; rewrite ?Fl, ?Fp, ?Fu, ?Fc, ?Fw, ?Fg; auto.
  - rewrite pending_restage. cbn. lia.
  - apply fine_restage; auto. split; cbn; auto.
  - apply Forall_app. split; auto. apply Forall_app. split.
    + destruct rs as [|r rs']; constructor; [|constructor].
      split; [discriminate|]. eapply Forall_impl; [|exact R].
      cbn. intros x ->. apply nth_In. exact I.
    + constructor; [|constructor]. cbn. repeat split; auto; lia.
  - rewrite !filter_app, !map_app.
    assert (Z : filter is_end match rs with [] => [] | _ :: _ => [OnResults rs] end = []).
    { destruct rs; reflexivity. }
    rewrite Z. cbn [filter is_end map reported app]. rewrite t_ends0.
    symmetry. exact (seq_S (completed s) 1).
  - rewrite app_assoc, shown_snoc. reflexivity.
  - unfold finals_ok in *. rewrite Fl, Fg, ?Fu. unfold aborted in *. rewrite ?Fl.
    rewrite !filter_app.
    assert (Z : filter is_final match rs with [] => [] | _ :: _ => [OnResults rs] end = []).
    { destruct rs; reflexivity. }
    rewrite Z. cbn [filter is_final app]. rewrite app_nil_r. exact t_finals0.
Qed.

Lemma steady_auditUrl N i k acc s :
  steady N s -> i < List.length (urls s) ->
  Forall (fun x => fullUrl x = nth i (urls s) EmptyString) acc ->
  completed s + pending (drop i (workers s)) + 1 <= RateLimiter.completed (limiter s) ->
  steady N (auditUrl i k acc s).
Proof.
  intros S0 I R C. unfold auditUrl.
  destruct (nth_error auditors k); [|apply steady_finish; auto].
  destruct (aborted s); [apply steady_finish; auto|].
  apply steady_set_stage; auto. split; cbn; auto.
Qed.

Lemma steady_audit_item N i s :
  steady N s -> i < List.length (urls s) ->
  completed s + pending (drop i (workers s)) + 1 <= RateLimiter.completed (limiter s) ->
  steady N (audit_item i s).
Proof.
  intros S0 I C. pose proof (limit_le _ _ S0) as L. unfold audit_item.
  apply steady_auditUrl; auto.
  apply steady_emit; auto. cbn. repeat split; auto; lia.
Qed.

Lemma steady_wait N i s :
  steady N s -> i < List.length (urls s) ->
  completed s + pending (drop i (workers s)) + 1 <= RateLimiter.completed (limiter s) ->
  steady N (wait_if_paused i s).
Proof.
  intros S0 I C. unfold wait_if_paused.
  destruct (isPaused s && negb (aborted s)); [|apply steady_audit_item; auto].
  apply steady_set_stage; auto. split; cbn; auto.
Qed.

Lemma steady_processUrl N i s :
  steady N s -> i < List.length (urls s) ->
  completed s + pending (drop i (workers s)) + 1 <= RateLimiter.completed (limiter s) ->
  steady N (processUrl i s).
Proof.
  intros S0 I C. unfold processUrl.
  destruct (aborted s); [|apply steady_wait; auto].
  apply steady_set_stage; auto; [split; cbn; auto|cbn; lia].
Qed.

(** ** The limiter moves *)

Lemma steady_move N s rl :
  steady N s -> good N (List.length (urls s)) rl ->
  RateLimiter.isPaused rl = RateLimiter.isPaused (limiter s) ->
  RateLimiter.isCancelled rl = RateLimiter.isCancelled (limiter s) ->
  RateLimiter.aborted rl = RateLimiter.aborted (limiter s) ->
  RateLimiter.completed (limiter s) <= RateLimiter.completed rl ->
  (RateLimiter.outcome rl = RateLimiter.outcome (limiter s)
   \/ (RateLimiter.outcome (limiter s) = RateLimiter.Pending
       /\ RateLimiter.outcome rl = RateLimiter.Resolved
       /\ RateLimiter.items_length rl <= RateLimiter.completed rl)
   \/ (RateLimiter.outcome (limiter s) = RateLimiter.Pending
       /\ RateLimiter.outcome rl = RateLimiter.Rejected /\ stopped rl = true)) ->
  steady N (startAudit_continues (RateLimiter.outcome (limiter s)) (set_limiter rl s)).
Proof.
  intros [] G P C A K O.
  assert (Ab : stopped rl = true -> RateLimiter.aborted rl = true).
  { unfold stopped. rewrite C, t_cancel0, A. destruct (RateLimiter.aborted (limiter s)); auto. }
  unfold startAudit_continues. cbn [limiter set_limiter].
  unfold finals_ok, aborted in t_finals0.
  destruct O as [O|[(O1 & O2 & O3)|(O1 & O2 & O3)]].
  - rewrite O.
    assert (E : match RateLimiter.outcome (limiter s) with
                | RateLimiter.Pending =>
                    match RateLimiter.outcome (limiter s) with
                    | RateLimiter.Pending => set_limiter rl s
                    | RateLimiter.Resolved => emit OnComplete (set_limiter rl s)
                    | RateLimiter.Rejected =>
                        if negb (String.eqb (name RateLimiter.rejection) "AbortError")
                        then emit (OnError "system" (message RateLimiter.rejection))
                                  (set_limiter rl s)
                        else set_limiter rl s
                    end
                | _ => set_limiter rl s
                end = set_limiter rl s).
    { destruct (RateLimiter.outcome (limiter s)); reflexivity. }
    rewrite E. constructor; cbn -[pending]; auto; try congruence; try lia.
    unfold finals_ok, aborted. cbn. rewrite O, A.
    destruct (RateLimiter.outcome (limiter s)); auto.
    destruct t_finals0. split; auto. lia.
  - rewrite O1, O2. rewrite O1 in t_finals0.
    constructor; cbn -[pending]; auto; try congruence; try lia.
    + apply Forall_app. split; auto. constructor; [exact I|constructor].
    + rewrite filter_snoc. cbn. rewrite app_nil_r. exact t_ends0.
    + unfold shown in *. rewrite fold_left_app. exact t_shown0.
    + unfold finals_ok. cbn. rewrite O2, filter_snoc, t_finals0.
      split; [reflexivity|]. rewrite <- (g_len _ _ _ G). exact O3.
  - rewrite O1, O2. rewrite O1 in t_finals0. cbn [negb String.eqb name message
      RateLimiter.rejection new_Error].
    change (negb (String.eqb (name RateLimiter.rejection) "AbortError")) with true.
    cbn iota.
    constructor; cbn -[pending]; auto; try congruence; try lia.
    + apply Forall_app. split; auto. constructor; [|constructor]. cbn. auto.
    + rewrite filter_snoc. cbn. rewrite app_nil_r. exact t_ends0.
    + unfold shown in *. rewrite fold_left_app. exact t_shown0.
    + unfold finals_ok, aborted. cbn. rewrite O2, filter_snoc, t_finals0.
      split; [reflexivity|auto].
Qed.

Lemma urls_continues b s : urls (startAudit_continues b s) = urls s.
Proof.
  unfold startAudit_continues.
  destruct b, (RateLimiter.outcome (limiter s)); auto.
Qed.

Lemma completed_continues b s : completed (startAudit_continues b s) = completed s.
Proof.
  unfold startAudit_continues.
  destruct b, (RateLimiter.outcome (limiter s)); auto.
Qed.

(** A call of processNext that hands item i to processUrl. *)
Lemma steady_claim N s rl i :
  steady N s -> good N (List.length (urls s)) rl ->
  RateLimiter.isPaused rl = RateLimiter.isPaused (limiter s) ->
  RateLimiter.isCancelled rl = RateLimiter.isCancelled (limiter s) ->
  RateLimiter.aborted rl = RateLimiter.aborted (limiter s) ->
  i = RateLimiter.completed (limiter s) -> RateLimiter.completed rl = S i ->
  RateLimiter.outcome rl = RateLimiter.outcome (limiter s) ->
  steady N (processUrl i (startAudit_continues (RateLimiter.outcome (limiter s))
                            (set_limiter rl s))).
Proof.
  intros S0 G P C A I K O.
  assert (S1 : steady N (startAudit_continues (RateLimiter.outcome (limiter s))
                           (set_limiter rl s))).
  { apply steady_move; auto. lia. }
  pose proof (t_count _ _ S0) as Cn.
  pose proof (g_le _ _ _ G) as Le. rewrite (g_len _ _ _ G) in Le.
  pose proof (pending_drop_le i (workers s)) as D.
  apply steady_processUrl; auto;
    rewrite ?urls_continues, ?completed_continues, ?workers_continues,
      ?limiter_continues; cbn -[pending drop]; lia.
Qed.

Lemma steady_idle N l s s' :
  idle l = true -> limiter_steps l s = Some s' -> steady N s -> steady N s'.
Proof.
  intros Hi H S0. unfold limiter_steps in H.
  assert (X : exists rl, RateLimiter.exec l (limiter s) = Some rl
                         /\ s' = match RateLimiter.claims l (limiter s) with
                                 | Some i =>
                                     processUrl i
                                       (startAudit_continues
                                          (RateLimiter.outcome (limiter s))
                                          (set_limiter rl s))
                                 | None =>
                                     startAudit_continues
                                       (RateLimiter.outcome (limiter s))
                                       (set_limiter rl s)
                                 end).
  { destruct l; try discriminate;
      (destruct (RateLimiter.exec _ (limiter s)) as [rl|]; [|discriminate]);
      inversion H; eauto. }
  clear H. destruct X as (rl & E & ->).
  pose proof (good_exec _ _ _ _ _ E (t_good _ _ S0)) as G.
  destruct (exec_effect _ _ _ Hi E) as ([Fp Fc Fa] & Eff).
  pose proof (moves_step _ _ _ E) as M.
  destruct (RateLimiter.claims l (limiter s)) as [i|].
  - destruct Eff as (I & K & _ & O). eapply steady_claim; eauto.
  - destruct Eff as (K & _). apply steady_move; auto. lia.
Qed.

Lemma steady_settled N i s s' :
  limiter_steps (RateLimiter.LSettle i) s = Some s' -> steady N s -> steady N s'.
Proof.
  intros H S0. unfold limiter_steps in H.
  destruct (stage_of i s) as [[]|]; try discriminate.
  destruct (RateLimiter.exec (RateLimiter.LSettle i) (limiter s)) as [rl|] eqn:E;
    [|discriminate].
  inversion H; subst. clear H.
  pose proof (good_exec _ _ _ _ _ E (t_good _ _ S0)) as G.
  destruct (settle_effect _ _ _ E) as ([Fp Fc Fa] & K & O & _).
  pose proof (pending_drop_le i (workers s)) as D.
  destruct S0. constructor; cbn -[pending drop]; auto; try congruence; try lia.
  - apply fine_drop; auto.
  - unfold finals_ok, aborted in *. cbn. rewrite O, Fa, K. exact t_finals0.
Qed.

Lemma steady_polls N i s s' :
  worker_polls i s = Some s' -> steady N s -> steady N s'.
Proof.
  intros H S0. unfold worker_polls in H.
  destruct (stage_of i s) as [[]|] eqn:E; try discriminate.
  inversion H; subst. clear H.
  destruct (stage_in_fine _ _ _ _ (t_workers _ _ S0) E) as [I _]. cbn in I.
  pose proof (pending_drop_unsettled _ _ _ E eq_refl) as D.
  pose proof (t_count _ _ S0) as C.
  apply steady_wait; auto. lia.
Qed.

Lemma steady_response N i r s s' :
  response_arrives i r s = Some s' -> steady N s -> steady N s'.
Proof.
  intros H S0. unfold response_arrives in H.
  destruct (stage_of i s) as [[|k acc|]|] eqn:E; try discriminate.
  destruct (nth_error auditors k) as [a|]; [|discriminate].
  inversion H; subst. clear H.
  destruct (stage_in_fine _ _ _ _ (t_workers _ _ S0) E) as [I A]. cbn in I, A.
  pose proof (pending_drop_unsettled _ _ _ E eq_refl) as D.
  pose proof (t_count _ _ S0) as C.
  apply steady_auditUrl; auto; [|lia].
  destruct (audit_yields a (url i s) (signal s) r) as (rs & -> & Y).
  apply Forall_app. split; auto.
  eapply Forall_impl; [|exact Y]. cbn. intros x [X _]. exact X.
Qed.

Lemma steady_call N m s : steady N s -> steady N (call m s).
Proof.
  intros []. destruct m; constructor; cbn -[pending]; auto;
    try (destruct t_good0; constructor; auto; fail);
    try (apply Forall_app; split; auto; constructor; [exact I|constructor]);
    try (rewrite filter_snoc, app_nil_r; exact t_ends0);
    try (unfold shown in *; rewrite fold_left_app; exact t_shown0);
    unfold finals_ok, aborted in *; cbn; rewrite filter_snoc, app_nil_r;
    destruct (RateLimiter.outcome (limiter s)); tauto.
Qed.

Lemma steady_exec N l s s' : exec l s = Some s' -> steady N s -> steady N s'.
Proof.
  destruct l as [l|i|i r|m]; cbn [exec]; intros H S0.
  - destruct l; try discriminate;
      first [ eapply steady_idle; eauto; reflexivity
            | eapply steady_settled; eauto ].
  - eapply steady_polls; eauto.
  - eapply steady_response; eauto.
  - inversion H; subst. apply steady_call, S0.
Qed.

Lemma steady_execs N ls : forall s s',
  execs ls s = Some s' -> steady N s -> steady N s'.
Proof.
  induction ls as [|l r IH]; cbn [execs]; intros s s' H S0.
  - inversion H; subst. exact S0.
  - destruct (exec l s) as [s1|] eqn:E; [|discriminate].
    eauto using steady_exec.
Qed.

Lemma steady_call_processNext N s : steady N s -> steady N (call_processNext s).
Proof.
  intros S0. unfold call_processNext.
  pose proof (processNext_effect (limiter s)) as [[Fp Fc Fa] Eff].
  pose proof (good_processNext _ _ _ (t_good _ _ S0)) as G.
  pose proof (moves_processNext (limiter s)) as M.
  destruct (RateLimiter.processNext (limiter s)) as [rl [i|]]; cbn [fst snd] in *.
  - destruct Eff as (I & K & _ & O). eapply steady_claim; eauto.
  - destruct Eff as (K & _). apply steady_move; auto. lia.
Qed.

Lemma steady_initial_batch N k : forall s, steady N s -> steady N (initial_batch k s).
Proof. induction k; cbn [initial_batch]; auto using steady_call_processNext. Qed.

Lemma steady_startAudit N d us : (0 <= N)%Z -> steady N (startAudit N d us).
Proof.
  intros HN. unfold startAudit. apply steady_initial_batch.
  constructor; cbn; auto.
  constructor; cbn; auto; try lia; constructor.
Qed.

(** ** A paused engine *)

Lemma continues_same b s :
  b = RateLimiter.outcome (limiter s) -> startAudit_continues b s = s.
Proof.
  intros ->. unfold startAudit_continues.
  destruct (RateLimiter.outcome (limiter s)); reflexivity.
Qed.

Lemma starts_finish i rs s :
  filter is_start (log (finish i rs s)) = filter is_start (log s).
Proof.
  destruct (finish_fields i rs s) as (_ & _ & _ & _ & _ & ->).
  rewrite !filter_app. destruct rs; cbn; rewrite ?app_nil_r; reflexivity.
Qed.

Lemma paused_finish i rs s :
  isPaused (finish i rs s) = isPaused s /\ aborted (finish i rs s) = aborted s.
Proof.
  destruct (finish_fields i rs s) as (Fl & Fp & _). unfold aborted. rewrite Fl. auto.
Qed.

Lemma paused_engine_step N l s s' :
  steady N s -> isPaused s = true -> aborted s = false ->
  stays_paused l = true -> exec l s = Some s' ->
  isPaused s' = true /\ aborted s' = false
  /\ filter is_start (log s') = filter is_start (log s)
  /\ RateLimiter.completed (limiter s') = RateLimiter.completed (limiter s).
Proof.
  intros S0 P A K H.
  assert (Pl : RateLimiter.isPaused (limiter s) = true)
    by (rewrite <- (t_paused _ _ S0); exact P).
  assert (Cl : RateLimiter.isCancelled (limiter s) = false)
    by (rewrite (t_cancel _ _ S0); exact A).
  destruct l as [l|i|i r|m]; cbn [exec] in H.
  - unfold limiter_steps in H.
    destruct l; try discriminate.
    + destruct (RateLimiter.exec RateLimiter.LTimer (limiter s)) as [rl|] eqn:E;
        [|discriminate].
      destruct (paused_step RateLimiter.LTimer _ _ Pl Cl A eq_refl E) as (P1 & C1 & A1 & _ & M1 & O1).
      destruct (exec_effect RateLimiter.LTimer _ _ eq_refl E) as (_ & Eff).
      destruct (RateLimiter.claims RateLimiter.LTimer (limiter s)) as [j|];
        [destruct Eff as (? & ? & _); lia|].
      inversion H; subst. rewrite continues_same by (cbn; auto).
      unfold aborted. cbn. repeat split; auto.
    + destruct (RateLimiter.exec RateLimiter.LPoll (limiter s)) as [rl|] eqn:E;
        [|discriminate].
      destruct (paused_step RateLimiter.LPoll _ _ Pl Cl A eq_refl E) as (P1 & C1 & A1 & _ & M1 & O1).
      destruct (exec_effect RateLimiter.LPoll _ _ eq_refl E) as (_ & Eff).
      destruct (RateLimiter.claims RateLimiter.LPoll (limiter s)) as [j|];
        [destruct Eff as (? & ? & _); lia|].
      inversion H; subst. rewrite continues_same by (cbn; auto).
      unfold aborted. cbn. repeat split; auto.
    + destruct (stage_of item s) as [[]|]; try discriminate.
      destruct (RateLimiter.exec (RateLimiter.LSettle item) (limiter s)) as [rl|] eqn:E;
        [|discriminate].
      destruct (paused_step (RateLimiter.LSettle item) _ _ Pl Cl A eq_refl E) as (P1 & C1 & A1 & _ & M1 & O1).
      inversion H; subst. unfold aborted. cbn. repeat split; auto.
    + destruct (RateLimiter.exec RateLimiter.LDelay (limiter s)) as [rl|] eqn:E;
        [|discriminate].
      destruct (paused_step RateLimiter.LDelay _ _ Pl Cl A eq_refl E) as (P1 & C1 & A1 & _ & M1 & O1).
      destruct (exec_effect RateLimiter.LDelay _ _ eq_refl E) as (_ & Eff).
      destruct (RateLimiter.claims RateLimiter.LDelay (limiter s)) as [j|];
        [destruct Eff as (? & ? & _); lia|].
      inversion H; subst. rewrite continues_same by (cbn; auto).
      unfold aborted. cbn. repeat split; auto.
  - unfold worker_polls in H. destruct (stage_of i s) as [[]|]; try discriminate.
    inversion H; subst. unfold wait_if_paused. rewrite P, A. cbn. auto.
  - unfold response_arrives in H.
    destruct (stage_of i s) as [[|k acc|]|]; try discriminate.
    destruct (nth_error auditors k) as [a|]; [|discriminate].
    inversion H; subst. unfold auditUrl.
    destruct (nth_error auditors (S k)).
    + rewrite A. cbn. auto.
    + rewrite starts_finish. destruct (paused_finish i
        (match audit a (url i s) (signal s) r with
         | Normal results => acc ++ results
         | Throw _ => acc
         end)%list s) as [-> ->].
      destruct (finish_fields i
        (match audit a (url i s) (signal s) r with
         | Normal results => acc ++ results
         | Throw _ => acc
         end)%list s) as (-> & _). auto.
  - destruct m; try discriminate. inversion H; subst. unfold aborted. cbn.
    rewrite filter_snoc. cbn. rewrite app_nil_r. auto.
Qed.

Lemma paused_engine_steps N ls : forall s s',
  steady N s -> isPaused s = true -> aborted s = false ->
  forallb stays_paused ls = true -> execs ls s = Some s' ->
  isPaused s' = true /\ aborted s' = false
  /\ filter is_start (log s') = filter is_start (log s)
  /\ RateLimiter.completed (limiter s') = RateLimiter.completed (limiter s).
Proof.
  induction ls as [|l r IH]; intros s s' S0 P A K H.
  - inversion H; subst. auto.
  - cbn [forallb] in K. apply andb_prop in K as [K1 K2]. cbn [execs] in H.
    destruct (exec l s) as [s1|] eqn:E; [|discriminate].
    destruct (paused_engine_step _ _ _ _ S0 P A K1 E) as (P1 & A1 & L1 & C1).
    destruct (IH _ _ (steady_exec _ _ _ _ E S0) P1 A1 K2 H) as (P2 & A2 & L2 & C2).
    repeat split; congruence.
Qed.

(** ** A cancelled engine *)

Lemma waits_drop_le i ws :
  List.length (filter waits (drop i ws)) <= List.length (filter waits ws).
Proof.
  unfold drop. induction ws as [|[k st] ws IH]; cbn [filter]; auto.
  cbn [fst]. destruct (k =? i); cbn [negb filter]; destruct (waits (k, st));
    cbn [List.length]; lia.
Qed.

Lemma waits_drop_paused i ws :
  stage_in i ws = Some Paused ->
  List.length (filter waits (drop i ws)) + 1 <= List.length (filter waits ws).
Proof.
  unfold stage_in, drop. induction ws as [|[k st] ws IH]; cbn [find filter];
    [discriminate|].
  cbn [fst]. destruct (k =? i) eqn:E; cbn [negb filter option_map snd].
  - intros H. inversion H; subst. change (waits (k, Paused)) with true.
    cbn [List.length]. pose proof (waits_drop_le i ws) as L. unfold drop in L. lia.
  - intros H. specialize (IH H). destruct (waits (k, st)); cbn [List.length]; lia.
Qed.

Lemma waits_restage i st s :
  paused_workers (set_stage i st s)
  = List.length (filter waits (drop i (workers s))) + (if waits (i, st) then 1 else 0).
Proof.
  unfold paused_workers. cbn. rewrite filter_app, length_app. cbn.
  destruct (waits (i, st)); reflexivity.
Qed.

Lemma cancelled_finish i rs s :
  aborted (finish i rs s) = aborted s
  /\ filter is_start (log (finish i rs s)) = filter is_start (log s)
  /\ paused_workers (finish i rs s) = List.length (filter waits (drop i (workers s))).
Proof.
  destruct (paused_finish i rs s) as [_ A]. split; [exact A|].
  split; [apply starts_finish|].
  destruct (finish_fields i rs s) as (_ & _ & _ & _ & W & _).
  unfold paused_workers. rewrite W, filter_app, length_app. cbn. lia.
Qed.

Lemma cancelled_continues b s :
  aborted (startAudit_continues b s) = aborted s
  /\ filter is_start (log (startAudit_continues b s)) = filter is_start (log s)
  /\ workers (startAudit_continues b s) = workers s.
Proof.
  unfold startAudit_continues.
  destruct b, (RateLimiter.outcome (limiter s)); cbn; auto;
    rewrite filter_snoc; cbn; rewrite app_nil_r; auto.
Qed.

Lemma cancelled_engine_step l s s' :
  aborted s = true -> exec l s = Some s' ->
  aborted s' = true
  /\ List.length (filter is_start (log s')) + paused_workers s'
     <= List.length (filter is_start (log s)) + paused_workers s.
Proof.
  intros A H.
  assert (Idle : forall l', idle l' = true -> limiter_steps l' s = Some s' ->
            aborted s' = true
            /\ List.length (filter is_start (log s')) + paused_workers s'
               <= List.length (filter is_start (log s)) + paused_workers s).
  { intros l' Hi H'. unfold limiter_steps in H'.
    assert (X : exists rl, RateLimiter.exec l' (limiter s) = Some rl
                /\ s' = match RateLimiter.claims l' (limiter s) with
                        | Some i =>
                            processUrl i
                              (startAudit_continues (RateLimiter.outcome (limiter s))
                                 (set_limiter rl s))
                        | None =>
                            startAudit_continues (RateLimiter.outcome (limiter s))
                              (set_limiter rl s)
                        end).
    { destruct l'; try discriminate;
        (destruct (RateLimiter.exec _ (limiter s)) as [rl|]; [|discriminate]);
        inversion H'; eauto. }
    destruct X as (rl & E & ->).
    destruct (exec_effect _ _ _ Hi E) as ([Fp Fc Fa] & _).
    destruct (cancelled_continues (RateLimiter.outcome (limiter s)) (set_limiter rl s))
      as (A1 & L1 & W1).
    assert (A2 : aborted (startAudit_continues (RateLimiter.outcome (limiter s))
                            (set_limiter rl s)) = true).
    { rewrite A1. unfold aborted in *. cbn. congruence. }
    destruct (RateLimiter.claims l' (limiter s)) as [i|].
    - unfold processUrl. rewrite A2. split; [exact A2|].
      rewrite waits_restage, W1. cbn [log set_stage set_workers].
      rewrite L1. cbn. pose proof (waits_drop_le i (workers s)) as Wd; unfold drop in *. unfold paused_workers.
      cbn. lia.
    - split; [exact A2|]. rewrite L1. unfold paused_workers. rewrite W1. cbn. lia. }
  destruct l as [l|i|i r|m]; cbn [exec] in H.
  - destruct l as [| |item| | | | |];
      [ apply (Idle RateLimiter.LTimer eq_refl H)
      | apply (Idle RateLimiter.LPoll eq_refl H)
      |
      | apply (Idle RateLimiter.LDelay eq_refl H)
      | cbn in H; discriminate .. ].
    unfold limiter_steps in H.
    destruct (stage_of item s) as [[]|]; try discriminate.
    destruct (RateLimiter.exec (RateLimiter.LSettle item) (limiter s)) as [rl|] eqn:E;
      [|discriminate].
    destruct (settle_effect _ _ _ E) as ([Fp Fc Fa] & _).
    inversion H; subst. unfold aborted in *. cbn. split; [congruence|].
    pose proof (waits_drop_le item (workers s)) as Wd; unfold drop in *. unfold paused_workers. cbn. lia.
  - unfold worker_polls in H. destruct (stage_of i s) as [[]|] eqn:E; try discriminate.
    inversion H; subst. unfold wait_if_paused. rewrite A, andb_false_r.
    unfold audit_item, auditUrl. cbn [nth_error auditors].
    change (aborted (emit (OnProgress i Start (url i s) (completed s)
                             (List.length (urls s))) s)) with (aborted s).
    rewrite A.
    destruct (cancelled_finish i []
                (emit (OnProgress i Start (url i s) (completed s)
                         (List.length (urls s))) s)) as (-> & -> & ->).
    cbn. split; [exact A|]. rewrite filter_snoc, length_app. cbn.
    pose proof (waits_drop_paused _ _ E) as Wd; unfold drop in *. unfold paused_workers. lia.
  - unfold response_arrives in H.
    destruct (stage_of i s) as [[|k acc|]|]; try discriminate.
    destruct (nth_error auditors k) as [a|]; [|discriminate].
    inversion H; subst. unfold auditUrl. rewrite A.
    assert (F : forall rs, aborted (finish i rs s) = true
                /\ List.length (filter is_start (log (finish i rs s)))
                   + paused_workers (finish i rs s)
                   <= List.length (filter is_start (log s)) + paused_workers s).
    { intros rs. destruct (cancelled_finish i rs s) as (-> & -> & ->).
      split; [exact A|]. pose proof (waits_drop_le i (workers s)) as Wd; unfold drop in *.
      unfold paused_workers. lia. }
    destruct (nth_error auditors (S k)); apply F.
  - inversion H; subst. unfold aborted in *.
    destruct m; cbn; rewrite filter_snoc; cbn; rewrite app_nil_r;
      unfold paused_workers; cbn; auto.
Qed.

Lemma cancelled_engine_steps ls : forall s s',
  aborted s = true -> execs ls s = Some s' ->
  aborted s' = true
  /\ List.length (filter is_start (log s')) + paused_workers s'
     <= List.length (filter is_start (log s)) + paused_workers s.
Proof.
  induction ls as [|l r IH]; intros s s' A H.
  - inversion H; subst. auto.
  - cbn [execs] in H. destruct (exec l s) as [s1|] eqn:E; [|discriminate].
    destruct (cancelled_engine_step _ _ _ A E) as (A1 & B1).
    destruct (IH _ _ A1 H) as (A2 & B2). split; auto. lia.
Qed.

(** ** Nothing to audit *)

Lemma engine_idle l s s' :
  RateLimiter.tasks (limiter s) = [] -> workers s = [] -> exec l s = Some s' ->
  RateLimiter.tasks (limiter s') = [] /\ workers s' = []
  /\ completed s' = completed s
  /\ RateLimiter.outcome (limiter s') = RateLimiter.outcome (limiter s)
  /\ (forallb is_call (log s) = true -> forallb is_call (log s') = true).
Proof.
  intros T W H. destruct l as [l|i|i r|m]; cbn [exec] in H.
  - unfold limiter_steps, stage_of in H. rewrite W in H.
    destruct l; cbn in H; unfold RateLimiter.resume_task in H;
      rewrite ?T in H; cbn in H; discriminate.
  - unfold worker_polls, stage_of in H. rewrite W in H. discriminate.
  - unfold response_arrives, stage_of in H. rewrite W in H. discriminate.
  - inversion H; subst. destruct m; cbn; repeat split; auto;
      intros L; rewrite forallb_app, L; reflexivity.
Qed.

Lemma engine_idle_steps ls : forall s s',
  RateLimiter.tasks (limiter s) = [] -> workers s = [] -> execs ls s = Some s' ->
  RateLimiter.tasks (limiter s') = [] /\ workers s' = []
  /\ completed s' = completed s
  /\ RateLimiter.outcome (limiter s') = RateLimiter.outcome (limiter s)
  /\ (forallb is_call (log s) = true -> forallb is_call (log s') = true).
Proof.
  induction ls as [|l r IH]; intros s s' T W H.
  - inversion H; subst. auto.
  - cbn [execs] in H. destruct (exec l s) as [s1|] eqn:E; [|discriminate].
    destruct (engine_idle _ _ _ T W E) as (T1 & W1 & C1 & O1 & L1).
    destruct (IH _ _ T1 W1 H) as (T2 & W2 & C2 & O2 & L2).
    repeat split; auto; congruence.
Qed.

Lemma nothing_to_audit (N d : Z) (us : list string) :
  (N <= 0)%Z \/ us = [] ->
  startAudit N d us
  = mk (RateLimiter.fresh N d false false (List.length us)) false us 0 [] [].
Proof.
  intros H. unfold startAudit, RateLimiter.initial_batch. cbn.
  replace (Z.to_nat (Z.min N (Z.of_nat (List.length us)))) with 0; [reflexivity|].
  destruct H as [H| ->]; cbn; lia.
Qed.

Lemma calls_only us l :
  forallb is_call l = true ->
  Forall (event_ok us) l /\ filter is_end l = [] /\ filter is_final l = []
  /\ filter is_start l = [] /\ shown l = 0.
Proof.
  unfold shown. induction l as [|e l IH]; cbn [forallb]; intros H.
  - repeat split; auto.
  - apply andb_prop in H as [He Hl]. destruct (IH Hl) as (A & B & C & D & E).
    destruct e; try discriminate. cbn. repeat split; auto.
    constructor; [exact I|exact A].
Qed.

(** ** A paused engine that has nothing to do *)

Lemma paused_idle_step l s s' :
  RateLimiter.tasks (limiter s) = [] -> workers s = [] ->
  isPaused s = true -> stays_paused l = true -> exec l s = Some s' ->
  isPaused s' = true
  /\ filter is_start (log s') = filter is_start (log s)
  /\ RateLimiter.completed (limiter s') = RateLimiter.completed (limiter s).
Proof.
  intros T W P K H. destruct l as [l|i|i r|m]; cbn [exec] in H.
  - unfold limiter_steps, stage_of in H. rewrite W in H.
    destruct l; cbn in H; unfold RateLimiter.resume_task in H;
      rewrite ?T in H; cbn in H; discriminate.
  - unfold worker_polls, stage_of in H. rewrite W in H. discriminate.
  - unfold response_arrives, stage_of in H. rewrite W in H. discriminate.
  - destruct m; try discriminate. inversion H; subst. cbn.
    rewrite filter_snoc. cbn. rewrite app_nil_r. auto.
Qed.

Lemma paused_idle_steps ls : forall s s',
  RateLimiter.tasks (limiter s) = [] -> workers s = [] ->
  isPaused s = true -> forallb stays_paused ls = true -> execs ls s = Some s' ->
  isPaused s' = true
  /\ filter is_start (log s') = filter is_start (log s)
  /\ RateLimiter.completed (limiter s') = RateLimiter.completed (limiter s).
Proof.
  induction ls as [|l r IH]; intros s s' T W P K H.
  - inversion H; subst. auto.
  - cbn [forallb] in K. apply andb_prop in K as [K1 K2]. cbn [execs] in H.
    destruct (exec l s) as [s1|] eqn:E; [|discriminate].
    destruct (paused_idle_step _ _ _ T W P K1 E) as (P1 & L1 & C1).
    destruct (engine_idle _ _ _ T W E) as (T1 & W1 & _).
    destruct (IH _ _ T1 W1 P1 K2 H) as (P2 & L2 & C2).
    repeat split; congruence.
Qed.

(** ** Every run of startAudit *)

(** A run either has a limiter that can work, and is steady, or has
    nothing to do, and only records the calls of the public methods. *)
Lemma run_cases N d us ls s :
  execs ls (startAudit N d us) = Some s ->
  urls s = us
  /\ ((0 < N)%Z /\ steady N s
      \/ ((N <= 0)%Z /\ RateLimiter.tasks (limiter s) = [] /\ workers s = []
          /\ completed s = 0
          /\ RateLimiter.outcome (limiter s) = RateLimiter.Pending
          /\ forallb is_call (log s) = true)).
Proof.
  intros H. split.
  - rewrite (urls_execs _ _ _ H). apply urls_startAudit.
  - destruct (Z.le_gt_cases N 0) as [L|L].
    + right. split; [exact L|].
      rewrite (nothing_to_audit N d us (or_introl L)) in H.
      destruct (engine_idle_steps ls
                  (mk (RateLimiter.fresh N d false false (List.length us))
                      false us 0 [] []) s eq_refl eq_refl H)
        as (T & W & C & O & G).
      repeat split; auto.
    + left. split; [lia|]. eapply steady_execs; [exact H|].
      apply steady_startAudit. lia.
Qed.

Lemma run_view N d us ls s :
  execs ls (startAudit N d us) = Some s ->
  urls s = us
  /\ Forall (event_ok us) (log s)
  /\ map reported (filter is_end (log s)) = seq 1 (completed s)
  /\ completed s <= List.length us
  /\ shown (log s) = completed s
  /\ finals_ok s.
Proof.
  intros H. destruct (run_cases _ _ _ _ _ H) as (U & [(L & S0)|(L & T & W & C & O & G)]).
  - pose proof (limit_le _ _ S0) as Le. destruct S0. rewrite U in *.
    repeat split; auto. lia.
  - destruct (calls_only us _ G) as (A & B & F & D & E).
    rewrite C, B, E. repeat split; auto; try lia.
    unfold finals_ok. rewrite O. exact F.
Qed.

(** ** The session kept by the reducer *)

Lemma results_of_snoc l e :
  results_of (l ++ [e])
  = (results_of l ++ match e with OnResults rs => rs | _ => [] end)%list.
Proof. unfold results_of. rewrite flat_map_app. cbn. rewrite app_nil_r. reflexivity. Qed.

Lemma observe_shape us l :
  Forall (event_ok us) l ->
  exists cur errs st,
    AuditContext.observe us l
    = AuditContext.mkApp
        (Some (AuditContext.mkSession us (results_of l) errs
                 (AuditContext.mkProgress cur (shown l) (List.length us) errs st)))
        us
    /\ List.length errs = List.length (filter is_error l).
Proof.
  induction l as [|e l IH] using rev_ind; intros F.
  - exists EmptyString, [], AuditContext.running. split; reflexivity.
  - apply Forall_app in F as [Fl Fe]. inversion Fe as [|? ? Ok _]; subst.
    destruct (IH Fl) as (cur & errs & st & E & Le).
    unfold AuditContext.observe in *. rewrite map_app, fold_left_app, E.
    rewrite results_of_snoc, shown_snoc, filter_snoc.
    destruct e as [i ph u c t|rs|u msg| |m]; cbn; rewrite ?app_nil_r.
    + destruct Ok as (_ & -> & _). eauto.
    + eauto.
    + do 3 eexists. split; [reflexivity|].
      rewrite !length_app, Le. reflexivity.
    + unfold AuditContext.with_status. cbn. eauto.
    + destruct m; cbn; unfold AuditContext.with_status; cbn; eauto.
Qed.

Lemma results_in_list us l :
  Forall (event_ok us) l -> Forall (fun x => In (fullUrl x) us) (results_of l).
Proof.
  induction l as [|e l IH]; intros F; [constructor|].
  inversion F as [|? ? Ok Fl]; subst. unfold results_of. cbn [flat_map].
  apply Forall_app. split; [|apply IH, Fl].
  destruct e; try constructor. destruct Ok as [_ R]. inversion R; subst; constructor; auto.
Qed.

Lemma errors_le_finals l :
  List.length (filter is_error l) <= List.length (filter is_final l).
Proof.
  induction l as [|e l IH]; cbn; auto. destruct e; cbn; lia.
Qed.

(** ** The pause loop of processUrl *)

Lemma claim_unpaused s :
  RateLimiter.isPaused s = true -> RateLimiter.isCancelled s = false ->
  RateLimiter.aborted s = false -> snd (RateLimiter.processNext s) = None.
Proof.
  intros P C A. unfold RateLimiter.processNext, RateLimiter.pause_loop.
  rewrite P, C, A. reflexivity.
Qed.

Lemma continues_flags b s :
  isPaused (startAudit_continues b s) = isPaused s
  /\ aborted (startAudit_continues b s) = aborted s.
Proof.
  unfold startAudit_continues.
  destruct b, (RateLimiter.outcome (limiter s)); cbn; auto.
Qed.

Lemma no_wait_drop i s :
  paused_workers s = 0 -> List.length (filter waits (drop i (workers s))) = 0.
Proof.
  unfold paused_workers. pose proof (waits_drop_le i (workers s)). lia.
Qed.

Lemma no_wait_finish i rs s :
  paused_workers s = 0 -> paused_workers (finish i rs s) = 0.
Proof.
  intros W. destruct (cancelled_finish i rs s) as (_ & _ & ->).
  apply no_wait_drop, W.
Qed.

Lemma no_wait_auditUrl i k acc s :
  paused_workers s = 0 -> paused_workers (auditUrl i k acc s) = 0.
Proof.
  intros W. unfold auditUrl.
  destruct (nth_error auditors k); [|apply no_wait_finish, W].
  destruct (aborted s); [apply no_wait_finish, W|].
  rewrite waits_restage, (no_wait_drop i s W). reflexivity.
Qed.

Lemma no_wait_processUrl i s :
  isPaused s && negb (aborted s) = false -> paused_workers s = 0 ->
  paused_workers (processUrl i s) = 0.
Proof.
  intros F W. unfold processUrl, wait_if_paused. rewrite F.
  destruct (aborted s).
  - rewrite waits_restage, (no_wait_drop i s W). reflexivity.
  - unfold audit_item. apply no_wait_auditUrl. exact W.
Qed.

Lemma no_wait_claim N s rl i :
  steady N s -> paused_workers s = 0 ->
  (RateLimiter.isPaused (limiter s) = true ->
   RateLimiter.isCancelled (limiter s) = false ->
   RateLimiter.aborted (limiter s) = false -> False) ->
  RateLimiter.aborted rl = RateLimiter.aborted (limiter s) ->
  paused_workers (processUrl i (startAudit_continues (RateLimiter.outcome (limiter s))
                                  (set_limiter rl s))) = 0.
Proof.
  intros S0 W X Fa.
  destruct (continues_flags (RateLimiter.outcome (limiter s)) (set_limiter rl s))
    as (P1 & A1).
  apply no_wait_processUrl.
  - rewrite P1, A1. unfold aborted. cbn [limiter set_limiter isPaused]. rewrite Fa.
    destruct (isPaused s) eqn:P; [|reflexivity].
    destruct (RateLimiter.aborted (limiter s)) eqn:A; [reflexivity|].
    exfalso. apply X; auto.
    + rewrite <- (t_paused _ _ S0). exact P.
    + rewrite (t_cancel _ _ S0). exact A.
  - unfold paused_workers. rewrite workers_continues. exact W.
Qed.

Lemma no_wait_step N l s s' :
  steady N s -> paused_workers s = 0 -> exec l s = Some s' -> paused_workers s' = 0.
Proof.
  intros S0 W H.
  assert (Idle : forall l', idle l' = true -> LimiterRunSpec.keeps_paused l' = true ->
            limiter_steps l' s = Some s' -> paused_workers s' = 0).
  { intros l' Hi Hk H'. unfold limiter_steps in H'.
    assert (X : exists rl, RateLimiter.exec l' (limiter s) = Some rl
                /\ s' = match RateLimiter.claims l' (limiter s) with
                        | Some i =>
                            processUrl i
                              (startAudit_continues (RateLimiter.outcome (limiter s))
                                 (set_limiter rl s))
                        | None =>
                            startAudit_continues (RateLimiter.outcome (limiter s))
                              (set_limiter rl s)
                        end).
    { destruct l'; try discriminate;
        (destruct (RateLimiter.exec _ (limiter s)) as [rl|]; [|discriminate]);
        inversion H'; eauto. }
    destruct X as (rl & E & ->).
    destruct (exec_effect _ _ _ Hi E) as ([Fp Fc Fa] & Eff).
    destruct (RateLimiter.claims l' (limiter s)) as [i|].
    - apply (no_wait_claim N); auto. intros P C A.
      destruct (paused_step _ _ _ P C A Hk E) as (_ & _ & _ & _ & K & _).
      destruct Eff as (I & K' & _). lia.
    - unfold paused_workers. rewrite workers_continues. exact W. }
  destruct l as [l|i|i r|m]; cbn [exec] in H.
  - destruct l as [| |item| | | | |];
      [ apply (Idle RateLimiter.LTimer eq_refl eq_refl H)
      | apply (Idle RateLimiter.LPoll eq_refl eq_refl H)
      |
      | apply (Idle RateLimiter.LDelay eq_refl eq_refl H)
      | cbn in H; discriminate .. ].
    unfold limiter_steps in H.
    destruct (stage_of item s) as [[]|]; try discriminate.
    destruct (RateLimiter.exec (RateLimiter.LSettle item) (limiter s)) as [rl|];
      [|discriminate].
    inversion H; subst. unfold paused_workers. cbn [workers set_workers set_limiter].
    apply no_wait_drop, W.
  - unfold worker_polls in H. destruct (stage_of i s) as [[]|] eqn:E; try discriminate.
    pose proof (waits_drop_paused _ _ E) as Wd. unfold paused_workers in W. lia.
  - unfold response_arrives in H.
    destruct (stage_of i s) as [[|k acc|]|]; try discriminate.
    destruct (nth_error auditors k) as [a|]; [|discriminate].
    inversion H; subst. apply no_wait_auditUrl, W.
  - inversion H; subst. destruct m; exact W.
Qed.

Lemma no_wait_steps N ls : forall s s',
  steady N s -> paused_workers s = 0 -> execs ls s = Some s' -> paused_workers s' = 0.
Proof.
  induction ls as [|l r IH]; intros s s' S0 W H.
  - inversion H; subst. exact W.
  - cbn [execs] in H. destruct (exec l s) as [s1|] eqn:E; [|discriminate].
    exact (IH _ _ (steady_exec _ _ _ _ E S0) (no_wait_step _ _ _ _ S0 W E) H).
Qed.

Lemma no_wait_call_processNext N s :
  steady N s -> paused_workers s = 0 -> paused_workers (call_processNext s) = 0.
Proof.
  intros S0 W. unfold call_processNext.
  pose proof (processNext_effect (limiter s)) as [[Fp Fc Fa] _].
  pose proof (claim_unpaused (limiter s)) as U.
  destruct (RateLimiter.processNext (limiter s)) as [rl [i|]]; cbn [fst snd] in *.
  - apply (no_wait_claim N); auto. intros P C A. specialize (U P C A). discriminate.
  - unfold paused_workers. rewrite workers_continues. exact W.
Qed.

Lemma no_wait_initial_batch N k : forall s,
  steady N s -> paused_workers s = 0 -> paused_workers (initial_batch k s) = 0.
Proof.
  induction k; cbn [initial_batch]; intros s S0 W; auto.
  apply IHk; [apply steady_call_processNext, S0|apply (no_wait_call_processNext N), W; auto].
Qed.

Lemma no_wait_run N d us ls s :
  execs ls (startAudit N d us) = Some s -> paused_workers s = 0.
Proof.
  intros H. destruct (Z.le_gt_cases N 0) as [L|L].
  - destruct (run_cases _ _ _ _ _ H) as (_ & [(L' & _)|(_ & _ & W & _)]); [lia|].
    unfold paused_workers. rewrite W. reflexivity.
  - assert (S0 : steady N (mk (RateLimiter.fresh N d false false (List.length us))
                              false us 0 [] [])).
    { constructor; cbn; auto. constructor; cbn; auto; try lia; constructor. }
    eapply no_wait_steps; [| |exact H].
    + apply steady_startAudit. lia.
    + unfold startAudit. apply (no_wait_initial_batch N); auto.
Qed.

(** ** The log only grows *)

Lemma grows_finish i rs s : exists ev, log (finish i rs s) = (log s ++ ev)%list.
Proof. destruct (finish_fields i rs s) as (_ & _ & _ & _ & _ & ->). eauto. Qed.

Lemma grows_auditUrl i k acc s : exists ev, log (auditUrl i k acc s) = (log s ++ ev)%list.
Proof.
  unfold auditUrl. destruct (nth_error auditors k); [|apply grows_finish].
  destruct (aborted s); [apply grows_finish|]. exists []. cbn. rewrite app_nil_r. reflexivity.
Qed.

Lemma grows_processUrl i s : exists ev, log (processUrl i s) = (log s ++ ev)%list.
Proof.
  unfold processUrl, wait_if_paused, audit_item.
  destruct (aborted s); [exists []; cbn; rewrite app_nil_r; reflexivity|].
  destruct (isPaused s && negb false); [exists []; cbn; rewrite app_nil_r; reflexivity|].
  destruct (grows_auditUrl i 0 []
              (emit (OnProgress i Start (url i s) (completed s) (List.length (urls s))) s))
    as (ev & ->).
  cbn [log emit]. rewrite <- app_assoc. eauto.
Qed.

Lemma grows_continues b s : exists ev, log (startAudit_continues b s) = (log s ++ ev)%list.
Proof.
  unfold startAudit_continues.
  destruct b, (RateLimiter.outcome (limiter s)); cbn; eauto;
    exists []; rewrite app_nil_r; reflexivity.
Qed.

Lemma grows_exec l s s' : exec l s = Some s' -> exists ev, log s' = (log s ++ ev)%list.
Proof.
  intros H.
  assert (Nil : exists ev, log s = (log s ++ ev)%list)
    by (exists []; rewrite app_nil_r; reflexivity).
  assert (Idle : forall l', idle l' = true -> limiter_steps l' s = Some s' ->
            exists ev, log s' = (log s ++ ev)%list).
  { intros l' Hi H'. unfold limiter_steps in H'.
    assert (X : exists rl, s' = match RateLimiter.claims l' (limiter s) with
                        | Some i =>
                            processUrl i
                              (startAudit_continues (RateLimiter.outcome (limiter s))
                                 (set_limiter rl s))
                        | None =>
                            startAudit_continues (RateLimiter.outcome (limiter s))
                              (set_limiter rl s)
                        end).
    { destruct l'; try discriminate;
        (destruct (RateLimiter.exec _ (limiter s)) as [rl|]; [|discriminate]);
        inversion H'; exists rl; reflexivity. }
    destruct X as (rl & ->).
    destruct (grows_continues (RateLimiter.outcome (limiter s)) (set_limiter rl s))
      as (ev1 & E1). cbn [log set_limiter] in E1.
    destruct (RateLimiter.claims l' (limiter s)) as [i|]; [|eauto].
    destruct (grows_processUrl i
                (startAudit_continues (RateLimiter.outcome (limiter s))
                   (set_limiter rl s))) as (ev2 & ->).
    rewrite E1, <- app_assoc. eauto. }
  destruct l as [l|i|i r|m]; cbn [exec] in H.
  - destruct l as [| |item| | | | |];
      [ apply (Idle RateLimiter.LTimer eq_refl H)
      | apply (Idle RateLimiter.LPoll eq_refl H)
      |
      | apply (Idle RateLimiter.LDelay eq_refl H)
      | cbn in H; discriminate .. ].
    unfold limiter_steps in H.
    destruct (stage_of item s) as [[]|]; try discriminate.
    destruct (RateLimiter.exec (RateLimiter.LSettle item) (limiter s)) as [rl|];
      [|discriminate].
    inversion H; subst. exact Nil.
  - unfold worker_polls in H. destruct (stage_of i s) as [[]|]; try discriminate.
    inversion H; subst. unfold wait_if_paused.
    destruct (isPaused s && negb (aborted s)); [exact Nil|].
    unfold audit_item.
    destruct (grows_auditUrl i 0 []
                (emit (OnProgress i Start (url i s) (completed s) (List.length (urls s))) s))
      as (ev & ->).
    cbn [log emit]. rewrite <- app_assoc. eauto.
  - unfold response_arrives in H.
    destruct (stage_of i s) as [[|k acc|]|]; try discriminate.
    destruct (nth_error auditors k) as [a|]; [|discriminate].
    inversion H; subst. apply grows_auditUrl.
  - inversion H; subst. destruct m; cbn; eauto.
Qed.

Lemma grows_execs ls : forall s s',
  execs ls s = Some s' -> exists ev, log s' = (log s ++ ev)%list.
Proof.
  induction ls as [|l r IH]; intros s s' H.
  - inversion H; subst. exists []. rewrite app_nil_r. reflexivity.
  - cbn [execs] in H. destruct (exec l s) as [s1|] eqn:E; [|discriminate].
    destruct (grows_exec _ _ _ E) as (ev1 & E1). destruct (IH _ _ H) as (ev2 & ->).
    rewrite E1, <- app_assoc. eauto.
Qed.

Lemma run_ends_shape N d us ls s :
  execs ls (startAudit N d us) = Some s ->
  filter is_final (log s) = []
  \/ filter is_final (log s) = [OnComplete]
  \/ filter is_final (log s) = [OnError "system" "Processing cancelled"].
Proof.
  intros H. destruct (run_view N d us ls s H) as (_ & _ & _ & _ & _ & F).
  unfold finals_ok in F. destruct (RateLimiter.outcome (limiter s)); tauto.
Qed.

End EngineRunFacts.

(** * Properties of the CSV parser and of the CSV export *)
Module CsvProperties.
Import JS Auditors CSVParser CSVExporter StringSpec CsvSpec StringFacts CsvFacts.
Local Open Scope string_scope.

(** X1. the row parser of the CSV parser undoes the
    escaping of the CSV export.  For every non-empty list of fields, the
    fields escaped by [escapeCSVField] and joined by commas are parsed by
    [parseCSVRow] into the same fields, each one trimmed: commas, quotes
    and line breaks inside a field survive. *)
Theorem export_row_parses_back (x : string) (r : list string) :
  parseCSVRow (join "," (map escapeCSVField (x :: r))) = map trim (x :: r).
Proof. apply parseCSVRow_escaped. Qed.

(** X2. when no field of the results holds a
    line break, the text of [generateCSV] splits at the line breaks into
    the header line and one line per result, in order, and [parseCSVRow]
    reads each of these lines back as the six fields of its result,
    trimmed. *)
Theorem exported_lines_parse_back (result : AuditResult) (results : list AuditResult) :
  forallb single_line (result :: results) = true ->
  let lines := split newline (generateCSV (result :: results)) in
  hd EmptyString lines = "Full url,Type,Details,Link text,Target url,Image filename"
  /\ map parseCSVRow (tl lines)
     = map (fun r => map trim (fields r)) (result :: results).
Proof.
  intros H lines.
  assert (L : lines = join "," headers
                      :: map (fun row => join "," row) (map row (result :: results))).
  { subst lines. unfold generateCSV. apply split_join; [discriminate|].
    constructor; [reflexivity|].
    apply Forall_forall. intros l Hl.
    apply in_map_iff in Hl as (rw & <- & Hrw).
    apply in_map_iff in Hrw as (res & <- & Hres).
    apply has_join; [reflexivity|].
    rewrite forallb_forall in H. specialize (H _ Hres).
    unfold single_line in H. rewrite forallb_forall in H.
    unfold row. apply Forall_forall. intros f Hf.
    apply in_map_iff in Hf as (g & <- & Hg).
    apply has_escape. specialize (H _ Hg). apply negb_true_iff in H. exact H. }
  rewrite L. split; [reflexivity|]. cbn [tl]. rewrite !map_map.
  apply map_ext. intros a. apply parseCSVRow_escaped.
Qed.

Lemma exported_lines_parse_back_witness :
  map parseCSVRow (tl (split newline (generateCSV [table_row; image_row])))
  = [["https://a.test/x,y"; "Table Info";
      "Caption: none, Row headers: no, Column headers: yes";
      EmptyString; EmptyString; EmptyString];
     ["https://a.test"; "Image with alt text";
      "alt=" ++ dquote ++ "a logo" ++ dquote; EmptyString; "/logo.png"; EmptyString]].
Proof.
  exact (proj2 (exported_lines_parse_back table_row [image_row]
                  ltac:(vm_compute; reflexivity))).
Defined.

(** X3. on a line without double quote [parseCSVRow]
    is the split at the commas with every field trimmed; it never returns
    the empty list, so the first column always exists. *)
Theorem unquoted_row_is_split (line : string) :
  has quote line = false ->
  parseCSVRow line = map trim (split comma line) /\ parseCSVRow line <> [].
Proof.
  intros H. unfold parseCSVRow. rewrite row_loop_unquoted by exact H.
  pose proof (split_nonempty comma line) as N.
  destruct (split comma line) as [|x xs]; [contradiction|].
  cbn [app append map]. split; [reflexivity|discriminate].
Qed.

Lemma unquoted_row_is_split_witness :
  parseCSVRow " https://a.test , Home page ,"
  = map trim (split comma " https://a.test , Home page ,")
  /\ parseCSVRow " https://a.test , Home page ," <> [].
Proof.
  exact (unquoted_row_is_split " https://a.test , Home page ,"
           ltac:(vm_compute; reflexivity)).
Defined.




(** X6. the first non-blank line is taken for
    a header, and dropped without being validated, as soon as its first
    field contains url, link, website, address or site, whatever else it
    holds: the result is the one of the same file with the plain header
    URL, and a file that consists of that line alone gives no URL, no
    error and no row.  A first line such as https://mysite.com is lost
    in this way. *)
Theorem header_row_is_dropped_unread (first rest : string) :
  has newline first = false ->
  detectHeader first = true ->
  parseCSV (first ++ String newline rest) = parseCSV ("URL" ++ String newline rest)
  /\ parseCSV first = mkParse [] [] 0 0.
Proof.
  intros N D. pose proof (detectHeader_nonblank _ D) as T. split.
  - unfold parseCSV. rewrite (nonblank_cons first rest N T).
    rewrite (nonblank_cons "URL" rest eq_refl eq_refl).
    rewrite D. change (detectHeader "URL") with true. reflexivity.
  - unfold parseCSV, nonblank. rewrite (split_without _ _ N). cbn [filter].
    rewrite T, D. reflexivity.
Qed.

Lemma header_row_is_dropped_unread_witness :
  isValid (validateURL "https://mysite.com") = true
  /\ urls (parseCSV ("https://mysite.com" ++ String newline "https://b.com"))
     = ["https://b.com"]
  /\ parseCSV "https://mysite.com" = mkParse [] [] 0 0.
Proof.
  split; [vm_compute; reflexivity|].
  pose proof (header_row_is_dropped_unread "https://mysite.com" "https://b.com"
                ltac:(vm_compute; reflexivity) ltac:(vm_compute; reflexivity)) as H.
  split; [|exact (proj2 H)].
  rewrite (proj1 H). vm_compute. reflexivity.
Defined.

(** X7. a file that holds nothing but white
    space (spaces, tabs, line breaks) gives no URL, no row, and the single
    error CSV file is empty. *)
Theorem blank_file_is_reported_empty (content : string) :
  trim content = EmptyString ->
  parseCSV content = mkParse [] ["CSV file is empty"] 0 0.
Proof.
  intros H. unfold parseCSV. rewrite (nonblank_blank _ H). reflexivity.
Qed.

Lemma blank_file_is_reported_empty_witness :
  parseCSV (String newline (" " ++ String newline "  "))
  = mkParse [] ["CSV file is empty"] 0 0.
Proof.
  exact (blank_file_is_reported_empty (String newline (" " ++ String newline "  "))
           ltac:(vm_compute; reflexivity)).
Defined.

End CsvProperties.

(** * Properties of the URL helpers and of the text helpers *)
Module HelperProperties.
Import JS DOM Auditors HTMLProcessor AuditUtils StringSpec StringFacts HelperFacts.
Local Open Scope string_scope.

(** X8. a URL that holds no colon (any
    relative URL: /x.jpg, images/x.jpg, page.pdf) makes [new URL(url)]
    throw, and each helper falls back: [extractFilename] and
    [getFileExtension] return the empty string, [hasFileExtension] is true
    only if the empty string is among the extensions, both [resolveURL]
    and the resolveUrl of the document auditor return the reference
    unchanged when the base is such a URL, and the image auditor reports
    an empty imageFilename for every image with such a src. *)
Theorem url_without_colon_is_not_parsed (url : string) :
  has ":" url = false ->
  extractFilename url = EmptyString
  /\ getFileExtension url = EmptyString
  /\ (forall extensions,
        hasFileExtension url extensions = existsb (String.eqb EmptyString) extensions)
  /\ (forall href, resolveURL href url = href /\ resolveUrl href url = href)
  /\ (forall page img, getAttribute "src" img = Some url ->
        imageFilename (image_result page img) = EmptyString
        /\ targetUrl (image_result page img) = url).
Proof.
  intros H. pose proof (parse_without_colon url H) as P.
  assert (F : extractFilename url = EmptyString).
  { unfold extractFilename. rewrite P. reflexivity. }
  assert (G : getFileExtension url = EmptyString).
  { unfold getFileExtension. rewrite P. reflexivity. }
  split; [exact F|]. split; [exact G|]. split; [|split].
  - intros extensions. unfold hasFileExtension. rewrite G. reflexivity.
  - intros href. unfold resolveURL, resolveUrl, URL.parse_with_base. rewrite P. auto.
  - intros page img S. unfold image_result. rewrite S.
    assert (O : or_null (Some url) EmptyString = url) by (destruct url; reflexivity).
    rewrite O, F.
    destruct (getAttribute "alt" img) as [a|]; [|split; reflexivity].
    destruct (negb (truthy a) || String.eqb (trim a) EmptyString); split; reflexivity.
Qed.

Lemma url_without_colon_is_not_parsed_witness :
  extractFilename "/images/logo.png" = EmptyString
  /\ getFileExtension "/images/logo.png" = EmptyString.
Proof.
  pose proof (url_without_colon_is_not_parsed "/images/logo.png"
                ltac:(vm_compute; reflexivity)) as H.
  exact (conj (proj1 H) (proj1 (proj2 H))).
Defined.

(** X9. whatever the URL, [getFileExtension] returns
    either the empty string or a dot followed by a non-empty string that
    holds no further dot and no upper-case letter; it is never a lone
    dot. *)
Theorem file_extension_shape (url : string) :
  getFileExtension url = EmptyString
  \/ exists x, getFileExtension url = String "." x /\ x <> EmptyString
               /\ has "." x = false /\ toLowerCase x = x.
Proof. apply extension_shape. Qed.



End HelperProperties.

(** * Properties of the findings of the auditors *)
Module FindingProperties.
Import JS DOM Auditors AuditorSpec FindingSpec StringSpec StringFacts HelperFacts FindingFacts.
Local Open Scope string_scope.

(** X12. whatever the signal shows and
    whatever the request comes to, every result that an auditor returns
    carries the audited URL as fullUrl and a type of that auditor: the
    image auditor the two image types, the document auditor PDF Link or
    Office File Link, each other auditor its own auditType. *)
Theorem findings_name_the_page_and_the_rule
        (a : auditor) (url : string) (sig : Signal) (r : response) :
  exists rs, audit a url sig r = Normal rs
             /\ Forall (fun x => fullUrl x = url /\ In (type x) (types_of a)) rs.
Proof. apply audit_yields. Qed.

(** X13. when the page is fetched and the
    signal is never aborted, each auditor reports on every element that
    its selector matches, in document order, and on nothing else.  The
    image auditor and the table auditor return exactly one result per img
    and per table element; the button auditor, the document auditor and
    the link auditor return the results of their elements (and of the raw
    URLs matched in the text of the body) one after the other.  A document
    without body makes the link auditor return nothing at all. *)
Theorem quiet_audit_covers_every_element (url : string) (doc : Document) :
  audit ImageAuditor url never_aborted (Fetched doc)
  = Normal (map (image_result url) (querySelectorAll [Type_ "img"] doc))
  /\ audit TableAuditor url never_aborted (Fetched doc)
     = Normal (map (table_result url) (querySelectorAll [Type_ "table"] doc))
  /\ audit ButtonAuditor url never_aborted (Fetched doc)
     = Normal (flat_map (button_results doc url) (button_elements doc))
  /\ audit DocumentAuditor url never_aborted (Fetched doc)
     = Normal (flat_map (document_results url)
                        (querySelectorAll [HasAttr "a" "href"] doc))
  /\ audit LinkAuditor url never_aborted (Fetched doc)
     = Normal (match body doc with
               | Some b =>
                   flat_map (vague_link url) (querySelectorAll [HasAttr "a" "href"] doc)
                   ++ flat_map (raw_url url) (match_all None (textContent b) 0)
               | None => []
               end)%list.
Proof.
  split; [apply image_quiet|]. split; [apply table_quiet|].
  split; [apply button_quiet|]. split; [apply document_quiet|apply link_quiet].
Qed.

(** X14. the document auditor reports a link at
    most once, as a PDF link or as an Office file link and never as both;
    and the query string and the fragment of the reference play no part in
    the decision: cutting the reference at its first question mark or
    hash sign leaves the types reported unchanged. *)
Theorem document_link_reported_once
        (url h rest : string) (sep : ascii) (content : list Node) :
  has "?" h = false -> has "#" h = false -> sep = "?"%char \/ sep = "#"%char ->
  (forall link, List.length (document_results url link) <= 1)
  /\ map type (document_results url (anchor (h ++ String sep rest) content))
     = map type (document_results url (anchor h content)).
Proof.
  intros Q F S. split; [intros link; apply document_results_once|].
  apply document_types_cut; assumption.
Qed.

Lemma document_link_reported_once_witness :
  map type (document_results "https://a.test"
              (anchor "/files/Report.PDF?version=2#page=3" [Text "Annual report"]))
  = [PDF_LINK].
Proof.
  refine (eq_trans
            (proj2 (document_link_reported_once "https://a.test" "/files/Report.PDF"
                      "version=2#page=3" "?" [Text "Annual report"]
                      ltac:(vm_compute; reflexivity) ltac:(vm_compute; reflexivity)
                      (or_introl eq_refl))) _).
  vm_compute. reflexivity.
Defined.


(** X16. every raw-URL finding of the link
    auditor has an empty linkText and a targetUrl that starts with http://
    or https://, holds no at sign, and ends, in lower case, with one of
    the ten top-level domains of the auditor.  A raw URL that goes on
    with a path, such as https://example.com/page, is therefore not
    reported. *)
Theorem raw_url_findings_end_with_a_tld
        (doc : Document) (url : string) (sig : Signal) (k n : nat)
        (rs : list AuditResult) :
  findRawUrls doc url sig k = (Normal rs, n) ->
  Forall (fun x => type x = INACCESSIBLE_LINK /\ linkText x = EmptyString
                   /\ (startsWith (targetUrl x) "http://"
                       || startsWith (targetUrl x) "https://") = true
                   /\ existsb (fun tld => endsWith (toLowerCase (targetUrl x)) tld)
                              VALID_TLDS = true
                   /\ includes (targetUrl x) "@" = false) rs.
Proof. apply findRawUrls_yields. Qed.

Lemma raw_url_findings_end_with_a_tld_witness :
  findRawUrls raw_page "https://a.test" never_aborted 0
  = (Normal [mkResult "https://a.test" INACCESSIBLE_LINK EmptyString EmptyString
               "https://www.example.org" EmptyString], 3)
  /\ Forall (fun x => type x = INACCESSIBLE_LINK /\ linkText x = EmptyString
                      /\ (startsWith (targetUrl x) "http://"
                          || startsWith (targetUrl x) "https://") = true
                      /\ existsb (fun tld => endsWith (toLowerCase (targetUrl x)) tld)
                                 VALID_TLDS = true
                      /\ includes (targetUrl x) "@" = false)
            [mkResult "https://a.test" INACCESSIBLE_LINK EmptyString EmptyString
               "https://www.example.org" EmptyString].
Proof.
  split; [vm_compute; reflexivity|].
  exact (raw_url_findings_end_with_a_tld raw_page "https://a.test" never_aborted 0 3 _
           ltac:(vm_compute; reflexivity)).
Defined.

End FindingProperties.

(** * Properties of the limiter: pause, cancel, delay, settlement *)
Module LimiterProperties.
Import RateLimiter RateLimiterSpec RateLimiterFacts LimiterRunSpec LimiterRunFacts.
Local Open Scope nat_scope.

(** X17. while the limiter is paused, and
    neither cancelled nor aborted, no step hands an item to the processor,
    whatever timers fire and whichever workers settle; and the promise of
    processItems does not settle either, even when every item is done: it
    stays as it is until resume(), cancel() or the abort of the signal. *)
Theorem paused_limiter_dispatches_nothing (ls : list label) (s s' : state) :
  isPaused s = true -> isCancelled s = false -> aborted s = false ->
  forallb keeps_paused ls = true ->
  execs ls s = Some s' ->
  isPaused s' = true /\ dispatched s' = dispatched s /\ completed s' = completed s
  /\ outcome s' = outcome s.
Proof. intros P C A K H. exact (paused_steps ls s s' P C A K H). Qed.

Lemma paused_limiter_dispatches_nothing_witness :
  exists s',
    execs [LTimer; LPoll; LPause; LPoll]
          (after [LPause; LSettle 0] (processItems 1 0 false false 1)) = Some s'
    /\ running s' = [] /\ completed s' = 1 /\ outcome s' = Pending.
Proof.
  eexists. split; [vm_compute; reflexivity|]. split; [vm_compute; reflexivity|].
  assert (H := paused_limiter_dispatches_nothing
                 [LTimer; LPoll; LPause; LPoll]
                 (after [LPause; LSettle 0] (processItems 1 0 false false 1))).
  match goal with
  | |- completed ?x = _ /\ _ =>
      destruct (H x) as (_ & _ & C & O); try (vm_compute; reflexivity)
  end.
  split; [exact C|exact O].
Defined.

(** X18. once cancel() has been called or
    the signal is aborted, an invocation of processNext that starts afresh
    dispatches nothing; only an invocation that was waiting in the pause
    loop at that moment still dispatches, one item at most, since the
    cancellation is tested before the loop and not after it.  So the
    number of items handed to the processor after the cancellation never
    exceeds the number of invocations waiting in the pause loop, and is
    zero in a run that was not paused. *)
Theorem cancelled_limiter_dispatch_bound (ls : list label) (s s' : state) :
  stopped s = true ->
  execs ls s = Some s' ->
  stopped s' = true
  /\ completed s <= completed s'
  /\ completed s' + waiters s' <= completed s + waiters s.
Proof. intros S H. exact (stopped_steps ls s s' S H). Qed.

Lemma cancelled_limiter_dispatch_bound_witness :
  exists s',
    execs [LPoll; LPoll; LSettle 0; LTimer]
          (after [LCancel] (processItems 2 0 true false 3)) = Some s'
    /\ completed (after [LCancel] (processItems 2 0 true false 3)) = 0
    /\ waiters (after [LCancel] (processItems 2 0 true false 3)) = 2
    /\ dispatched s' = [0; 1] /\ outcome s' = Rejected
    /\ completed s' + waiters s' <= 0 + 2.
Proof.
  eexists. split; [vm_compute; reflexivity|].
  do 4 (split; [vm_compute; reflexivity|]).
  assert (H := cancelled_limiter_dispatch_bound
                 [LPoll; LPoll; LSettle 0; LTimer]
                 (after [LCancel] (processItems 2 0 true false 3))).
  match goal with
  | |- completed ?x + _ <= _ =>
      destruct (H x) as (_ & _ & B); [vm_compute; reflexivity ..|exact B]
  end.
Defined.

(** X19. with maxConcurrent 1 and a
    positive delayBetweenBatches, every item after the first is dispatched
    only after a further inter-batch delay has elapsed: in every run,
    paused, resumed or cancelled at will, the number of items handed to
    the processor is at most one more than the number of delays that have
    elapsed.  With two workers there is no such guarantee: three items
    can be dispatched without any delay. *)
Theorem single_worker_waits_between_items
        (delay : Z) (paused sig : bool) (n : nat) (ls : list label) (s : state) :
  (0 < delay)%Z ->
  execs ls (processItems 1 delay paused sig n) = Some s ->
  List.length (dispatched s) <= 1 + delays ls
  /\ (exists ls2 s2, execs ls2 (processItems 2 delay false false 3) = Some s2
                     /\ List.length (dispatched s2) = 3 /\ delays ls2 = 0).
Proof.
  intros D H. split.
  - pose proof (paced_steps n ls 0 _ _ (paced_processItems delay paused sig n D) H)
      as [G _ C _].
    rewrite (g_disp _ _ _ G), length_seq. exact C.
  - exists [LSettle 0; LTimer]. destruct delay as [|p|p]; try lia.
    eexists. split; [cbv; reflexivity|]. split; reflexivity.
Qed.

Lemma single_worker_waits_between_items_witness :
  exists s,
    execs [LSettle 0; LDelay; LTimer; LSettle 1; LDelay; LTimer]
          (processItems 1 1000 false false 3) = Some s
    /\ dispatched s = [0; 1; 2]
    /\ List.length (dispatched s) <= 1 + 2.
Proof.
  eexists. split; [vm_compute; reflexivity|]. split; [vm_compute; reflexivity|].
  assert (H := single_worker_waits_between_items 1000 false false 3
                 [LSettle 0; LDelay; LTimer; LSettle 1; LDelay; LTimer]).
  match goal with
  | |- List.length (dispatched ?x) <= _ =>
      destruct (H x) as (B & _); [vm_compute; reflexivity ..|exact B]
  end.
Defined.

(** X20. in every run of processItems the promise
    is resolved only when every item of the list has been handed to the
    processor, and it is rejected only after cancel() was called or the
    signal was aborted. *)
Theorem promise_settles_only_when
        (N delay : Z) (paused sig : bool) (n : nat) (ls : list label) (s : state) :
  execs ls (processItems N delay paused sig n) = Some s ->
  (outcome s = Resolved -> dispatched s = seq 0 n /\ completed s = n)
  /\ (outcome s = Rejected -> stopped s = true).
Proof.
  intros H.
  destruct (settled_steps ls _ _ (settled_processItems N delay paused sig n) H) as [A B].
  split; [|exact B]. intros O. specialize (A O).
  destruct (Z.le_gt_cases N 0) as [L|L].
  - rewrite (nothing_to_start N delay paused sig n (or_introl L)) in H.
    destruct (idle_forever_steps ls (fresh N delay paused sig n) s eq_refl H)
      as (_ & O' & _ & _).
    cbn in O'. congruence.
  - assert (G : good N n s).
    { eapply good_execs; eauto. apply good_processItems. lia. }
    pose proof (g_le _ _ _ G) as Le. rewrite (g_len _ _ _ G) in *.
    assert (completed s = n) by lia. split; auto.
    rewrite (g_disp _ _ _ G). congruence.
Qed.

Lemma promise_settles_only_when_witness :
  exists s,
    execs [LSettle 0; LTimer; LSettle 1; LTimer] (processItems 1 0 false false 2) = Some s
    /\ outcome s = Resolved /\ dispatched s = [0; 1].
Proof.
  eexists. split; [vm_compute; reflexivity|]. split; [vm_compute; reflexivity|].
  assert (H := promise_settles_only_when 1 0 false false 2
                 [LSettle 0; LTimer; LSettle 1; LTimer]).
  match goal with
  | |- dispatched ?x = _ =>
      destruct (H x) as (R & _); [vm_compute; reflexivity|];
      exact (proj1 (R ltac:(vm_compute; reflexivity)))
  end.
Defined.

(** X21. with an empty list of items, or with
    a maxConcurrent of zero or less, the initial batch is empty: no
    invocation of processNext ever runs, nothing is dispatched, and the
    promise of processItems stays pending for ever, whatever is called
    afterwards. *)
Theorem nothing_to_start_never_settles
        (N delay : Z) (paused sig : bool) (n : nat) (ls : list label) (s : state) :
  (N <= 0)%Z \/ n = 0 ->
  execs ls (processItems N delay paused sig n) = Some s ->
  tasks s = [] /\ outcome s = Pending /\ dispatched s = [].
Proof.
  intros Z H. rewrite (nothing_to_start N delay paused sig n Z) in H.
  destruct (idle_forever_steps ls (fresh N delay paused sig n) s eq_refl H)
    as (T & O & D & _). auto.
Qed.

Lemma nothing_to_start_never_settles_witness :
  exists s,
    execs [LPause; LResume] (processItems 3 0 false false 0) = Some s
    /\ tasks s = [] /\ outcome s = Pending /\ dispatched s = [].
Proof.
  eexists. split; [vm_compute; reflexivity|].
  apply (nothing_to_start_never_settles 3 0 false false 0 [LPause; LResume]);
    [right; reflexivity|vm_compute; reflexivity].
Defined.

End LimiterProperties.

(** * Properties of every run of the engine, cancelled or not *)
Module EngineProperties.
Import JS Auditors AuditEngine RateLimiterSpec RateLimiterFacts AuditEngineSpec AuditEngineFacts Scenario.
Import EngineRunSpec EngineRunFacts.
Local Open Scope string_scope.
Local Open Scope nat_scope.

(** X22. in every run of startAudit, paused,
    resumed or cancelled at will and for any configuration, every callback
    gets well-formed arguments.  onProgress is given the length of the list
    as total and a completed count within it; before an audit the count is
    below the total and currentUrl is the URL of the item; after an audit
    the count is at least one and currentUrl is urls[completed], or the
    empty string once the count has reached the total.  onResults is never
    called with an empty list, and every result it hands over carries a URL
    of the list.  onError is only ever called with the url system and the
    message of the limiter, Processing cancelled: no error of a page gets
    there. *)
Theorem engine_callbacks_are_well_formed
        (N d : Z) (us : list string) (ls : list label) (s : state) :
  execs ls (startAudit N d us) = Some s ->
  Forall (event_ok us) (log s).
Proof. intros H. exact (proj1 (proj2 (run_view N d us ls s H))). Qed.

Lemma engine_callbacks_are_well_formed_witness :
  exists s,
    execs [Call Cancel; Response 0 (Fetched a_test_page);
           Limiter (RateLimiter.LSettle 0); Limiter RateLimiter.LTimer]
          (startAudit 1 0 two_urls) = Some s
    /\ log s = [OnProgress 0 Start "https://a.test" 0 2; Called Cancel;
                OnProgress 0 End "https://b.test" 1 2;
                OnError "system" "Processing cancelled"]
    /\ Forall (event_ok two_urls) (log s).
Proof.
  eexists. split; [vm_compute; reflexivity|]. split; [vm_compute; reflexivity|].
  apply (engine_callbacks_are_well_formed 1 0 two_urls
           [Call Cancel; Response 0 (Fetched a_test_page);
            Limiter (RateLimiter.LSettle 0); Limiter RateLimiter.LTimer]).
  vm_compute; reflexivity.
Defined.

(** X23. the progress events sent after an audit report
    the counts 1, 2, 3, ... in this order, without a gap or a repetition,
    however the audits of several workers interleave; the count never
    exceeds the number of URLs; and the count given with the last progress
    event, of either kind, is always the current count of finished URLs,
    so a listener that keeps the last payload is never behind. *)
Theorem progress_counts_up
        (N d : Z) (us : list string) (ls : list label) (s : state) :
  execs ls (startAudit N d us) = Some s ->
  map reported (filter is_end (log s)) = seq 1 (completed s)
  /\ completed s <= List.length us
  /\ shown (log s) = completed s.
Proof.
  intros H. destruct (run_view N d us ls s H) as (_ & _ & E & C & Sh & _). auto.
Qed.

Lemma progress_counts_up_witness :
  exists s,
    execs (six 1 (Failure "offline") ++ [Limiter (RateLimiter.LSettle 1)]
           ++ six 0 (Fetched a_test_page))
          (startAudit 2 0 two_urls) = Some s
    /\ completed s = 2
    /\ map reported (filter is_end (log s)) = [1; 2].
Proof.
  eexists. split; [vm_compute; reflexivity|]. split; [vm_compute; reflexivity|].
  assert (H := progress_counts_up 2 0 two_urls
                 (six 1 (Failure "offline") ++ [Limiter (RateLimiter.LSettle 1)]
                  ++ six 0 (Fetched a_test_page))).
  match goal with
  | |- map reported (filter is_end (log ?x)) = _ =>
      destruct (H x) as (E & _); [vm_compute; reflexivity|];
      refine (eq_trans E _); vm_compute; reflexivity
  end.
Defined.

(** X24. of onComplete and onError at most one is ever
    called in a run, and at most once.  As long as neither was called the
    promise of the limiter is pending; onComplete is called only when every
    URL of the list has been handed to processUrl; the error, which is the
    system error Processing cancelled, only after the signal was aborted. *)
Theorem run_ends_at_most_once
        (N d : Z) (us : list string) (ls : list label) (s : state) :
  execs ls (startAudit N d us) = Some s ->
  (filter is_final (log s) = []
   /\ RateLimiter.outcome (limiter s) = RateLimiter.Pending)
  \/ (filter is_final (log s) = [OnComplete]
      /\ RateLimiter.outcome (limiter s) = RateLimiter.Resolved
      /\ RateLimiter.dispatched (limiter s) = seq 0 (List.length us))
  \/ (filter is_final (log s) = [OnError "system" "Processing cancelled"]
      /\ RateLimiter.outcome (limiter s) = RateLimiter.Rejected
      /\ aborted s = true).
Proof.
  intros H.
  destruct (run_cases _ _ _ _ _ H) as (U & [(L & S0)|(L & T & W & C & O & G)]).
  - pose proof (limit_le _ _ S0) as Le. destruct S0 as [G _ _ _ _ _ _ _ F].
    rewrite U in *. unfold finals_ok in F.
    destruct (RateLimiter.outcome (limiter s)).
    + left. auto.
    + right. left. destruct F as [F1 F2]. repeat split; auto.
      rewrite (g_disp _ _ _ G). f_equal. rewrite U in F2. lia.
    + right. right. destruct F as [F1 F2]. auto.
  - left. destruct (calls_only us _ G) as (_ & _ & F & _). auto.
Qed.

Lemma run_ends_at_most_once_witness :
  exists s,
    execs (six 0 (Fetched a_test_page) ++ six 1 (Failure "offline")
           ++ [Limiter (RateLimiter.LSettle 1); Limiter RateLimiter.LTimer;
               Limiter (RateLimiter.LSettle 0); Limiter RateLimiter.LTimer])
          (startAudit 2 0 two_urls) = Some s
    /\ filter is_final (log s) = [OnComplete]
    /\ RateLimiter.dispatched (limiter s) = [0; 1].
Proof.
  eexists. split; [vm_compute; reflexivity|]. split; [vm_compute; reflexivity|].
  assert (H := run_ends_at_most_once 2 0 two_urls
                 (six 0 (Fetched a_test_page) ++ six 1 (Failure "offline")
                  ++ [Limiter (RateLimiter.LSettle 1); Limiter RateLimiter.LTimer;
                      Limiter (RateLimiter.LSettle 0); Limiter RateLimiter.LTimer])).
  match goal with
  | |- RateLimiter.dispatched (limiter ?x) = _ =>
      destruct (H x) as [(_ & O)|[(_ & _ & D)|(_ & O & _)]];
        [vm_compute; reflexivity
        |exfalso; vm_compute in O; discriminate
        |exact D
        |exfalso; vm_compute in O; discriminate]
  end.
Defined.

(** X25. while the engine is paused and not
    cancelled, no audit of a further URL begins, whatever timers fire and
    whichever requests come back: no progress event of the first kind is
    sent and the limiter hands out no item.  The audits under way are not
    held: their remaining auditors are still called. *)
Theorem paused_engine_starts_nothing
        (N d : Z) (us : list string) (ls0 ls : list label) (s s' : state) :
  execs ls0 (startAudit N d us) = Some s ->
  isPaused s = true -> aborted s = false ->
  forallb stays_paused ls = true ->
  execs ls s = Some s' ->
  isPaused s' = true
  /\ filter is_start (log s') = filter is_start (log s)
  /\ RateLimiter.completed (limiter s') = RateLimiter.completed (limiter s).
Proof.
  intros H0 P A K H.
  destruct (run_cases _ _ _ _ _ H0) as (U & [(L & S0)|(L & T & W & _)]).
  - destruct (paused_engine_steps N ls s s' S0 P A K H) as (P' & _ & St & C). auto.
  - exact (paused_idle_steps ls s s' T W P K H).
Qed.

Lemma paused_engine_starts_nothing_witness :
  exists s',
    execs (six 0 (Fetched a_test_page)
           ++ [Limiter (RateLimiter.LSettle 0); Limiter RateLimiter.LTimer;
               Limiter RateLimiter.LPoll])
          (reached [Call Pause] (startAudit 1 0 two_urls)) = Some s'
    /\ completed s' = 1
    /\ filter is_start (log s') = [OnProgress 0 Start "https://a.test" 0 2].
Proof.
  eexists. split; [vm_compute; reflexivity|]. split; [vm_compute; reflexivity|].
  assert (H := paused_engine_starts_nothing 1 0 two_urls [Call Pause]
                 (six 0 (Fetched a_test_page)
                  ++ [Limiter (RateLimiter.LSettle 0); Limiter RateLimiter.LTimer;
                      Limiter RateLimiter.LPoll])
                 (reached [Call Pause] (startAudit 1 0 two_urls))).
  match goal with
  | |- filter is_start (log ?x) = _ =>
      destruct (H x) as (_ & St & _); [vm_compute; reflexivity ..|];
      refine (eq_trans St _); vm_compute; reflexivity
  end.
Defined.

(** X26. the pause loop of processUrl is never
    entered.  The limiter calls processUrl only when it is itself not
    paused, or cancelled; the engine is paused exactly when the limiter is,
    and a cancelled engine makes processUrl throw before the loop.  So in
    no state of any run a call of processUrl waits on its 100 ms timer:
    pausing is done by the limiter alone. *)
Theorem processUrl_never_waits
        (N d : Z) (us : list string) (ls : list label) (s : state) :
  execs ls (startAudit N d us) = Some s ->
  paused_workers s = 0 /\ forall i, worker_polls i s = None.
Proof.
  intros H. pose proof (no_wait_run N d us ls s H) as W. split; [exact W|].
  intros i. unfold worker_polls.
  destruct (stage_of i s) as [[]|] eqn:E; try reflexivity.
  pose proof (waits_drop_paused _ _ E) as Wd. unfold paused_workers in W. lia.
Qed.

Lemma processUrl_never_waits_witness :
  exists s,
    execs [Call Pause; Limiter (RateLimiter.LSettle 0); Limiter RateLimiter.LTimer;
           Call Resume; Limiter RateLimiter.LPoll; Call Pause]
          (reached (six 0 (Failure "offline")) (startAudit 1 0 two_urls)) = Some s
    /\ workers s = [(1, Auditing 0 [])]
    /\ worker_polls 1 s = None.
Proof.
  eexists. split; [vm_compute; reflexivity|]. split; [vm_compute; reflexivity|].
  assert (H := processUrl_never_waits 1 0 two_urls
                 (six 0 (Failure "offline")
                  ++ [Call Pause; Limiter (RateLimiter.LSettle 0);
                      Limiter RateLimiter.LTimer; Call Resume;
                      Limiter RateLimiter.LPoll; Call Pause])).
  match goal with
  | |- worker_polls 1 ?x = None =>
      destruct (H x) as (_ & Wp); [vm_compute; reflexivity|exact (Wp 1)]
  end.
Defined.

(** X27. once cancel() has been called, no
    audit of a further URL begins: no progress event of the first kind is
    sent any more, whatever happens afterwards.  An item the limiter still
    hands out after the cancellation makes processUrl throw at once. *)
Theorem cancelled_engine_starts_nothing
        (N d : Z) (us : list string) (ls0 ls : list label) (s s' : state) :
  execs ls0 (startAudit N d us) = Some s ->
  aborted s = true ->
  execs ls s = Some s' ->
  aborted s' = true /\ filter is_start (log s') = filter is_start (log s).
Proof.
  intros H0 A H.
  destruct (cancelled_engine_steps ls s s' A H) as (A' & B). split; [exact A'|].
  rewrite (no_wait_run N d us ls0 s H0) in B.
  destruct (grows_execs ls s s' H) as (ev & E). rewrite E, filter_app in *.
  rewrite length_app in B.
  destruct (filter is_start ev); [apply app_nil_r|cbn in B; lia].
Qed.

Lemma cancelled_engine_starts_nothing_witness :
  exists s',
    execs [Limiter RateLimiter.LPoll; Limiter (RateLimiter.LSettle 1);
           Limiter RateLimiter.LTimer]
          (reached (six 0 (Failure "offline")
                    ++ [Call Pause; Limiter (RateLimiter.LSettle 0);
                        Limiter RateLimiter.LTimer; Call Cancel])
                   (startAudit 1 0 two_urls)) = Some s'
    /\ RateLimiter.dispatched (limiter s') = [0; 1]
    /\ filter is_start (log s') = [OnProgress 0 Start "https://a.test" 0 2].
Proof.
  eexists. split; [vm_compute; reflexivity|]. split; [vm_compute; reflexivity|].
  assert (H := cancelled_engine_starts_nothing 1 0 two_urls
                 (six 0 (Failure "offline")
                  ++ [Call Pause; Limiter (RateLimiter.LSettle 0);
                      Limiter RateLimiter.LTimer; Call Cancel])
                 [Limiter RateLimiter.LPoll; Limiter (RateLimiter.LSettle 1);
                  Limiter RateLimiter.LTimer]
                 (reached (six 0 (Failure "offline")
                           ++ [Call Pause; Limiter (RateLimiter.LSettle 0);
                               Limiter RateLimiter.LTimer; Call Cancel])
                          (startAudit 1 0 two_urls))).
  match goal with
  | |- filter is_start (log ?x) = _ =>
      destruct (H x) as (_ & St); [vm_compute; reflexivity ..|];
      refine (eq_trans St _); vm_compute; reflexivity
  end.
Defined.

(** X28. the session the reducer builds from
    START_AUDIT and the actions dispatched for the events of a run mirrors
    the engine.  It exists and holds the uploaded list; its results are the
    results handed to onResults, in order, each with a URL of the list; its
    completed count is the engine's count of finished URLs and its total
    the length of the list, so the count never exceeds the total; the two
    lists of errors are the same, and hold one entry at most. *)
Theorem session_mirrors_engine
        (N d : Z) (us : list string) (ls : list label) (s : state) :
  execs ls (startAudit N d us) = Some s ->
  exists session,
    AuditContext.currentSession (AuditContext.observe us (log s)) = Some session
    /\ AuditContext.urls session = us
    /\ AuditContext.results session = results_of (log s)
    /\ Forall (fun x => In (fullUrl x) us) (AuditContext.results session)
    /\ AuditContext.completedCount (AuditContext.progress session) = completed s
    /\ AuditContext.total (AuditContext.progress session) = List.length us
    /\ completed s <= List.length us
    /\ AuditContext.progressErrors (AuditContext.progress session)
       = AuditContext.errors session
    /\ List.length (AuditContext.errors session) <= 1.
Proof.
  intros H. destruct (run_view N d us ls s H) as (_ & Ok & _ & C & Sh & _).
  destruct (observe_shape us (log s) Ok) as (cur & errs & st & E & Le).
  rewrite E. eexists. split; [reflexivity|]. cbn.
  repeat split; auto using results_in_list.
  rewrite Le. pose proof (errors_le_finals (log s)) as F.
  destruct (run_ends_shape N d us ls s H) as [F0|[F0|F0]]; rewrite F0 in F; cbn in F; lia.
Qed.

Lemma session_mirrors_engine_witness :
  exists s session,
    execs (six 0 (Fetched a_test_page)) (startAudit 1 0 a_test) = Some s
    /\ AuditContext.currentSession (AuditContext.observe a_test (log s)) = Some session
    /\ completed s = 1
    /\ AuditContext.results session = [image_finding; link_finding]
    /\ AuditContext.completedCount (AuditContext.progress session) = 1.
Proof.
  eexists.
  assert (H := session_mirrors_engine 1 0 a_test (six 0 (Fetched a_test_page))).
  match goal with
  | |- exists session, execs _ _ = Some ?x /\ _ =>
      unify x (reached (six 0 (Fetched a_test_page)) (startAudit 1 0 a_test));
      destruct (H x) as (session & E & _ & R & _ & C & _);
        [vm_compute; reflexivity|]; exists session
  end.
  split; [vm_compute; reflexivity|]. split; [exact E|].
  split; [vm_compute; reflexivity|].
  split; [refine (eq_trans R _); vm_compute; reflexivity|].
  refine (eq_trans C _); vm_compute; reflexivity.
Defined.

(** X29. started with an empty list of
    URLs, or with a concurrentRequests of zero or less, the engine never
    calls any of its callbacks, onComplete included, whatever is called on
    it afterwards: startAudit stays pending for ever. *)
Theorem nothing_to_audit_makes_no_callback
        (N d : Z) (us : list string) (ls : list label) (s : state) :
  (N <= 0)%Z \/ us = [] ->
  execs ls (startAudit N d us) = Some s ->
  forallb is_call (log s) = true
  /\ completed s = 0
  /\ RateLimiter.outcome (limiter s) = RateLimiter.Pending.
Proof.
  intros Z H. rewrite (nothing_to_audit N d us Z) in H.
  destruct (engine_idle_steps ls
              (mk (RateLimiter.fresh N d false false (List.length us)) false us 0 [] [])
              s eq_refl eq_refl H) as (_ & _ & C & O & G).
  repeat split; auto.
Qed.

Lemma nothing_to_audit_makes_no_callback_witness :
  exists s,
    execs [Call Pause; Call Resume] (startAudit 3 0 []) = Some s
    /\ log s = [Called Pause; Called Resume]
    /\ RateLimiter.outcome (limiter s) = RateLimiter.Pending.
Proof.
  eexists. split; [vm_compute; reflexivity|]. split; [vm_compute; reflexivity|].
  apply (nothing_to_audit_makes_no_callback 3 0 [] [Call Pause; Call Resume]);
    [right; reflexivity|vm_compute; reflexivity].
Defined.

End EngineProperties.
